(** * cosmico-webinar: the download pipeline and its upstream clients

    A shallow embedding of
    - [cosmico_webinar/commands/download.py] ([crop_string],
      [DownloaderWorker] and the phases of [cli]),
    - [cosmico_webinar/commands/helpers.py] ([get_streamyard_links]),
    - [cosmico_webinar/eventbrite.py] ([get_events], [get_all_events]),
    - [cosmico_webinar/streamyard.py] ([get_webinar_info],
      [register_webinar]),
    - [cosmico_webinar/__main__.py] ([cli]),
    together with the properties the specification states about them.

    The download pipeline is described three times, each finer than the
    one before: [Download] runs a worker's pass through its loop as a whole,
    on responses and files that do not fail; [Faulty] lets the header, the
    stream and the file system fail; [Threads] interleaves the workers
    operation by operation. *)

From stdpp Require Import gmap strings list fin_maps.
From Stdlib Require Import ZArith Lia Ascii.

(** ** The download pipeline ([commands/download.py]) *)
Module Download.

(** [VideoEntry = TypedDict("VideoEntry", {"title", "url", "poster"})]. *)
Record VideoEntry := { title : string; url : string; poster : string }.

(** What the queue holds: an entry, or the module-level [_sentinel]. *)
Inductive Item := Job (entry : VideoEntry) | Sentinel.

#[global] Instance VideoEntry_eq_dec : EqDecision VideoEntry.
Proof. solve_decision. Defined.
#[global] Instance Item_eq_dec : EqDecision Item.
Proof. solve_decision. Defined.

(** A [pathlib.Path], as the list of its components; [p / name]. *)
Abbreviation Path := (list string).
Definition path_div (p : Path) (name : string) : Path := p ++ [name].

Abbreviation chunk := (list Byte.byte).

(** The part of a [requests.Response] the worker looks at: the status, the
    [Content-Length] header when there is one (already numeric), and the
    chunks [iter_content(chunk_size=8192)] yields, in order.  A header that
    is not a number and a stream that breaks off are left to [Faulty]. *)
Record Response :=
  { status_code : Z; content_length : option Z; body : list chunk }.

Inductive Exn :=
  | HTTPError (status : Z) (u : string)   (* raised by [raise_for_status] *)
  | RequestException (msg : string)       (* raised by [requests.get] itself *)
  | ValueError (msg : string)             (* raised by [int(...)], see [Faulty] *)
  | OSError (msg : string).               (* raised by [open] and [write], see [Faulty] *)

Inductive GetResult := Raises (e : Exn) | Responds (r : Response).

(** The environment of a run: the remote side, and the logical instant at
    which [_stop_event] gets set ([None]: it never is).  The event is only
    ever set, never cleared, so its value is monotone in time. *)
Record Env := { http_get : string -> GetResult; cancel_at : option nat }.

Definition stop_is_set (env : Env) (now : nat) : bool :=
  match cancel_at env with
  | Some t => bool_decide (t ≤ now)
  | None => false
  end.

(** Lines printed on the progress console. *)
Inductive Message :=
  | AlreadyDownloaded (local_file : Path)   (* "File ... already downloaded." *)
  | ErrorMsg (e : Exn).                     (* "Error: ..." *)

(** A task of the per-file [Progress] (rich's default total is 100). *)
Record Task := { total : Z; completed : Z; started : bool }.

(** File-system operations performed, with the instant of each. *)
Inductive FsEvent :=
  | Opened (t : nat) (p : Path)               (* [open(p, "wb")]: truncates *)
  | Wrote (t : nat) (p : Path) (c : chunk).   (* [f.write(c)] *)

Definition fs_time (e : FsEvent) : nat :=
  match e with Opened t _ => t | Wrote t _ _ => t end.
Definition fs_path (e : FsEvent) : Path :=
  match e with Opened _ p => p | Wrote _ p _ => p end.
Definition is_write (e : FsEvent) : bool :=
  match e with Opened _ _ => false | Wrote _ _ _ => true end.

(** Everything the workers share.  [dequeued] and [fs_log] are histories
    kept for the statements only; no definition below reads them. *)
Record World := {
  clock : nat;
  queue : list Item;
  unfinished_tasks : Z;               (* [Queue.unfinished_tasks] *)
  fs : gmap Path (list Byte.byte);
  tasks : gmap nat Task;              (* the per-file [Progress] *)
  next_task_id : nat;
  overall_completed : Z;              (* [overall_progress] task of the worker *)
  console : list Message;
  dequeued : list (nat * Item);       (* who got what from [queue.get()] *)
  fs_log : list FsEvent;
}.

Definition tick (σ : World) : World :=
  {| clock := S (clock σ); queue := queue σ;
     unfinished_tasks := unfinished_tasks σ; fs := fs σ; tasks := tasks σ;
     next_task_id := next_task_id σ; overall_completed := overall_completed σ;
     console := console σ; dequeued := dequeued σ; fs_log := fs_log σ |}.

Definition queue_put (x : Item) (σ : World) : World :=
  {| clock := clock σ; queue := queue σ ++ [x];
     unfinished_tasks := (unfinished_tasks σ + 1)%Z; fs := fs σ;
     tasks := tasks σ; next_task_id := next_task_id σ;
     overall_completed := overall_completed σ; console := console σ;
     dequeued := dequeued σ; fs_log := fs_log σ |}.

(** [queue.get()] on a non-empty queue whose head is [x] and tail [q]. *)
Definition queue_got (wid : nat) (x : Item) (q : list Item) (σ : World) : World :=
  {| clock := clock σ; queue := q;
     unfinished_tasks := unfinished_tasks σ; fs := fs σ; tasks := tasks σ;
     next_task_id := next_task_id σ; overall_completed := overall_completed σ;
     console := console σ; dequeued := dequeued σ ++ [(wid, x)];
     fs_log := fs_log σ |}.

Definition task_done (σ : World) : World :=
  {| clock := clock σ; queue := queue σ;
     unfinished_tasks := (unfinished_tasks σ - 1)%Z; fs := fs σ;
     tasks := tasks σ; next_task_id := next_task_id σ;
     overall_completed := overall_completed σ; console := console σ;
     dequeued := dequeued σ; fs_log := fs_log σ |}.

Definition set_tasks (ts : gmap nat Task) (σ : World) : World :=
  {| clock := clock σ; queue := queue σ;
     unfinished_tasks := unfinished_tasks σ; fs := fs σ; tasks := ts;
     next_task_id := next_task_id σ; overall_completed := overall_completed σ;
     console := console σ; dequeued := dequeued σ; fs_log := fs_log σ |}.

(** [progress.add_task("", start=False, ...)]. *)
Definition add_task (σ : World) : World :=
  {| clock := clock σ; queue := queue σ;
     unfinished_tasks := unfinished_tasks σ; fs := fs σ;
     tasks := <[next_task_id σ := {| total := 100; completed := 0; started := false |}]>
                (tasks σ);
     next_task_id := S (next_task_id σ);
     overall_completed := overall_completed σ; console := console σ;
     dequeued := dequeued σ; fs_log := fs_log σ |}.

(** [progress.update(tid, total=n)]. *)
Definition update_total (tid : nat) (n : Z) (σ : World) : World :=
  set_tasks (alter (λ t, {| total := n; completed := completed t;
                            started := started t |}) tid (tasks σ)) σ.

(** [progress.start_task(tid)]. *)
Definition start_task (tid : nat) (σ : World) : World :=
  set_tasks (alter (λ t, {| total := total t; completed := completed t;
                            started := true |}) tid (tasks σ)) σ.

(** [progress.update(tid, advance=n)]. *)
Definition update_advance (tid : nat) (n : Z) (σ : World) : World :=
  set_tasks (alter (λ t, {| total := total t; completed := (completed t + n)%Z;
                            started := started t |}) tid (tasks σ)) σ.

(** [progress.remove_task(tid)]. *)
Definition remove_task (tid : nat) (σ : World) : World :=
  set_tasks (delete tid (tasks σ)) σ.

(** [overall_progress.update(overall_task, advance=1)]. *)
Definition overall_advance (σ : World) : World :=
  {| clock := clock σ; queue := queue σ;
     unfinished_tasks := unfinished_tasks σ; fs := fs σ; tasks := tasks σ;
     next_task_id := next_task_id σ;
     overall_completed := (overall_completed σ + 1)%Z; console := console σ;
     dequeued := dequeued σ; fs_log := fs_log σ |}.

Definition console_print (m : Message) (σ : World) : World :=
  {| clock := clock σ; queue := queue σ;
     unfinished_tasks := unfinished_tasks σ; fs := fs σ; tasks := tasks σ;
     next_task_id := next_task_id σ; overall_completed := overall_completed σ;
     console := console σ ++ [m]; dequeued := dequeued σ; fs_log := fs_log σ |}.

(** [open(local_file, "wb")]: the file exists and is empty afterwards. *)
Definition open_wb (p : Path) (σ : World) : World :=
  {| clock := clock σ; queue := queue σ;
     unfinished_tasks := unfinished_tasks σ; fs := <[p := []]> (fs σ);
     tasks := tasks σ; next_task_id := next_task_id σ;
     overall_completed := overall_completed σ; console := console σ;
     dequeued := dequeued σ; fs_log := fs_log σ ++ [Opened (clock σ) p] |}.

(** [f.write(chunk)] on the file opened at [p]: appends. *)
Definition file_write (p : Path) (c : chunk) (σ : World) : World :=
  {| clock := clock σ; queue := queue σ;
     unfinished_tasks := unfinished_tasks σ;
     fs := <[p := default [] (fs σ !! p) ++ c]> (fs σ);
     tasks := tasks σ; next_task_id := next_task_id σ;
     overall_completed := overall_completed σ; console := console σ;
     dequeued := dequeued σ; fs_log := fs_log σ ++ [Wrote (clock σ) p c] |}.

(** The fields of a [DownloaderWorker] that change or matter. *)
Record Worker := { output : Path; task_id : option nat; is_running : bool }.

Definition set_task_id (t : option nat) (w : Worker) : Worker :=
  {| output := output w; task_id := t; is_running := is_running w |}.
Definition set_is_running (b : bool) (w : Worker) : Worker :=
  {| output := output w; task_id := task_id w; is_running := b |}.

(** How a call of [download_file] ends.  The first three all return [None]
    in the source; the tag only records through which [return]. *)
Inductive Outcome :=
  | Completed           (* the body was streamed to its end *)
  | Skipped             (* "already downloaded" *)
  | Cancelled           (* [_stop_event] seen between two chunks *)
  | Raised (e : Exn).

Definition raised (o : Outcome) : bool :=
  match o with Raised _ => true | _ => false end.

(** [raise_for_status] raises for 4xx and 5xx. *)
Definition raise_for_status (r : Response) : bool :=
  bool_decide (400 ≤ status_code r)%Z && bool_decide (status_code r < 600)%Z.

(** [local_file.exists() and local_file.stat().st_size == remote_file_size]. *)
Definition same_size (σ : World) (local_file : Path) (remote_file_size : Z) : bool :=
  match fs σ !! local_file with
  | Some data => bool_decide (Z.of_nat (length data) = remote_file_size)
  | None => false
  end.

(** [for chunk in r.iter_content(...)]: the flag is read at one instant, the
    chunk written at the next. *)
Fixpoint write_chunks (env : Env) (tid : nat) (local_file : Path)
    (chunks : list chunk) (σ : World) : Outcome * World :=
  match chunks with
  | [] => (Completed, σ)
  | c :: rest =>
      if stop_is_set env (clock σ) then (Cancelled, tick σ)
      else
        let σ := tick σ in
        let σ := update_advance tid (Z.of_nat (length c)) σ in
        let σ := tick (file_write local_file c σ) in
        write_chunks env tid local_file rest σ
  end.

(** [download_file], when [int], [open], the stream and [write] do what
    they are asked; [Faulty.download_file] has them fail as well. *)
Definition download_file (env : Env) (u : string) (local_file : Path)
    (w : Worker) (σ : World) : Outcome * Worker * World :=
  let tid := next_task_id σ in
  let σ := add_task σ in
  let w := set_task_id (Some tid) w in
  match http_get env u with
  | Raises e => (Raised e, w, σ)
  | Responds r =>
      let remote_file_size := default 0%Z (content_length r) in
      if same_size σ local_file remote_file_size then
        (Skipped, w, console_print (AlreadyDownloaded local_file) σ)
      else
        let σ := update_total tid remote_file_size σ in
        if raise_for_status r then (Raised (HTTPError (status_code r) u), w, σ)
        else
          let σ := start_task tid (open_wb local_file σ) in
          let '(o, σ) := write_chunks env tid local_file (body r) σ in
          (o, w, σ)
  end.

(** The [finally:] block of [run]. *)
Definition run_finally (w : Worker) (σ : World) : World :=
  let σ := match task_id w with
           | Some tid => remove_task tid σ
           | None => σ
           end in
  let σ := if is_running w then overall_advance σ else σ in
  task_done σ.

(** How one pass through the body of [while self.is_running:] ends. *)
Inductive Flow :=
  | Next      (* falls through to the loop test *)
  | Return.   (* [return] out of [run] *)

Section WithSlugify.

(** [slugify] comes from the python-slugify package. *)
Variable slugify : string -> string.

Definition output_video (out : Path) (entry : VideoEntry) : Path :=
  path_div out (slugify (title entry) +:+ ".mp4").

(** One pass through the loop body, by worker [wid].  [None]: the worker
    sits in [queue.get()] on an empty queue. *)
Definition run_body (env : Env) (wid : nat) (w : Worker) (σ : World)
    : option (Flow * Worker * World) :=
  let w := set_task_id None w in
  if stop_is_set env (clock σ) then
    Some (Return, set_is_running false w, tick σ)
  else
    let σ := tick σ in
    match queue σ with
    | [] => None
    | item :: q =>
        let σ := queue_got wid item q σ in
        match item with
        | Sentinel =>
            let w := set_is_running false w in
            Some (Return, w, run_finally w σ)
        | Job entry =>
            let '(o, w, σ) :=
              download_file env (url entry) (output_video (output w) entry) w σ in
            match o with
            | Raised e =>
                let σ := console_print (ErrorMsg e) σ in
                let w := set_is_running false w in
                Some (Next, w, run_finally w σ)
            | _ => Some (Next, w, run_finally w σ)
            end
        end
    end.

(** The call of [download_file] that worker [wid] makes in a pass that got
    [entry] from the queue, leaving [q] there. *)
Definition download_of (env : Env) (wid : nat) (w : Worker) (σ : World)
    (entry : VideoEntry) (q : list Item) : Outcome * Worker * World :=
  download_file env (url entry) (output_video (output w) entry)
    (set_task_id None w) (queue_got wid (Job entry) q (tick σ)).

(** [run]: the loop, for at most [fuel] passes.  [None]: blocked in
    [queue.get()], or out of fuel; [Some]: [run] has returned. *)
Fixpoint run (fuel : nat) (env : Env) (wid : nat) (w : Worker) (σ : World)
    : option (Worker * World) :=
  if is_running w then
    match fuel with
    | 0 => None
    | S fuel =>
        match run_body env wid w σ with
        | None => None
        | Some (Return, w, σ) => Some (w, σ)
        | Some (Next, w, σ) => run fuel env wid w σ
        end
    end
  else Some (w, σ).

(** *** The download phase of [cli]

    The coordinator thread and the worker threads, interleaved by a
    schedule: [Spawn] is one pass of the coordinator's [for _ in
    range(threads)] loop, [Step i] one pass of worker [i] through the body of
    its [while] loop. *)
Record Pipeline := { world : World; workers : list Worker; to_spawn : nat }.

Inductive Event := Spawn | Step (i : nat).

#[global] Instance Event_eq_dec : EqDecision Event.
Proof. solve_decision. Defined.

(** How many passes a schedule gives to worker [i]. *)
Definition passes (i : nat) (sched : list Event) : nat :=
  length (filter (λ e, e = Step i) sched).

(** [DownloaderWorker(queue, output_dir, ...)]. *)
Definition new_worker (output_dir : Path) : Worker :=
  {| output := output_dir; task_id := None; is_running := true |}.

(** [queue.put(_sentinel)], then the worker is created and started. *)
Definition spawn (output_dir : Path) (p : Pipeline) : Pipeline :=
  match to_spawn p with
  | 0 => p
  | S n =>
      {| world := queue_put Sentinel (world p);
         workers := workers p ++ [new_worker output_dir];
         to_spawn := n |}
  end.

(** Worker [i] is given the processor for one pass; nothing happens when its
    thread has ended, was not started yet, or waits on an empty queue.  The
    passes of different workers do not overlap here; in [Threads] they
    do. *)
Definition step (env : Env) (i : nat) (p : Pipeline) : Pipeline :=
  match workers p !! i with
  | Some w =>
      if is_running w then
        match run_body env i w (world p) with
        | Some (_, w', σ') =>
            {| world := σ'; workers := <[i := w']> (workers p);
               to_spawn := to_spawn p |}
        | None => p
        end
      else p
  | None => p
  end.

Definition exec (env : Env) (output_dir : Path) (e : Event) (p : Pipeline)
    : Pipeline :=
  match e with
  | Spawn => spawn output_dir p
  | Step i => step env i p
  end.

(** The state when the download phase begins, on the file system [fs0]. *)
Definition empty_world (fs0 : gmap Path (list Byte.byte)) : World :=
  {| clock := 0; queue := []; unfinished_tasks := 0; fs := fs0; tasks := ∅;
     next_task_id := 0; overall_completed := 0; console := [];
     dequeued := []; fs_log := [] |}.

(** [for file in vod_download_data: queue.put(file)]. *)
Definition put_all (data : list VideoEntry) (σ : World) : World :=
  foldl (λ σ file, queue_put (Job file) σ) σ data.

(** The download phase as it stands before the first [Spawn]. *)
Definition cli_start (threads : Z) (vod_download_data : list VideoEntry)
    (fs0 : gmap Path (list Byte.byte)) : Pipeline :=
  {| world := put_all vod_download_data (empty_world fs0);
     workers := []; to_spawn := Z.to_nat threads |}.

(** The part of [cli] under [# Download VODs], run along the schedule
    [sched]; [vod_download_data] is what the earlier phases found. *)
Definition cli (output : option string) (cwd : Path) (threads : Z)
    (vod_download_data : list VideoEntry) (env : Env)
    (fs0 : gmap Path (list Byte.byte)) (sched : list Event) : Pipeline :=
  let output_dir := path_div cwd "output" in
  foldl (λ p e, exec env output_dir e p)
    (cli_start threads vod_download_data fs0) sched.

(** The items worker [i] got from the queue so far, oldest first. *)
Definition got (i : nat) (σ : World) : list Item :=
  (filter (λ x, x.1 = i) (dequeued σ)).*2.

(** *** Invariants of the download phase

    For the phase started with [threads] workers on [data], writing under
    [output_dir], on the file system [fs0]. *)
Section Invariants.

Variables (output_dir : Path) (data : list VideoEntry).
Variables (fs0 : gmap Path (list Byte.byte)) (threads : Z).

(** The line a skipped job prints. *)
Definition skip_line (x : nat * Item) : option Message :=
  match x.2 with
  | Job entry => Some (AlreadyDownloaded (output_video output_dir entry))
  | Sentinel => None
  end.

(** Whatever the remote side and the schedule do. *)
Record pipeline_inv (p : Pipeline) : Prop := {
  inv_items :
    (dequeued (world p)).*2 ++ queue (world p)
    = map Job data ++ replicate (length (workers p)) Sentinel;
  inv_count : length (workers p) + to_spawn p = Z.to_nat threads;
  inv_ids : ∀ x, x ∈ dequeued (world p) → x.1 < length (workers p);
  inv_outputs : ∀ i w, workers p !! i = Some w → output w = output_dir;
  inv_log :
    Forall (λ e, ∃ entry, entry ∈ data
                          ∧ fs_path e = output_video output_dir entry)
      (fs_log (world p));
  inv_fs :
    ∀ path, (∀ entry, entry ∈ data → path ≠ output_video output_dir entry) →
            fs (world p) !! path = fs0 !! path;
}.

(** Also in every run: a worker that still runs has got jobs only, and the
    queue holds a sentinel for each worker that still runs. *)
Definition got_inv (p : Pipeline) : Prop :=
  ∀ i w, workers p !! i = Some w → is_running w = true →
    ∃ js, got i (world p) = map Job js.

Definition live_inv (p : Pipeline) : Prop :=
  length (filter (λ w, is_running w = true) (workers p))
  ≤ length (filter (λ x, x = Sentinel) (queue (world p))).

(** When no pass is cut by the stop event or ends in an exception: a worker
    has got jobs only while it runs, and jobs then one sentinel once it has
    stopped. *)
Definition calm_inv (p : Pipeline) : Prop :=
  ∀ i w, workers p !! i = Some w →
    ∃ js, got i (world p) = map Job js ++ (if is_running w then [] else [Sentinel]).


(** When every job dequeued so far was skipped. *)
Record skip_inv (p : Pipeline) : Prop := {
  skip_fs : fs (world p) = fs0;
  skip_log : fs_log (world p) = [];
  skip_console : console (world p) = omap skip_line (dequeued (world p));
  skip_overall :
    overall_completed (world p) = Z.of_nat (length (console (world p)));
}.

(** Every job of [data] has, on [fs0], a file of the announced length at
    its target. *)
Definition all_match (env : Env) : Prop :=
  ∀ entry, entry ∈ data →
    ∃ r c, http_get env (url entry) = Responds r
           ∧ fs0 !! output_video output_dir entry = Some c
           ∧ Z.of_nat (length c) = default 0%Z (content_length r).

(** Every job of [data] gets a response that [raise_for_status] accepts. *)
Definition all_served (env : Env) : Prop :=
  ∀ entry, entry ∈ data →
    ∃ r, http_get env (url entry) = Responds r ∧ raise_for_status r = false.

End Invariants.

(** Every [worker.join()] has returned. *)
Definition joined (p : Pipeline) : bool :=
  bool_decide (to_spawn p = 0) && forallb (λ w, negb (is_running w)) (workers p).

End WithSlugify.

End Download.

(** ** The event client ([eventbrite.py]) *)
Module EventBrite.

(** [Literal["past", "future"]]. *)
Inductive EventKind := past | future.

(** A call either returns or raises. *)
Inductive Result (A : Type) := Ok (a : A) | Err (e : string).
Arguments Ok {A} a.
Arguments Err {A} e.

Section WithServer.

(** An event is a JSON object the client never looks into. *)
Context {Ev : Type}.

(** [get_showmore(org_id, page, pagesize, type)]: one request; it raises on
    an HTTP error status or a malformed answer, and otherwise returns
    [(data["data"]["events"], data["data"]["has_next_page"])]. *)
Variable get_showmore : string -> Z -> Z -> EventKind -> Result (list Ev * bool).

(** The [while has_next_page:] loop of [get_events], for at most [fuel]
    passes ([None]: out of fuel). *)
Fixpoint get_events_while (fuel : nat) (org_id : string) (type : EventKind)
    (pagesize : Z) (events : list Ev) (page : Z) (has_next_page : bool)
    : option (Result (list Ev)) :=
  if has_next_page then
    match fuel with
    | 0 => None
    | S fuel =>
        match get_showmore org_id page pagesize type with
        | Err e => Some (Err e)
        | Ok (data, has_next_page) =>
            get_events_while fuel org_id type pagesize (events ++ data)
              (page + 1)%Z has_next_page
        end
    end
  else Some (Ok events).

Definition get_events (fuel : nat) (org_id : string) (type : EventKind)
    (pagesize : Z) : option (Result (list Ev)) :=
  get_events_while fuel org_id type pagesize [] 1%Z true.

Definition get_past_events (fuel : nat) (org_id : string) (pagesize : Z) :=
  get_events fuel org_id past pagesize.

Definition get_future_events (fuel : nat) (org_id : string) (pagesize : Z) :=
  get_events fuel org_id future pagesize.

Definition get_all_events (fuel : nat) (org_id : string) (pagesize : Z)
    : option (Result (list Ev)) :=
  match get_future_events fuel org_id pagesize with
  | None => None
  | Some (Err e) => Some (Err e)
  | Some (Ok fut) =>
      match get_past_events fuel org_id pagesize with
      | None => None
      | Some (Err e) => Some (Err e)
      | Some (Ok pst) => Some (Ok (([] ++ fut) ++ pst))
      end
  end.

(** What the server holds, read off its answers: the events of page [page],
    and the events of pages [1 .. n] in page order. *)
Definition page_events (org_id : string) (pagesize : Z) (type : EventKind)
    (page : Z) : list Ev :=
  match get_showmore org_id page pagesize type with
  | Ok (data, _) => data
  | Err _ => []
  end.

Definition pages_upto (org_id : string) (pagesize : Z) (type : EventKind)
    (n : nat) : list Ev :=
  concat (map (λ k, page_events org_id pagesize type (Z.of_nat k)) (seq 1 n)).

(** Page [n] is the first one that reports no next page, and every page up
    to it is served. *)
Definition last_page (org_id : string) (pagesize : Z) (type : EventKind)
    (n : nat) : Prop :=
  1 ≤ n
  ∧ (∀ k, 1 ≤ k < n →
        ∃ data, get_showmore org_id (Z.of_nat k) pagesize type = Ok (data, true))
  ∧ ∃ data, get_showmore org_id (Z.of_nat n) pagesize type = Ok (data, false).

End WithServer.

End EventBrite.

(** ** The webinar client ([streamyard.py]) *)
Module StreamYard.

(** One entry of [...["fields"]["data"]]. *)
Record Field := { id : string; type : string; isRequired : bool }.

(** One entry of [webinar_data["registrationFieldDefinitions"]]. *)
Record FieldDefinition := { def_id : string; fields_data : list Field }.

Record WebinarData := { registrationFieldDefinitions : list FieldDefinition }.

(** The JSON body of the registration request. *)
Record RegistrationData := {
  email : string;
  firstName : string;
  lastName : string;
  definitionId : string;
  values : gmap string string;
  timeZone : string;
}.

(** [s.split("/")[-1]], with [acc] the segment being read. *)
Fixpoint last_segment_from (acc s : string) : string :=
  match s with
  | EmptyString => acc
  | String c s' =>
      if Ascii.eqb c "/"%char then last_segment_from "" s'
      else last_segment_from (acc +:+ String c "") s'
  end.

Definition last_segment (s : string) : string := last_segment_from "" s.

(** The body of [for field in fields_data:]. *)
Definition add_field (email first_name last_name : string)
    (fields_values : gmap string string) (field : Field) : gmap string string :=
  if isRequired field then
    if String.eqb (type field) "email" then <[id field := email]> fields_values
    else if String.eqb (type field) "firstName" then
      <[id field := first_name]> fields_values
    else if String.eqb (type field) "lastName" then
      <[id field := last_name]> fields_values
    else fields_values
  else fields_values.

Definition fields_values (fields : list Field)
    (email first_name last_name : string) : gmap string string :=
  foldl (add_field email first_name last_name) ∅ fields.

(** The URL and the body [register_webinar] posts; [None] when
    [registrationFieldDefinitions] is empty (the source raises). *)
Definition registration_request (url : string) (webinar_data : WebinarData)
    (email first_name last_name : string) : option (string * RegistrationData) :=
  let webinar_id := last_segment url in
  match registrationFieldDefinitions webinar_data with
  | [] => None
  | d :: _ =>
      let fields_id := def_id d in
      let values := fields_values (fields_data d) email first_name last_name in
      Some ("https://oa-api.streamyard.com/api/public/webinars/" +:+ webinar_id
              +:+ "/registrations",
            {| email := email; firstName := first_name; lastName := last_name;
               definitionId := fields_id; values := values;
               timeZone := "Europe/Rome" |})
  end.

(** [register_webinar], over the session's [post] (which raises on an HTTP
    error status and returns the decoded answer otherwise). *)
Definition register_webinar {A : Type}
    (post : string -> RegistrationData -> EventBrite.Result A)
    (url : string) (webinar_data : WebinarData)
    (email first_name last_name : string) : EventBrite.Result A :=
  match registration_request url webinar_data email first_name last_name with
  | None => EventBrite.Err "IndexError"
  | Some (registration_url, registration_data) =>
      post registration_url registration_data
  end.

(** The value the loop assigns for a field, if it assigns one. *)
Definition field_value (email first_name last_name : string) (field : Field)
    : option string :=
  if negb (isRequired field) then None
  else if String.eqb (type field) "email" then Some email
  else if String.eqb (type field) "firstName" then Some first_name
  else if String.eqb (type field) "lastName" then Some last_name
  else None.

End StreamYard.

(** ** Progress labels ([crop_string] of [commands/download.py]) *)
Module Text.

Section Sequences.

(** A Python [str] is a sequence of code points; the alphabet is left open. *)
Context {A : Type}.

(** [s[i:]] for a Python index [i]: a negative [i] counts from the end, and
    both ends are clamped. *)
Definition slice_from (i : Z) (s : list A) : list A :=
  if (i <? 0)%Z then drop (Z.to_nat (Z.of_nat (length s) + i)) s
  else drop (Z.to_nat i) s.

Definition crop_string (s : list A) (N : Z) (ellipsis : list A) (end_ : bool)
    : list A :=
  if (N - Z.of_nat (length ellipsis) <? Z.of_nat (length s))%Z then
    if end_ then slice_from (- (N - Z.of_nat (length ellipsis))) s ++ ellipsis
    else ellipsis ++ slice_from (- (N - Z.of_nat (length ellipsis))) s
  else s.

End Sequences.

End Text.

(** ** The phases of [cli] before the downloads, and [commands/helpers.py] *)
Module Cli.

Inductive Exn :=
  | HTTPError (msg : string)    (* [requests.exceptions.HTTPError] *)
  | KeyError                    (* a key that is not there *)
  | IndexError
  | Exception (msg : string)    (* [raise Exception(msg)] *)
  | OtherError (msg : string).  (* any other exception under [Exception] *)

Inductive Outcome (A : Type) := Returns (a : A) | Raises (e : Exn).
Arguments Returns {A} a.
Arguments Raises {A} e.

(** An event as listed: its ["id"], and its [["name"]["text"]] when it has
    one. *)
Record Event := { id : string; name_text : option string }.

(** One entry of [event_data["modules"]]: its ["type"] when present, and
    [x["data"]["webinar_url"]["url"]] when that chain of keys is there. *)
Record ContentModule := { type : option string; webinar_url : option string }.

(** The answer of [get_structured_content], with ["modules"] when present. *)
Record Content := { modules : option (list ContentModule) }.

(** [for x in event_data["modules"]: ...], with the exception that ends the
    loop early, if any.  What was appended before stays appended. *)
Fixpoint scan_modules (ms : list ContentModule) (urls : list string)
    : list string * option Exn :=
  match ms with
  | [] => (urls, None)
  | x :: ms =>
      match type x with
      | None => (urls, Some KeyError)
      | Some t =>
          if String.eqb t "webinar" then
            match webinar_url x with
            | None => (urls, Some KeyError)
            | Some u => scan_modules ms (urls ++ [u])
            end
          else scan_modules ms urls
      end
  end.

(** The URL a module stands for: that of a module of type "webinar". *)
Definition module_url (x : ContentModule) : option string :=
  match type x with
  | Some t => if String.eqb t "webinar" then webinar_url x else None
  | None => None
  end.

(** A module the loop gets past: it has a type and, if it is a webinar, the
    keys down to its URL. *)
Definition well_formed (x : ContentModule) : bool :=
  match type x with
  | Some t =>
      if String.eqb t "webinar" then
        match webinar_url x with Some _ => true | None => false end
      else true
  | None => false
  end.

(** Lines printed while the URLs are collected. *)
Inductive Line :=
  | Fetching (event_id : string) (name : string)        (* helpers only *)
  | ErrorFetching (event_id : string) (msg : string)
  | NoWebinarURL (event_id : string)
  | ErrorFor (e : Exn) (url : string).                   (* "Error: ... for ..." *)

Section WithEventBrite.

(** [eventbrite.get_structured_content(event_id)]. *)
Variable get_structured_content : string -> Outcome Content.

(** The body of the [try:] for one event. *)
Definition event_urls (event : Event) (urls : list string)
    : list string * option Exn :=
  match get_structured_content (id event) with
  | Raises e => (urls, Some e)
  | Returns event_data =>
      match modules event_data with
      | None => (urls, Some KeyError)
      | Some ms => scan_modules ms urls
      end
  end.

(** What the second phase of [cli] holds: [urls], the console, and how far
    the progress task was advanced. *)
Record UrlsState :=
  { urls : list string; printed : list Line; advanced : nat }.

(** [for event in events: ...] of [cli] ("Get StreamYard URLs").  An
    exception other than [HTTPError] and [KeyError] leaves [cli]. *)
Fixpoint streamyard_urls (events : list Event) (st : UrlsState)
    : Outcome UrlsState :=
  match events with
  | [] => Returns st
  | event :: events =>
      let '(us, exc) := event_urls event (urls st) in
      match exc with
      | None =>
          streamyard_urls events
            {| urls := us; printed := printed st; advanced := S (advanced st) |}
      | Some (HTTPError msg) =>
          streamyard_urls events
            {| urls := us; printed := printed st ++ [ErrorFetching (id event) msg];
               advanced := S (advanced st) |}
      | Some KeyError =>
          streamyard_urls events
            {| urls := us; printed := printed st ++ [NoWebinarURL (id event)];
               advanced := S (advanced st) |}
      | Some e => Raises e
      end
  end.

(** [get_streamyard_links] of [helpers.py]: the same loop, with the log in
    place of the console and one more line per event, written before the
    [try:] from the event's name. *)
Fixpoint get_streamyard_links (data : list Event) (urls : list string)
    (log : list Line) : Outcome (list string * list Line) :=
  match data with
  | [] => Returns (urls, log)
  | event :: data =>
      match name_text event with
      | None => Raises KeyError
      | Some name =>
          let log := log ++ [Fetching (id event) name] in
          let '(us, exc) := event_urls event urls in
          match exc with
          | None => get_streamyard_links data us log
          | Some (HTTPError msg) =>
              get_streamyard_links data us (log ++ [ErrorFetching (id event) msg])
          | Some KeyError =>
              get_streamyard_links data us (log ++ [NoWebinarURL (id event)])
          | Some e => Raises e
          end
      end
  end.

(** An exception the loops catch and report. *)
Definition reported (e : Exn) : bool :=
  match e with HTTPError _ | KeyError => true | _ => false end.

(** The exception the [try:] ends with for [event], if any, and the URLs
    it appends; neither depends on the URLs collected before. *)
Definition event_exception (event : Event) : option Exn :=
  (event_urls event []).2.

Definition event_found (event : Event) : list string :=
  (event_urls event []).1.

(** The line [cli] prints for [event], if any. *)
Definition report (event : Event) : option Line :=
  match event_exception event with
  | Some (HTTPError msg) => Some (ErrorFetching (id event) msg)
  | Some KeyError => Some (NoWebinarURL (id event))
  | _ => None
  end.

End WithEventBrite.

(** What [get_webinar_info] returns, key by key ([None]: no such key). *)
Record WebinarInfo := {
  title : option string;
  vodUrl : option string;
  vodPosterUrl : option string;
  isRegistrationEnabled : option bool;
  isVodMediaDeleted : option bool;
  registration : StreamYard.WebinarData;
}.

(** [entry] is the job made of [data]: [data] has a VOD, not marked as
    deleted, and the job carries its title, VOD URL and poster. *)
Definition is_job_of (data : WebinarInfo) (entry : Download.VideoEntry) : Prop :=
  vodUrl data = Some (Download.url entry)
  ∧ isVodMediaDeleted data = Some false
  ∧ title data = Some (Download.title entry)
  ∧ vodPosterUrl data = Some (Download.poster entry).

Section WithStreamYard.

(** The StreamYard session together with the remote side: a state [S], and
    what each request does to it.  [has_token] is
    ["jwtOnAir" in self.session.cookies]; a [get] or [post] ends with
    [raise_for_status]. *)
Context {S : Type}.
Variable has_token : S -> bool.
Variable get_page : S -> string -> S * option Exn.
Variable get_api : S -> string -> S * Outcome WebinarInfo.
Variable post_registration :
  S -> string -> StreamYard.RegistrationData -> S * Outcome unit.

Definition api_url (webinar_id : string) : string :=
  "https://oa-api.streamyard.com/api/public/webinars/" +:+ webinar_id.

Definition get_webinar_info (s : S) (url : string) : S * Outcome WebinarInfo :=
  let webinar_id := StreamYard.last_segment url in
  if negb (has_token s) then
    match get_page s url with
    | (s, Some e) => (s, Raises e)
    | (s, None) => get_api s (api_url webinar_id)
    end
  else get_api s (api_url webinar_id).

(** [register_webinar] on the session state; the decoded answer is not used
    by [cli]. *)
Definition register_webinar (s : S) (url : string) (webinar_data : WebinarInfo)
    (email first_name last_name : string) : S * Outcome unit :=
  match StreamYard.registration_request url (registration webinar_data)
          email first_name last_name with
  | None => (s, Raises IndexError)
  | Some (registration_url, registration_data) =>
      post_registration s registration_url registration_data
  end.

(** The checks of [cli] on the data it ends up with, and the job built. *)
Definition vod_of (data : WebinarInfo) : Outcome Download.VideoEntry :=
  match vodUrl data with
  | None => Raises (Exception "VOD not found")
  | Some vod =>
      match isVodMediaDeleted data with
      | None => Raises KeyError
      | Some true => Raises (Exception "VOD media has been deleted")
      | Some false =>
          match title data, vodPosterUrl data with
          | Some t, Some p =>
              Returns {| Download.title := t; Download.url := vod;
                         Download.poster := p |}
          | _, _ => Raises KeyError
          end
      end
  end.

(** The body of the [try:] for one URL ("Get VODs URLs"). *)
Definition vod_entry (s : S) (url email first_name last_name : string)
    : S * Outcome Download.VideoEntry :=
  match get_webinar_info s url with
  | (s, Raises e) => (s, Raises e)
  | (s, Returns data) =>
      match isRegistrationEnabled data with
      | None => (s, Raises KeyError)
      | Some true =>
          match register_webinar s url data email first_name last_name with
          | (s, Raises e) => (s, Raises e)
          | (s, Returns _) =>
              match get_webinar_info s url with
              | (s, Raises e) => (s, Raises e)
              | (s, Returns data) => (s, vod_of data)
              end
          end
      | Some false => (s, vod_of data)
      end
  end.

Record VodState := {
  vod_download_data : list Download.VideoEntry;
  vod_printed : list Line;
  vod_advanced : nat;
}.

(** [for url in urls: ...]: every exception is caught and printed. *)
Fixpoint vod_urls (s : S) (urls : list string)
    (email first_name last_name : string) (st : VodState) : S * VodState :=
  match urls with
  | [] => (s, st)
  | url :: urls =>
      match vod_entry s url email first_name last_name with
      | (s, Returns entry) =>
          vod_urls s urls email first_name last_name
            {| vod_download_data := vod_download_data st ++ [entry];
               vod_printed := vod_printed st;
               vod_advanced := Datatypes.S (vod_advanced st) |}
      | (s, Raises e) =>
          vod_urls s urls email first_name last_name
            {| vod_download_data := vod_download_data st;
               vod_printed := vod_printed st ++ [ErrorFor e url];
               vod_advanced := Datatypes.S (vod_advanced st) |}
      end
  end.

End WithStreamYard.

(** What the outcome for one URL adds: the job when there is one, the line
    printed otherwise. *)
Definition job_of (o : Outcome Download.VideoEntry) : option Download.VideoEntry :=
  match o with Returns entry => Some entry | Raises _ => None end.

Definition line_of (x : string * Outcome Download.VideoEntry) : option Line :=
  match x.2 with Raises e => Some (ErrorFor e x.1) | Returns _ => None end.

End Cli.

(** ** The command group ([__main__.py]) and the clients' constructors *)
Module Main.

(** What a client keeps of its [requests.Session], and whether it has
    called [urllib3.disable_warnings()]. *)
Record Client :=
  { proxies : gmap string string; verify : bool; warnings_disabled : bool }.

(** [EventBrite.__init__] and [StreamYard.__init__], alike in this. *)
Definition new_client (proxies : gmap string string) (verify : bool) : Client :=
  {| proxies := proxies; verify := verify; warnings_disabled := negb verify |}.

(** [ctx.obj] as the group fills it. *)
Record Ctx := {
  obj_proxies : gmap string string;
  obj_verify : bool;
  obj_verbose : bool;
  obj_client : Client;
}.

(** Truth of [if proxy:] for an option that is a string or [None]. *)
Definition truthy (proxy : option string) : bool :=
  match proxy with
  | None => false
  | Some p => negb (String.eqb p "")
  end.

(** [cli] of [__main__.py]. *)
Definition cli (verbose : bool) (proxy : option string) (no_verify : bool) : Ctx :=
  let proxies : gmap string string :=
    if truthy proxy then
      <["https" := default "" proxy]> (<["http" := default "" proxy]> ∅)
    else ∅ in
  {| obj_proxies := proxies; obj_verify := no_verify; obj_verbose := verbose;
     obj_client := new_client proxies no_verify |}.

(** The [StreamYard(...)] client that the download command builds from the
    context. *)
Definition streamyard_client (ctx : Ctx) : Client :=
  new_client (obj_proxies ctx) (obj_verify ctx).

End Main.

(** ** Counts over a state of the download phase *)
Module Counts.
Import Download.

Definition is_error (m : Message) : bool :=
  match m with ErrorMsg _ => true | AlreadyDownloaded _ => false end.

(** Lines "Error: ..." on the console. *)
Definition errors_printed (σ : World) : nat :=
  length (filter (λ m, is_error m = true) (console σ)).

(** Jobs that workers got from the queue. *)
Definition jobs_taken (σ : World) : nat :=
  length (filter (λ x, x.2 ≠ Sentinel) (dequeued σ)).

(** Sentinels still in the queue. *)
Definition sentinels_queued (σ : World) : nat :=
  length (filter (λ x, x = Sentinel) (queue σ)).

(** Workers whose [is_running] is still set. *)
Definition running (p : Pipeline) : nat :=
  length (filter (λ w, is_running w = true) (workers p)).

(** What holds between any two passes of a run. *)
Record accounts (p : Pipeline) : Prop := {
  acc_tasks : tasks (world p) = ∅;
  acc_next : next_task_id (world p) = jobs_taken (world p);
  acc_unfinished :
    unfinished_tasks (world p) = Z.of_nat (length (queue (world p)));
  acc_overall :
    (overall_completed (world p) + Z.of_nat (errors_printed (world p)))%Z
    = Z.of_nat (jobs_taken (world p));
  acc_sentinels :
    running p + errors_printed (world p) ≤ sentinels_queued (world p);
  acc_nonneg : (0 ≤ overall_completed (world p))%Z;
}.

End Counts.

(** ** [download_file] and [run] where the header, the file system and the
    stream can fail

    [Download] takes a response whose [Content-Length] is a number when it
    is there, whose body comes through to its end, and a file system on
    which [open] and [write] succeed.  Here each of these can raise, as in
    the source: [int(...)] on the header, [open(local_file, "wb")],
    [r.iter_content(...)] while the body is read, and [f.write(chunk)].
    The exception lands in the handler of [run] like any other. *)
Module Faulty.
Import Download.

(** What fails, and with which exception:
    - [length_error u]: [int(r.headers.get("Content-Length", 0))] raises on
      the response to [u], whose header is not a number ([content_length]
      is then not looked at);
    - [stream_error u]: [iter_content] raises once the chunks of [body]
      have been yielded, instead of ending;
    - [open_error t p]: [open(p, "wb")] raises at instant [t], and leaves
      the file as it is;
    - [write_error t p]: [f.write(chunk)] on [p] raises at instant [t],
      after so many bytes of the chunk have reached the file. *)
Record Faults := {
  length_error : string -> option Exn;
  stream_error : string -> option Exn;
  open_error : nat -> Path -> option Exn;
  write_error : nat -> Path -> option (Exn * nat);
}.

Definition no_faults : Faults :=
  {| length_error := λ _, None; stream_error := λ _, None;
     open_error := λ _ _, None; write_error := λ _ _, None |}.

(** [for chunk in r.iter_content(...)]; [after] is what the iterator does
    when the chunks are out: it ends, or raises. *)
Fixpoint write_chunks (fl : Faults) (env : Env) (tid : nat) (local_file : Path)
    (chunks : list chunk) (after : option Exn) (σ : World) : Outcome * World :=
  match chunks with
  | [] =>
      match after with
      | Some e => (Raised e, σ)
      | None => (Completed, σ)
      end
  | c :: rest =>
      if stop_is_set env (clock σ) then (Cancelled, tick σ)
      else
        let σ := tick σ in
        let σ := update_advance tid (Z.of_nat (length c)) σ in
        match write_error fl (clock σ) local_file with
        | Some (e, n) => (Raised e, tick (file_write local_file (take n c) σ))
        | None =>
            let σ := tick (file_write local_file c σ) in
            write_chunks fl env tid local_file rest after σ
        end
  end.

Definition download_file (fl : Faults) (env : Env) (u : string)
    (local_file : Path) (w : Worker) (σ : World) : Outcome * Worker * World :=
  let tid := next_task_id σ in
  let σ := add_task σ in
  let w := set_task_id (Some tid) w in
  match http_get env u with
  | Raises e => (Raised e, w, σ)
  | Responds r =>
      match length_error fl u with
      | Some e => (Raised e, w, σ)
      | None =>
          let remote_file_size := default 0%Z (content_length r) in
          if same_size σ local_file remote_file_size then
            (Skipped, w, console_print (AlreadyDownloaded local_file) σ)
          else
            let σ := update_total tid remote_file_size σ in
            if raise_for_status r then (Raised (HTTPError (status_code r) u), w, σ)
            else
              match open_error fl (clock σ) local_file with
              | Some e => (Raised e, w, σ)
              | None =>
                  let σ := start_task tid (open_wb local_file σ) in
                  let '(o, σ) :=
                    write_chunks fl env tid local_file (body r)
                      (stream_error fl u) σ in
                  (o, w, σ)
              end
      end
  end.

Section WithSlugify.

Variable slugify : string -> string.

(** One pass through the body of [while self.is_running:], as
    [Download.run_body], over the [download_file] above. *)
Definition run_body (fl : Faults) (env : Env) (wid : nat) (w : Worker)
    (σ : World) : option (Flow * Worker * World) :=
  let w := set_task_id None w in
  if stop_is_set env (clock σ) then
    Some (Return, set_is_running false w, tick σ)
  else
    let σ := tick σ in
    match queue σ with
    | [] => None
    | item :: q =>
        let σ := queue_got wid item q σ in
        match item with
        | Sentinel =>
            let w := set_is_running false w in
            Some (Return, w, run_finally w σ)
        | Job entry =>
            let '(o, w, σ) :=
              download_file fl env (url entry)
                (output_video slugify (output w) entry) w σ in
            match o with
            | Raised e =>
                let σ := console_print (ErrorMsg e) σ in
                let w := set_is_running false w in
                Some (Next, w, run_finally w σ)
            | _ => Some (Next, w, run_finally w σ)
            end
        end
    end.

Fixpoint run (fuel : nat) (fl : Faults) (env : Env) (wid : nat) (w : Worker)
    (σ : World) : option (Worker * World) :=
  if is_running w then
    match fuel with
    | 0 => None
    | S fuel =>
        match run_body fl env wid w σ with
        | None => None
        | Some (Return, w, σ) => Some (w, σ)
        | Some (Next, w, σ) => run fuel fl env wid w σ
        end
    end
  else Some (w, σ).

(** Nothing fails for the jobs [js] of a worker that writes under [out]:
    each gets a response that [raise_for_status] accepts, with a header
    [int] reads and a body that comes through, and its target opens and
    takes every write. *)
Definition all_healthy (fl : Faults) (env : Env) (out : Path)
    (js : list VideoEntry) : Prop :=
  ∀ entry, entry ∈ js →
    (∃ r, http_get env (url entry) = Responds r ∧ raise_for_status r = false)
    ∧ length_error fl (url entry) = None
    ∧ stream_error fl (url entry) = None
    ∧ (∀ t, open_error fl t (output_video slugify out entry) = None)
    ∧ (∀ t, write_error fl t (output_video slugify out entry) = None).

End WithSlugify.

End Faulty.

(** ** The worker threads, operation by operation

    [Download.step] gives a worker the processor for a whole pass through
    its loop.  The threads of the program are not so well behaved: each can
    be interrupted between any two operations on what they share (the stop
    event, the queue, the files, the progress displays, the console), and
    [_stop_event.set()] can fall anywhere in between.  Here a thread moves
    by one such operation at a time, with the failures of [Faulty]. *)
Module Threads.
Import Download Faulty.

(** Where a thread stands in [run] and [download_file]: the operation it
    does next, with the locals it still needs. *)
Inductive Pc :=
  | AtLoop       (* the loop test, [task_id = None], [_stop_event.is_set()] *)
  | AtGet        (* [self.queue.get()] and the test for the sentinel *)
  | AtAddTask (entry : VideoEntry)               (* [progress.add_task] *)
  | AtRequest (entry : VideoEntry)               (* [requests.get], [int(...)] *)
  | AtExists (entry : VideoEntry) (r : Response) (* [local_file.exists()] *)
  | AtStat (entry : VideoEntry) (r : Response)   (* [local_file.stat()] *)
  | AtPrintSkip (entry : VideoEntry)             (* "already downloaded" *)
  | AtTotal (entry : VideoEntry) (r : Response)  (* [update(total=)], status *)
  | AtOpen (entry : VideoEntry) (r : Response)   (* [open(local_file, "wb")] *)
  | AtStart (entry : VideoEntry) (r : Response)  (* [progress.start_task] *)
  | AtNext (entry : VideoEntry) (rest : list chunk)      (* the iterator *)
  | AtFlag (entry : VideoEntry) (c : chunk) (rest : list chunk)
                                                 (* [_stop_event.is_set()] *)
  | AtAdvance (entry : VideoEntry) (c : chunk) (rest : list chunk)
                                                 (* [update(advance=)] *)
  | AtWrite (entry : VideoEntry) (c : chunk) (rest : list chunk)
                                                 (* [f.write(chunk)] *)
  | AtExcept (e : Exn)                           (* the handler: print *)
  | AtRemove (returning : bool)                  (* finally: [remove_task] *)
  | AtOverall (returning : bool)                 (* finally: overall advance *)
  | AtTaskDone (returning : bool)                (* finally: [task_done] *)
  | Done.                                        (* [run] has returned *)

Record Thread := { pc : Pc; me : Worker }.

Definition at_pc (l : Pc) (th : Thread) : Thread := {| pc := l; me := me th |}.

(** What a thread did to the queue and to the files, for the statements. *)
Inductive Act :=
  | Got (item : Item)
  | OpenedFile (p : Path)
  | WroteChunk (p : Path) (c : chunk).

Section WithSlugify.

Variable slugify : string -> string.
Variable fl : Faults.
Variable http_get : string -> GetResult.

(** [progress.update(self.task_id, ...)] and the like, on the task the
    thread holds. *)
Definition on_task (w : Worker) (f : nat → World → World) (σ : World) : World :=
  match task_id w with
  | Some tid => f tid σ
  | None => σ
  end.

(** One operation of thread [wid].  [stop] is the value of the stop event;
    [None]: the thread sits in [queue.get()] on an empty queue. *)
Definition thread_step (wid : nat) (stop : bool) (th : Thread) (σ : World)
    : option (Thread * World * list Act) :=
  let w := me th in
  match pc th with
  | AtLoop =>
      if is_running w then
        let w := set_task_id None w in
        if stop then Some ({| pc := Done; me := set_is_running false w |}, σ, [])
        else Some ({| pc := AtGet; me := w |}, σ, [])
      else Some (at_pc Done th, σ, [])
  | AtGet =>
      match queue σ with
      | [] => None
      | item :: q =>
          let σ := queue_got wid item q σ in
          match item with
          | Sentinel =>
              Some ({| pc := AtRemove true; me := set_is_running false w |},
                    σ, [Got item])
          | Job entry => Some (at_pc (AtAddTask entry) th, σ, [Got item])
          end
      end
  | AtAddTask entry =>
      Some ({| pc := AtRequest entry;
               me := set_task_id (Some (next_task_id σ)) w |},
            add_task σ, [])
  | AtRequest entry =>
      match http_get (url entry) with
      | Raises e => Some (at_pc (AtExcept e) th, σ, [])
      | Responds r =>
          match length_error fl (url entry) with
          | Some e => Some (at_pc (AtExcept e) th, σ, [])
          | None => Some (at_pc (AtExists entry r) th, σ, [])
          end
      end
  | AtExists entry r =>
      match fs σ !! output_video slugify (output w) entry with
      | Some _ => Some (at_pc (AtStat entry r) th, σ, [])
      | None => Some (at_pc (AtTotal entry r) th, σ, [])
      end
  | AtStat entry r =>
      match fs σ !! output_video slugify (output w) entry with
      | Some data =>
          if bool_decide (Z.of_nat (length data) = default 0%Z (content_length r))
          then Some (at_pc (AtPrintSkip entry) th, σ, [])
          else Some (at_pc (AtTotal entry r) th, σ, [])
      | None => Some (at_pc (AtExcept (OSError "FileNotFoundError")) th, σ, [])
      end
  | AtPrintSkip entry =>
      Some (at_pc (AtRemove false) th,
            console_print
              (AlreadyDownloaded (output_video slugify (output w) entry)) σ, [])
  | AtTotal entry r =>
      let σ := on_task w (λ tid, update_total tid (default 0%Z (content_length r))) σ in
      if raise_for_status r
      then Some (at_pc (AtExcept (HTTPError (status_code r) (url entry))) th, σ, [])
      else Some (at_pc (AtOpen entry r) th, σ, [])
  | AtOpen entry r =>
      let p := output_video slugify (output w) entry in
      match open_error fl (clock σ) p with
      | Some e => Some (at_pc (AtExcept e) th, σ, [])
      | None => Some (at_pc (AtStart entry r) th, open_wb p σ, [OpenedFile p])
      end
  | AtStart entry r =>
      Some (at_pc (AtNext entry (body r)) th, on_task w start_task σ, [])
  | AtNext entry rest =>
      match rest with
      | [] =>
          match stream_error fl (url entry) with
          | Some e => Some (at_pc (AtExcept e) th, σ, [])
          | None => Some (at_pc (AtRemove false) th, σ, [])
          end
      | c :: rest => Some (at_pc (AtFlag entry c rest) th, σ, [])
      end
  | AtFlag entry c rest =>
      if stop then Some (at_pc (AtRemove false) th, σ, [])
      else Some (at_pc (AtAdvance entry c rest) th, σ, [])
  | AtAdvance entry c rest =>
      Some (at_pc (AtWrite entry c rest) th,
            on_task w (λ tid, update_advance tid (Z.of_nat (length c))) σ, [])
  | AtWrite entry c rest =>
      let p := output_video slugify (output w) entry in
      match write_error fl (clock σ) p with
      | Some (e, n) =>
          Some (at_pc (AtExcept e) th, file_write p (take n c) σ,
                [WroteChunk p (take n c)])
      | None =>
          Some (at_pc (AtNext entry rest) th, file_write p c σ, [WroteChunk p c])
      end
  | AtExcept e =>
      Some ({| pc := AtRemove false; me := set_is_running false w |},
            console_print (ErrorMsg e) σ, [])
  | AtRemove returning =>
      Some (at_pc (AtOverall returning) th, on_task w remove_task σ, [])
  | AtOverall returning =>
      Some (at_pc (AtTaskDone returning) th,
            if is_running w then overall_advance σ else σ, [])
  | AtTaskDone returning =>
      Some (at_pc (if returning then Done else AtLoop) th, task_done σ, [])
  | Done => Some (th, σ, [])
  end.

(** The coordinator and the threads.  [trace] is a history kept for the
    statements only. *)
Record Machine := {
  shared : World;
  stop_event : bool;
  threads : list Thread;
  unspawned : nat;
  trace : list (nat * Act);
}.

(** [Spawn]: one pass of the coordinator's [for _ in range(threads)];
    [Step i]: one operation of thread [i]; [Cancel]: the coordinator's
    [_stop_event.set()], which it reaches from a [join] only. *)
Inductive Event := Spawn | Step (i : nat) | Cancel.

#[global] Instance Event_eq_dec : EqDecision Event.
Proof. solve_decision. Defined.

Definition spawn (output_dir : Path) (m : Machine) : Machine :=
  match unspawned m with
  | 0 => m
  | S n =>
      {| shared := queue_put Sentinel (shared m);
         stop_event := stop_event m;
         threads := threads m ++ [{| pc := AtLoop; me := new_worker output_dir |}];
         unspawned := n;
         trace := trace m |}
  end.

Definition step (i : nat) (m : Machine) : Machine :=
  match threads m !! i with
  | Some th =>
      match thread_step i (stop_event m) th (shared m) with
      | Some (th', σ', acts) =>
          {| shared := tick σ';
             stop_event := stop_event m;
             threads := <[i := th']> (threads m);
             unspawned := unspawned m;
             trace := trace m ++ map (pair i) acts |}
      | None => m
      end
  | None => m
  end.

Definition cancel (m : Machine) : Machine :=
  match unspawned m with
  | 0 =>
      {| shared := shared m; stop_event := true; threads := threads m;
         unspawned := 0; trace := trace m |}
  | S _ => m
  end.

Definition exec (output_dir : Path) (e : Event) (m : Machine) : Machine :=
  match e with
  | Spawn => spawn output_dir m
  | Step i => step i m
  | Cancel => cancel m
  end.

(** The download phase of [cli] along a schedule, from the queue filled
    with [vod_download_data]. *)
Definition cli (cwd : Path) (nthreads : Z) (vod_download_data : list VideoEntry)
    (fs0 : gmap Path (list Byte.byte)) (sched : list Event) : Machine :=
  let output_dir := path_div cwd "output" in
  foldl (λ m e, exec output_dir e m)
    {| shared := put_all vod_download_data (empty_world fs0);
       stop_event := false; threads := []; unspawned := Z.to_nat nthreads;
       trace := [] |}
    sched.

End WithSlugify.

(** How many operations a schedule gives to thread [i]. *)
Definition steps_of (i : nat) (sched : list Event) : nat :=
  length (filter (λ e, e = Step i) sched).

(** The kinds of things a thread does to the queue and to the files. *)
Inductive Kind := Getting | Opening | Writing.

Definition is_kind (k : Kind) (a : Act) : bool :=
  match k, a with
  | Getting, Got _ => true
  | Opening, OpenedFile _ => true
  | Writing, WroteChunk _ _ => true
  | _, _ => false
  end.

(** What thread [i] did of kind [k], in a history. *)
Definition done_by (k : Kind) (i : nat) (tr : list (nat * Act)) : list Act :=
  filter (λ a, is_kind k a = true) (filter (λ x, x.1 = i) tr).*2.

(** With the stop event set: how many more items a thread at this point
    can take, files it can open, chunks it can write; and within how many
    operations [run] returns. *)
Definition allowance (k : Kind) (l : Pc) : nat :=
  match k, l with
  | Getting, AtGet => 1
  | Opening, (AtGet | AtAddTask _ | AtRequest _ | AtExists _ _ | AtStat _ _
              | AtTotal _ _ | AtOpen _ _) => 1
  | Writing, (AtAdvance _ _ _ | AtWrite _ _ _) => 1
  | _, _ => 0
  end.

Definition distance (l : Pc) : nat :=
  match l with
  | Done => 0
  | AtLoop => 1
  | AtTaskDone _ => 2
  | AtOverall _ => 3
  | AtRemove _ => 4
  | AtExcept _ => 5
  | AtPrintSkip _ => 5
  | AtFlag _ _ _ => 5
  | AtNext _ _ => 6
  | AtWrite _ _ _ => 7
  | AtAdvance _ _ _ => 8
  | AtStart _ _ => 7
  | AtOpen _ _ => 8
  | AtTotal _ _ => 9
  | AtStat _ _ => 10
  | AtExists _ _ => 11
  | AtRequest _ => 12
  | AtAddTask _ => 13
  | AtGet => 14
  end.

(** A thread that will not call [queue.get()] again. *)
Definition spent (th : Thread) : bool :=
  match pc th with
  | Done => true
  | _ => negb (is_running (me th))
  end.

(** Where thread [i] stands; a thread not started yet has nothing to do. *)
Definition pc_of (i : nat) (m : Machine) : Pc :=
  match threads m !! i with
  | Some th => pc th
  | None => Done
  end.

(** What holds of the machine in every run: the stop event is set after
    the last thread was started only; the queue holds a sentinel for each
    thread that may still call [queue.get()]; and a thread about to call it
    has [is_running] set. *)
Record machine_inv (m : Machine) : Prop := {
  inv_stop : stop_event m = true → unspawned m = 0;
  inv_supply :
    length (filter (λ th, spent th = false) (threads m))
    ≤ length (filter (λ x, x = Sentinel) (queue (shared m)));
  inv_get :
    ∀ i th, threads m !! i = Some th → pc th = AtGet → is_running (me th) = true;
}.

End Threads.

(** ** Concrete inputs, used to exercise the statements below *)
Module Samples.
Import Download.

(** Agrees with [slugify] on the titles used here, which are slugs already. *)
Definition slug (t : string) : string := t.

Definition cwd : Path := ["home"; "user"].
Definition out : Path := path_div cwd "output".

Definition talk : VideoEntry :=
  {| title := "talk"; url := "http://h/talk.mp4"; poster := "http://h/talk.jpg" |}.
Definition intro : VideoEntry :=
  {| title := "intro"; url := "http://h/intro.mp4"; poster := "http://h/intro.jpg" |}.
Definition live : VideoEntry :=
  {| title := "live"; url := "http://h/live.mp4"; poster := "http://h/live.jpg" |}.

Definition b1 : Byte.byte := Byte.x61.
Definition b2 : Byte.byte := Byte.x62.
Definition b3 : Byte.byte := Byte.x63.

(** [talk] is served in two chunks with its length announced, [intro] is
    gone (404, with a 9-byte error page), [live] is served without a
    [Content-Length] header; nothing else is reachable. *)
Definition remote (u : string) : GetResult :=
  if String.eqb u "http://h/talk.mp4" then
    Responds {| status_code := 200; content_length := Some 3%Z;
                body := [[b1; b2]; [b3]] |}
  else if String.eqb u "http://h/intro.mp4" then
    Responds {| status_code := 404; content_length := Some 9%Z;
                body := [[b1; b1; b1; b1; b1; b1; b1; b1; b1]] |}
  else if String.eqb u "http://h/live.mp4" then
    Responds {| status_code := 200; content_length := None; body := [[b1]] |}
  else Raises (RequestException "unreachable").

Definition never_cancelled : Env := {| http_get := remote; cancel_at := None |}.
Definition cancelled_at (t : nat) : Env :=
  {| http_get := remote; cancel_at := Some t |}.

Definition worker0 : Worker := new_worker out.

(** A queue as [cli] builds it for one worker, on the file system [fs0]. *)
Definition world_of (fs0 : gmap Path (list Byte.byte)) (data : list VideoEntry)
    : World :=
  queue_put Sentinel (put_all data (empty_world fs0)).

(** A 9-byte file where [intro] would go. *)
Definition fs_intro : gmap Path (list Byte.byte) :=
  {[ path_div out "intro.mp4" := [b2; b2; b2; b2; b2; b2; b2; b2; b2] ]}.

(** The complete [talk] where [talk] goes. *)
Definition fs_talk : gmap Path (list Byte.byte) :=
  {[ path_div out "talk.mp4" := [b1; b2; b3] ]}.

(** An event server with three upcoming events on two pages and one past
    event; events are numbers here. *)
Definition showmore (org_id : string) (page pagesize : Z)
    (type : EventBrite.EventKind) : EventBrite.Result (list nat * bool) :=
  match type with
  | EventBrite.future =>
      if (page =? 1)%Z then EventBrite.Ok ([1; 2], true)
      else if (page =? 2)%Z then EventBrite.Ok ([3], false)
      else EventBrite.Err "HTTPError"
  | EventBrite.past =>
      if (page =? 1)%Z then EventBrite.Ok ([4], false)
      else EventBrite.Err "HTTPError"
  end.

(** A registration form: e-mail and first name required, last name and
    company optional, and a required checkbox. *)
Definition form : StreamYard.WebinarData :=
  {| StreamYard.registrationFieldDefinitions :=
       [ {| StreamYard.def_id := "def1";
            StreamYard.fields_data :=
              [ {| StreamYard.id := "f1"; StreamYard.type := "email";
                   StreamYard.isRequired := true |};
                {| StreamYard.id := "f2"; StreamYard.type := "firstName";
                   StreamYard.isRequired := true |};
                {| StreamYard.id := "f3"; StreamYard.type := "lastName";
                   StreamYard.isRequired := false |};
                {| StreamYard.id := "f4"; StreamYard.type := "company";
                   StreamYard.isRequired := false |};
                {| StreamYard.id := "f5"; StreamYard.type := "checkbox";
                   StreamYard.isRequired := true |} ] |} ] |}.

(** A server whose listing of upcoming events breaks on its second page,
    and one that announces a next page for ever. *)
Definition showmore_broken (org_id : string) (page pagesize : Z)
    (type : EventBrite.EventKind) : EventBrite.Result (list nat * bool) :=
  match type with
  | EventBrite.future =>
      if (page =? 1)%Z then EventBrite.Ok ([1; 2], true)
      else EventBrite.Err "HTTPError"
  | EventBrite.past => EventBrite.Ok ([4], false)
  end.

Definition showmore_endless (org_id : string) (page pagesize : Z)
    (type : EventBrite.EventKind) : EventBrite.Result (list nat * bool) :=
  EventBrite.Ok ([Z.to_nat page], true).

(** Structured content of four events: a text module and a webinar; an
    HTTP error; a webinar, a webinar without URL and one more webinar; an
    answer that is not JSON. *)
Definition content_of (event_id : string) : Cli.Outcome Cli.Content :=
  if String.eqb event_id "e1" then
    Cli.Returns
      {| Cli.modules :=
           Some [ {| Cli.type := Some "text"; Cli.webinar_url := None |};
                  {| Cli.type := Some "webinar";
                     Cli.webinar_url := Some "https://streamyard.com/watch/aaa" |} ] |}
  else if String.eqb event_id "e2" then Cli.Raises (Cli.HTTPError "404")
  else if String.eqb event_id "e3" then
    Cli.Returns
      {| Cli.modules :=
           Some [ {| Cli.type := Some "webinar";
                     Cli.webinar_url := Some "https://streamyard.com/watch/bbb" |};
                  {| Cli.type := Some "webinar"; Cli.webinar_url := None |};
                  {| Cli.type := Some "webinar";
                     Cli.webinar_url := Some "https://streamyard.com/watch/ccc" |} ] |}
  else Cli.Raises (Cli.OtherError "JSONDecodeError").

Definition event (event_id : string) : Cli.Event :=
  {| Cli.id := event_id; Cli.name_text := Some "a talk" |}.

Definition no_urls : Cli.UrlsState :=
  {| Cli.urls := []; Cli.printed := []; Cli.advanced := 0 |}.

(** A StreamYard session and server in one: whether the session holds the
    token, and whether the visitor is registered.  The recording of "aaa"
    is open, that of "bbb" shows after registration, "ccc" was deleted, and
    anything else is unknown. *)
Record Yard := { token : bool; registered : bool }.

Definition yard_page (s : Yard) (url : string) : Yard * option Cli.Exn :=
  ({| token := true; registered := registered s |}, None).

Definition yard_info (vod : option string) (enabled deleted : bool)
    : Cli.WebinarInfo :=
  {| Cli.title := Some "a talk"; Cli.vodUrl := vod;
     Cli.vodPosterUrl := Some "http://h/poster.jpg";
     Cli.isRegistrationEnabled := Some enabled;
     Cli.isVodMediaDeleted := Some deleted;
     Cli.registration := form |}.

Definition yard_api (s : Yard) (url : string) : Yard * Cli.Outcome Cli.WebinarInfo :=
  if String.eqb url (Cli.api_url "aaa") then
    (s, Cli.Returns (yard_info (Some "http://h/aaa.mp4") false false))
  else if String.eqb url (Cli.api_url "bbb") then
    (s, Cli.Returns
          (yard_info (if registered s then Some "http://h/bbb.mp4" else None)
             (negb (registered s)) false))
  else if String.eqb url (Cli.api_url "ccc") then
    (s, Cli.Returns (yard_info (Some "http://h/ccc.mp4") false true))
  else (s, Cli.Raises (Cli.HTTPError "404")).

Definition yard_post (s : Yard) (url : string) (d : StreamYard.RegistrationData)
    : Yard * Cli.Outcome unit :=
  ({| token := token s; registered := true |}, Cli.Returns tt).

Definition fresh_yard : Yard := {| token := false; registered := false |}.

Definition no_vods : Cli.VodState :=
  {| Cli.vod_download_data := []; Cli.vod_printed := []; Cli.vod_advanced := 0 |}.

Definition yard_urls : list string :=
  ["https://streamyard.com/watch/aaa"; "https://streamyard.com/watch/bbb";
   "https://streamyard.com/watch/ccc"; "https://streamyard.com/watch/zzz"].

(** The third phase of [cli] on these four URLs. *)
Definition yard_run : Yard * Cli.VodState :=
  Cli.vod_urls token yard_page yard_api yard_post fresh_yard yard_urls
    "a@b.c" "Ada" "Byron" no_vods.

(** Failures.  With [troubles], the header of the response to [intro] is
    not a number, and the stream of [live] breaks once its chunk is out.
    With [full_disk], from instant 4 on a write fails and nothing of the
    chunk reaches the file. *)
Definition troubles : Faulty.Faults :=
  {| Faulty.length_error :=
       λ u, if String.eqb u "http://h/intro.mp4"
            then Some (ValueError "invalid literal for int()") else None;
     Faulty.stream_error :=
       λ u, if String.eqb u "http://h/live.mp4"
            then Some (RequestException "ChunkedEncodingError") else None;
     Faulty.open_error := λ _ _, None;
     Faulty.write_error := λ _ _, None |}.

Definition full_disk : Faulty.Faults :=
  {| Faulty.length_error := λ _, None;
     Faulty.stream_error := λ _, None;
     Faulty.open_error := λ _ _, None;
     Faulty.write_error :=
       λ t _, if 4 <=? t then Some (OSError "No space left on device", 0)
              else None |}.

End Samples.

(** ** Properties of the download pipeline *)
Module DownloadProps.
Import Download.

(** *** The streaming loop *)

Lemma write_chunks_spec env tid p chunks : ∀ σ o σ' data,
  write_chunks env tid p chunks σ = (o, σ') →
  fs σ !! p = Some data →
  ∃ k, k ≤ length chunks
    ∧ (∀ i, i < k → stop_is_set env (clock σ + 2 * i) = false)
    ∧ (k < length chunks →
       stop_is_set env (clock σ + 2 * k) = true ∧ o = Cancelled)
    ∧ (k = length chunks → o = Completed)
    ∧ fs σ' = <[p := data ++ concat (take k chunks)]> (fs σ)
    ∧ fs_log σ' =
        fs_log σ ++ imap (λ i c, Wrote (clock σ + 2 * i + 1) p c) (take k chunks).
Proof.
  induction chunks as [|c rest IH]; intros σ o σ' data Hrun Hfile.
  - injection Hrun as <- <-. exists 0. cbn.
    rewrite !app_nil_r, insert_id by done. repeat split; auto; lia.
  - cbn [write_chunks] in Hrun.
    destruct (stop_is_set env (clock σ)) eqn:Hstop.
    + injection Hrun as <- <-. exists 0. cbn.
      rewrite !app_nil_r, insert_id, Nat.add_0_r by done.
      repeat split; auto; try lia. 
    + apply (IH _ _ _ (data ++ c)) in Hrun; [|cbn; by rewrite Hfile, lookup_insert_eq].
      destruct Hrun as (k & Hk & Hbefore & Hcancel & Hdone & Hfs & Hlog).
      cbn in Hbefore, Hcancel, Hfs, Hlog.
      exists (S k). cbn [length take concat imap].
      split; [lia|]. split; [|split; [|split; [|split]]].
      * intros [|i] Hi; [by rewrite Nat.add_0_r|].
        replace (clock σ + 2 * S i) with (S (S (clock σ + 2 * i))) by lia.
        apply Hbefore. lia.
      * intros Hlt.
        replace (clock σ + 2 * S k) with (S (S (clock σ + 2 * k))) by lia.
        apply Hcancel. lia.
      * intros Heq. apply Hdone. lia.
      * rewrite Hfs, Hfile. cbn. by rewrite insert_insert_eq, <- !app_assoc.
      * rewrite Hlog, <- app_assoc. cbn. f_equal.
        rewrite Nat.add_0_r, Nat.add_1_r. f_equal.
        apply imap_ext. intros i x _. cbn. f_equal. lia.
Qed.

Lemma write_chunks_frame env tid p chunks : ∀ σ o σ',
  write_chunks env tid p chunks σ = (o, σ') →
  queue σ' = queue σ ∧ dequeued σ' = dequeued σ
  ∧ overall_completed σ' = overall_completed σ ∧ console σ' = console σ
  ∧ unfinished_tasks σ' = unfinished_tasks σ
  ∧ (o = Completed ∨ o = Cancelled).
Proof.
  induction chunks as [|c rest IH]; intros σ o σ' Hrun; cbn [write_chunks] in Hrun.
  - injection Hrun as <- <-. auto 10.
  - destruct (stop_is_set env (clock σ)).
    + injection Hrun as <- <-. auto 10.
    + by apply IH in Hrun.
Qed.

(** *** [download_file], path by path *)

Lemma download_file_raises env u p w σ e :
  http_get env u = Raises e →
  download_file env u p w σ
  = (Raised e, set_task_id (Some (next_task_id σ)) w, add_task σ).
Proof. intros Hget. unfold download_file. by rewrite Hget. Qed.

Lemma download_file_skips env u p w σ r :
  http_get env u = Responds r →
  same_size σ p (default 0%Z (content_length r)) = true →
  download_file env u p w σ
  = (Skipped, set_task_id (Some (next_task_id σ)) w,
     console_print (AlreadyDownloaded p) (add_task σ)).
Proof.
  intros Hget Hsame. unfold download_file. rewrite Hget.
  change (same_size (add_task σ)) with (same_size σ). by rewrite Hsame.
Qed.

Lemma download_file_http_error env u p w σ r :
  http_get env u = Responds r →
  same_size σ p (default 0%Z (content_length r)) = false →
  raise_for_status r = true →
  download_file env u p w σ
  = (Raised (HTTPError (status_code r) u), set_task_id (Some (next_task_id σ)) w,
     update_total (next_task_id σ) (default 0%Z (content_length r)) (add_task σ)).
Proof.
  intros Hget Hsame Hstatus. unfold download_file. rewrite Hget.
  change (same_size (add_task σ)) with (same_size σ). by rewrite Hsame, Hstatus.
Qed.

Lemma download_file_streams env u p w σ r :
  http_get env u = Responds r →
  same_size σ p (default 0%Z (content_length r)) = false →
  raise_for_status r = false →
  download_file env u p w σ
  = let '(o, σ') :=
      write_chunks env (next_task_id σ) p (body r)
        (start_task (next_task_id σ)
           (open_wb p
              (update_total (next_task_id σ) (default 0%Z (content_length r))
                 (add_task σ)))) in
    (o, set_task_id (Some (next_task_id σ)) w, σ').
Proof.
  intros Hget Hsame Hstatus. unfold download_file. rewrite Hget.
  change (same_size (add_task σ)) with (same_size σ). by rewrite Hsame, Hstatus.
Qed.

(** What a call of [download_file] leaves alone. *)
Lemma download_file_frame env u p w σ o w' σ' :
  download_file env u p w σ = (o, w', σ') →
  queue σ' = queue σ ∧ dequeued σ' = dequeued σ
  ∧ overall_completed σ' = overall_completed σ
  ∧ unfinished_tasks σ' = unfinished_tasks σ
  ∧ w' = set_task_id (Some (next_task_id σ)) w.
Proof.
  intros Hrun. destruct (http_get env u) as [e|r] eqn:Hget.
  - rewrite (download_file_raises _ _ _ _ _ _ Hget) in Hrun.
    by injection Hrun as <- <- <-.
  - destruct (same_size σ p (default 0%Z (content_length r))) eqn:Hsame.
    + rewrite (download_file_skips _ _ _ _ _ _ Hget Hsame) in Hrun.
      by injection Hrun as <- <- <-.
    + destruct (raise_for_status r) eqn:Hstatus.
      * rewrite (download_file_http_error _ _ _ _ _ _ Hget Hsame Hstatus) in Hrun.
        by injection Hrun as <- <- <-.
      * rewrite (download_file_streams _ _ _ _ _ _ Hget Hsame Hstatus) in Hrun.
        destruct (write_chunks _ _ _ _ _) as [o1 σ1] eqn:Hloop.
        injection Hrun as <- <- <-.
        by apply write_chunks_frame in Hloop as (-> & -> & -> & _ & -> & _).
Qed.

(** The console gets a line from [download_file] exactly on a skip. *)
Lemma download_file_console env u p w σ o w' σ' :
  download_file env u p w σ = (o, w', σ') →
  console σ' = console σ
               ++ match o with Skipped => [AlreadyDownloaded p] | _ => [] end.
Proof.
  intros Hrun. destruct (http_get env u) as [e|r] eqn:Hget.
  - rewrite (download_file_raises _ _ _ _ _ _ Hget) in Hrun.
    injection Hrun as <- <- <-. cbn. by rewrite app_nil_r.
  - destruct (same_size σ p (default 0%Z (content_length r))) eqn:Hsame.
    + rewrite (download_file_skips _ _ _ _ _ _ Hget Hsame) in Hrun.
      by injection Hrun as <- <- <-.
    + destruct (raise_for_status r) eqn:Hstatus.
      * rewrite (download_file_http_error _ _ _ _ _ _ Hget Hsame Hstatus) in Hrun.
        injection Hrun as <- <- <-. cbn. by rewrite app_nil_r.
      * rewrite (download_file_streams _ _ _ _ _ _ Hget Hsame Hstatus) in Hrun.
        destruct (write_chunks _ _ _ _ _) as [o1 σ1] eqn:Hloop.
        injection Hrun as <- <- <-.
        apply write_chunks_frame in Hloop as (_ & _ & _ & -> & _ & [-> | ->]);
          cbn; by rewrite app_nil_r.
Qed.

(** *** One pass of a worker through its loop *)

Section Worker.

Variable slugify : string -> string.

Lemma run_body_sentinel env wid w σ q :
  stop_is_set env (clock σ) = false →
  queue σ = Sentinel :: q →
  run_body slugify env wid w σ
  = Some (Return, set_is_running false (set_task_id None w),
          task_done (queue_got wid Sentinel q (tick σ))).
Proof.
  intros Hstop Hq. unfold run_body. rewrite Hstop. cbn [queue tick]. by rewrite Hq.
Qed.

Lemma run_body_stopped env wid w σ :
  stop_is_set env (clock σ) = true →
  run_body slugify env wid w σ
  = Some (Return, set_is_running false (set_task_id None w), tick σ).
Proof. intros Hstop. unfold run_body. by rewrite Hstop. Qed.

Lemma run_body_blocked env wid w σ :
  stop_is_set env (clock σ) = false →
  queue σ = [] →
  run_body slugify env wid w σ = None.
Proof.
  intros Hstop Hq. unfold run_body. rewrite Hstop. cbn [queue tick]. by rewrite Hq.
Qed.

Lemma run_body_returned env wid w σ entry q o w1 σ1 :
  stop_is_set env (clock σ) = false →
  queue σ = Job entry :: q →
  download_of slugify env wid w σ entry q = (o, w1, σ1) →
  raised o = false →
  run_body slugify env wid w σ = Some (Next, w1, run_finally w1 σ1).
Proof.
  intros Hstop Hq Hdl Ho. unfold run_body. rewrite Hstop. cbn [queue tick].
  rewrite Hq. unfold download_of in Hdl. cbn [output set_task_id].
  rewrite Hdl. by destruct o.
Qed.

Lemma run_body_raised env wid w σ entry q e w1 σ1 :
  stop_is_set env (clock σ) = false →
  queue σ = Job entry :: q →
  download_of slugify env wid w σ entry q = (Raised e, w1, σ1) →
  run_body slugify env wid w σ
  = Some (Next, set_is_running false w1,
          run_finally (set_is_running false w1) (console_print (ErrorMsg e) σ1)).
Proof.
  intros Hstop Hq Hdl. unfold run_body. rewrite Hstop. cbn [queue tick].
  rewrite Hq. unfold download_of in Hdl. cbn [output set_task_id].
  by rewrite Hdl.
Qed.

(** A worker whose flag is cleared does nothing more. *)
Lemma run_not_running fuel env wid w σ :
  is_running w = false → run slugify fuel env wid w σ = Some (w, σ).
Proof. intros Hw. destruct fuel; cbn; by rewrite Hw. Qed.

(** C7.  The size comparison comes before [raise_for_status]: a response
    whose status is not 2xx but whose announced length equals the size of
    the file already at the target is reported as already downloaded, no
    error is printed, nothing is written, the job counts as done and the
    worker keeps running. *)
Theorem skip_precedes_status_check env wid w σ entry q r data :
  is_running w = true →
  stop_is_set env (clock σ) = false →
  queue σ = Job entry :: q →
  http_get env (url entry) = Responds r →
  ¬ (200 ≤ status_code r < 300)%Z →
  fs σ !! output_video slugify (output w) entry = Some data →
  Z.of_nat (length data) = default 0%Z (content_length r) →
  ∃ w1 σ1 w' σ',
    download_of slugify env wid w σ entry q = (Skipped, w1, σ1)
    ∧ run_body slugify env wid w σ = Some (Next, w', σ')
    ∧ is_running w' = true
    ∧ console σ'
      = console σ ++ [AlreadyDownloaded (output_video slugify (output w) entry)]
    ∧ fs σ' = fs σ ∧ fs_log σ' = fs_log σ
    ∧ overall_completed σ' = (overall_completed σ + 1)%Z.
Proof.
  intros Hw Hstop Hq Hget _ Hfile Hsize.
  assert (same_size (queue_got wid (Job entry) q (tick σ))
            (output_video slugify (output w) entry)
            (default 0%Z (content_length r)) = true) as Hsame.
  { unfold same_size. cbn [fs queue_got tick]. rewrite Hfile.
    by apply bool_decide_eq_true. }
  pose proof (download_file_skips env (url entry) _ (set_task_id None w) _ _
                Hget Hsame) as Hdl.
  fold (download_of slugify env wid w σ entry q) in Hdl.
  eexists _, _, _, _. split; [exact Hdl|].
  split; [by eapply run_body_returned|].
  unfold run_finally. cbn. by rewrite Hw.
Qed.

(** C1, as the code has it.  A response with a 4xx or 5xx status (and no
    size match) makes [raise_for_status] raise; the worker catches it, so
    the pass ends normally with the error printed, but the handler clears
    [is_running]: the worker takes nothing more from the queue, and [run]
    returns. *)
Theorem http_error_stops_worker env wid w σ entry q r :
  stop_is_set env (clock σ) = false →
  queue σ = Job entry :: q →
  http_get env (url entry) = Responds r →
  raise_for_status r = true →
  same_size σ (output_video slugify (output w) entry)
    (default 0%Z (content_length r)) = false →
  ∃ w' σ',
    run_body slugify env wid w σ = Some (Next, w', σ')
    ∧ console σ' = console σ ++ [ErrorMsg (HTTPError (status_code r) (url entry))]
    ∧ is_running w' = false
    ∧ queue σ' = q
    ∧ ∀ fuel, run slugify fuel env wid w' σ' = Some (w', σ').
Proof.
  intros Hstop Hq Hget Hstatus Hsame.
  eexists _, _. split.
  { eapply run_body_raised; [done..|].
    unfold download_of. by apply (download_file_http_error _ _ _ _ _ _ Hget). }
  cbn. repeat split; auto. intros fuel. by apply run_not_running.
Qed.

(** C3, as the code has it.  A job whose download raises (an HTTP error
    status, or [requests.get] failing) does not advance the overall counter:
    the handler clears [is_running] before the [finally:] block tests it.
    The job's progress task is removed all the same. *)
Theorem failed_job_does_not_advance env wid w σ entry q e w1 σ1 :
  stop_is_set env (clock σ) = false →
  queue σ = Job entry :: q →
  download_of slugify env wid w σ entry q = (Raised e, w1, σ1) →
  ∃ w' σ',
    run_body slugify env wid w σ = Some (Next, w', σ')
    ∧ overall_completed σ' = overall_completed σ
    ∧ tasks σ' !! next_task_id σ = None
    ∧ console σ' = console σ ++ [ErrorMsg e].
Proof.
  intros Hstop Hq Hdl.
  eexists _, _. split; [by eapply run_body_raised|].
  pose proof (download_file_frame _ _ _ _ _ _ _ _ Hdl) as (_ & _ & Hov & _ & ->).
  pose proof (download_file_console _ _ _ _ _ _ _ _ Hdl) as Hcon.
  unfold run_finally. cbn in *. rewrite Hov, Hcon, app_nil_r.
  split; [done|]. split; [|done]. apply lookup_delete_eq.
Qed.

(** C2, as the code has it.  A pass that got a job advances the overall
    counter by 1 if and only if [download_file] returned without raising:
    after a complete download, after a skip, and also after a transfer cut
    short by the stop event.  Otherwise the counter keeps its value. *)
Theorem overall_advance_iff_returned env wid w σ entry q :
  is_running w = true →
  stop_is_set env (clock σ) = false →
  queue σ = Job entry :: q →
  ∃ o w1 σ1 w' σ',
    download_of slugify env wid w σ entry q = (o, w1, σ1)
    ∧ run_body slugify env wid w σ = Some (Next, w', σ')
    ∧ (overall_completed σ' = (overall_completed σ + 1)%Z
       ↔ o = Completed ∨ o = Skipped ∨ o = Cancelled)
    ∧ (overall_completed σ' = overall_completed σ ↔ ∃ e, o = Raised e).
Proof.
  intros Hw Hstop Hq.
  destruct (download_of slugify env wid w σ entry q) as [[o w1] σ1] eqn:Hdl.
  pose proof (download_file_frame _ _ _ _ _ _ _ _ Hdl) as (_ & _ & Hov & _ & Hw1).
  cbn in Hov.
  destruct (raised o) eqn:Ho.
  - destruct o as [| | |e]; try discriminate.
    eexists _, _, _, _, _. split; [done|]. split; [by eapply run_body_raised|].
    unfold run_finally. cbn. rewrite Hw1. cbn. rewrite Hov.
    split; [split; [lia | intros [|[|]]; discriminate] | split; eauto].
  - eexists _, _, _, _, _. split; [done|]. split; [by eapply run_body_returned|].
    unfold run_finally. rewrite Hw1. cbn. rewrite Hw. cbn. rewrite Hov.
    split; [split; [intros _; destruct o; try discriminate; auto | done]
           | split; [lia | intros [e ->]; discriminate]].
Qed.

End Worker.

(** The skip on a non-2xx answer, run: [intro] answers 404 with a 9-byte
    page and a 9-byte file sits at its target. *)
Lemma skip_precedes_status_check_witness :
  ∃ w1 σ1 w' σ',
    download_of Samples.slug Samples.never_cancelled 0 Samples.worker0
      (Samples.world_of Samples.fs_intro [Samples.intro]) Samples.intro [Sentinel]
    = (Skipped, w1, σ1)
    ∧ run_body Samples.slug Samples.never_cancelled 0 Samples.worker0
        (Samples.world_of Samples.fs_intro [Samples.intro])
      = Some (Next, w', σ')
    ∧ is_running w' = true
    ∧ console σ' = [AlreadyDownloaded ["home"; "user"; "output"; "intro.mp4"]]
    ∧ fs σ' = Samples.fs_intro ∧ fs_log σ' = []
    ∧ overall_completed σ' = 1%Z.
Proof.
  apply (skip_precedes_status_check Samples.slug Samples.never_cancelled 0
           Samples.worker0 (Samples.world_of Samples.fs_intro [Samples.intro])
           Samples.intro [Sentinel]
           {| status_code := 404; content_length := Some 9%Z;
              body := [[Samples.b1; Samples.b1; Samples.b1; Samples.b1; Samples.b1;
                        Samples.b1; Samples.b1; Samples.b1; Samples.b1]] |}
           [Samples.b2; Samples.b2; Samples.b2; Samples.b2; Samples.b2;
            Samples.b2; Samples.b2; Samples.b2; Samples.b2]);
    try reflexivity.
  cbn. lia.
Defined.

(** A worker stopped by an error status, run: [intro] answers 404. *)
Lemma http_error_stops_worker_witness :
  ∃ w' σ',
    run_body Samples.slug Samples.never_cancelled 0 Samples.worker0
      (Samples.world_of ∅ [Samples.intro; Samples.talk])
    = Some (Next, w', σ')
    ∧ console σ' = [ErrorMsg (HTTPError 404 "http://h/intro.mp4")]
    ∧ is_running w' = false
    ∧ queue σ' = [Job Samples.talk; Sentinel]
    ∧ ∀ fuel, run Samples.slug fuel Samples.never_cancelled 0 w' σ' = Some (w', σ').
Proof.
  apply (http_error_stops_worker Samples.slug Samples.never_cancelled 0
           Samples.worker0 (Samples.world_of ∅ [Samples.intro; Samples.talk])
           Samples.intro [Job Samples.talk; Sentinel]
           {| status_code := 404; content_length := Some 9%Z;
              body := [[Samples.b1; Samples.b1; Samples.b1; Samples.b1; Samples.b1;
                        Samples.b1; Samples.b1; Samples.b1; Samples.b1]] |});
    reflexivity.
Defined.

(** C1 as the specification words it fails: with [intro] (404) ahead of
    [talk] in the queue, the pass that handles [intro] leaves [is_running]
    cleared, and [run] returns with [talk] and the sentinel still queued. *)
Lemma http_error_does_not_keep_worker_running :
  match run_body Samples.slug Samples.never_cancelled 0 Samples.worker0
          (Samples.world_of ∅ [Samples.intro; Samples.talk]) with
  | Some (_, w', _) => is_running w' = false
  | None => False
  end
  ∧ match run Samples.slug 10 Samples.never_cancelled 0 Samples.worker0
            (Samples.world_of ∅ [Samples.intro; Samples.talk]) with
    | Some (_, σ') =>
        queue σ' = [Job Samples.talk; Sentinel]
        ∧ dequeued σ' = [(0, Job Samples.intro)]
    | None => False
    end.
Proof. split; vm_compute; auto. Qed.

(** The counter after a failed job, run on the same 404. *)
Lemma failed_job_does_not_advance_witness :
  ∃ w' σ',
    run_body Samples.slug Samples.never_cancelled 0 Samples.worker0
      (Samples.world_of ∅ [Samples.intro; Samples.talk])
    = Some (Next, w', σ')
    ∧ overall_completed σ' = 0%Z
    ∧ tasks σ' !! 0 = None
    ∧ console σ' = [ErrorMsg (HTTPError 404 "http://h/intro.mp4")].
Proof.
  eapply (failed_job_does_not_advance Samples.slug Samples.never_cancelled 0
           Samples.worker0 (Samples.world_of ∅ [Samples.intro; Samples.talk])
           Samples.intro [Job Samples.talk; Sentinel]);
    reflexivity.
Defined.

(** C3 as the specification words it fails: the pass that handles the 404
    leaves the overall counter at 0. *)
Lemma failed_job_is_not_counted :
  overall_completed (Samples.world_of ∅ [Samples.intro; Samples.talk]) = 0%Z
  ∧ match run_body Samples.slug Samples.never_cancelled 0 Samples.worker0
            (Samples.world_of ∅ [Samples.intro; Samples.talk]) with
    | Some (_, _, σ') =>
        overall_completed σ' = 0%Z
        ∧ console σ' = [ErrorMsg (HTTPError 404 "http://h/intro.mp4")]
    | None => False
    end.
Proof. split; vm_compute; auto. Qed.

(** The counter after a pass, run: [talk], with the stop event set
    at instant 3, between its two chunks. *)
Lemma overall_advance_iff_returned_witness :
  ∃ o w1 σ1 w' σ',
    download_of Samples.slug (Samples.cancelled_at 3) 0 Samples.worker0
      (Samples.world_of ∅ [Samples.talk]) Samples.talk [Sentinel]
    = (o, w1, σ1)
    ∧ run_body Samples.slug (Samples.cancelled_at 3) 0 Samples.worker0
        (Samples.world_of ∅ [Samples.talk])
      = Some (Next, w', σ')
    ∧ (overall_completed σ' = 1%Z ↔ o = Completed ∨ o = Skipped ∨ o = Cancelled)
    ∧ (overall_completed σ' = 0%Z ↔ ∃ e, o = Raised e).
Proof.
  apply (overall_advance_iff_returned Samples.slug (Samples.cancelled_at 3) 0
           Samples.worker0 (Samples.world_of ∅ [Samples.talk])
           Samples.talk [Sentinel]);
    reflexivity.
Defined.

(** C2 as the specification words it fails: [talk] is cut short after its
    first chunk by the stop event, and the overall counter still goes from 0
    to 1. *)
Lemma cancelled_job_is_counted :
  (download_of Samples.slug (Samples.cancelled_at 3) 0 Samples.worker0
     (Samples.world_of ∅ [Samples.talk]) Samples.talk [Sentinel]).1.1 = Cancelled
  ∧ overall_completed (Samples.world_of ∅ [Samples.talk]) = 0%Z
  ∧ match run_body Samples.slug (Samples.cancelled_at 3) 0 Samples.worker0
            (Samples.world_of ∅ [Samples.talk]) with
    | Some (_, _, σ') =>
        overall_completed σ' = 1%Z
        ∧ fs σ' !! ["home"; "user"; "output"; "talk.mp4"]
          = Some [Samples.b1; Samples.b2]
    | None => False
    end.
Proof.
  split; [vm_compute; reflexivity|].
  split; [reflexivity|]. vm_compute. auto.
Qed.

(** *** Cancellation during a transfer *)

(** Writes made at or after instant [T], when every chunk was checked
    before [T]: only the one in flight at [T], if any. *)
Lemma late_writes_at_most_one T p : ∀ (chunks : list chunk) c0,
  (∀ i, i < length chunks → c0 + 2 * i < T) →
  length (filter (λ e, T ≤ fs_time e)
            (imap (λ i c, Wrote (c0 + 2 * i + 1) p c) chunks)) ≤ 1.
Proof.
  induction chunks as [|c rest IH]; intros c0 Hchecked; [cbn; lia|].
  rewrite imap_cons, filter_cons.
  destruct rest as [|c' rest'].
  { cbn. case_decide; cbn; lia. }
  rewrite decide_False.
  - rewrite (imap_ext _ (λ i c, Wrote ((c0 + 2) + 2 * i + 1) p c)).
    + apply IH. intros i Hi. specialize (Hchecked (S i)). cbn in *. lia.
    + intros i x _. cbn. f_equal. lia.
  - specialize (Hchecked 1). cbn in *. lia.
Qed.

(** C6.  While a body is streamed, the stop event is read before each
    chunk is written (the check of chunk [i] is at instant [clock + 2i], its
    write at the next instant).  The first check that finds the event set
    ends the call: [download_file] returns, raising nothing; the file holds
    exactly the chunks written until then and is neither removed nor
    truncated; and at most one chunk is written at or after the instant the
    event was set, the one whose check had already passed. *)
Theorem cancellation_between_chunks env u p w σ r T :
  cancel_at env = Some T →
  http_get env u = Responds r →
  same_size σ p (default 0%Z (content_length r)) = false →
  raise_for_status r = false →
  ∃ k o w' σ',
    download_file env u p w σ = (o, w', σ')
    ∧ k ≤ length (body r)
    ∧ (∀ i, i < k → clock σ + 2 * i < T)
    ∧ (k < length (body r) → T ≤ clock σ + 2 * k ∧ o = Cancelled)
    ∧ (k = length (body r) → o = Completed)
    ∧ fs σ' = <[p := concat (take k (body r))]> (fs σ)
    ∧ fs (run_finally w' σ') = fs σ'
    ∧ fs_log σ'
      = fs_log σ ++ Opened (clock σ) p
          :: imap (λ i c, Wrote (clock σ + 2 * i + 1) p c) (take k (body r))
    ∧ length (filter (λ e, T ≤ fs_time e)
                (imap (λ i c, Wrote (clock σ + 2 * i + 1) p c) (take k (body r))))
      ≤ 1.
Proof.
  intros HT Hget Hsame Hstatus.
  rewrite (download_file_streams _ _ _ _ _ _ Hget Hsame Hstatus).
  destruct (write_chunks _ _ _ _ _) as [o σ'] eqn:Hloop.
  destruct (write_chunks_spec _ _ _ _ _ _ _ [] Hloop)
    as (k & Hk & Hbefore & Hcancel & Hdone & Hfs & Hlog).
  { cbn. by rewrite lookup_insert_eq. }
  cbn in Hbefore, Hcancel, Hfs, Hlog.
  assert (∀ now, stop_is_set env now = bool_decide (T ≤ now)) as Hset.
  { intros now. unfold stop_is_set. by rewrite HT. }
  assert (∀ i, i < k → clock σ + 2 * i < T) as Hbefore'.
  { intros i Hi. specialize (Hbefore i Hi). rewrite Hset in Hbefore.
    apply bool_decide_eq_false in Hbefore. lia. }
  exists k, o, (set_task_id (Some (next_task_id σ)) w), σ'.
  split; [done|]. split; [done|]. split; [done|].
  split.
  { intros Hlt. destruct (Hcancel Hlt) as [Hstop ->]. split; [|done].
    rewrite Hset in Hstop. by apply bool_decide_eq_true in Hstop. }
  split; [done|]. split.
  { rewrite Hfs. cbn. by rewrite insert_insert_eq. }
  split.
  { unfold run_finally. cbn. by destruct (is_running w). }
  split.
  { rewrite Hlog, <- app_assoc. done. }
  apply late_writes_at_most_one. intros i Hi. apply Hbefore'.
  rewrite length_take in Hi. lia.
Qed.

(** A transfer cut short, run: [talk] has two chunks; the event
    is set at instant 2, while the first chunk is being written. *)
Lemma cancellation_between_chunks_witness :
  ∃ k o w' σ',
    download_file (Samples.cancelled_at 2) "http://h/talk.mp4"
      ["home"; "user"; "output"; "talk.mp4"] Samples.worker0
      (tick (Samples.world_of ∅ [Samples.talk]))
    = (o, w', σ')
    ∧ k ≤ 2
    ∧ (∀ i, i < k → 1 + 2 * i < 2)
    ∧ (k < 2 → 2 ≤ 1 + 2 * k ∧ o = Cancelled)
    ∧ (k = 2 → o = Completed)
    ∧ fs σ' = <[["home"; "user"; "output"; "talk.mp4"]
                 := concat (take k [[Samples.b1; Samples.b2]; [Samples.b3]])]> ∅
    ∧ fs (run_finally w' σ') = fs σ'
    ∧ fs_log σ'
      = Opened 1 ["home"; "user"; "output"; "talk.mp4"]
          :: imap (λ i c, Wrote (1 + 2 * i + 1) ["home"; "user"; "output"; "talk.mp4"] c)
               (take k [[Samples.b1; Samples.b2]; [Samples.b3]])
    ∧ length (filter (λ e, 2 ≤ fs_time e)
                (imap (λ i c, Wrote (1 + 2 * i + 1)
                                ["home"; "user"; "output"; "talk.mp4"] c)
                   (take k [[Samples.b1; Samples.b2]; [Samples.b3]])))
      ≤ 1.
Proof.
  apply (cancellation_between_chunks (Samples.cancelled_at 2) "http://h/talk.mp4"
           ["home"; "user"; "output"; "talk.mp4"] Samples.worker0
           (tick (Samples.world_of ∅ [Samples.talk]))
           {| status_code := 200; content_length := Some 3%Z;
              body := [[Samples.b1; Samples.b2]; [Samples.b3]] |} 2);
    reflexivity.
Defined.

(** The same transfer, evaluated: the chunk in flight at instant 2 is
    written, the next check stops the loop, and the first chunk stays on
    disk. *)
Example talk_cut_at_instant_2 :
  match download_file (Samples.cancelled_at 2) "http://h/talk.mp4"
          ["home"; "user"; "output"; "talk.mp4"] Samples.worker0
          (tick (Samples.world_of ∅ [Samples.talk])) with
  | (o, _, σ') =>
      o = Cancelled
      ∧ fs σ' !! ["home"; "user"; "output"; "talk.mp4"]
        = Some [Samples.b1; Samples.b2]
      ∧ fs_log σ'
        = [Opened 1 ["home"; "user"; "output"; "talk.mp4"];
           Wrote 2 ["home"; "user"; "output"; "talk.mp4"] [Samples.b1; Samples.b2]]
  end.
Proof. vm_compute. auto. Qed.

(** *** What one scheduled pass changes *)

Lemma run_finally_frame w σ :
  queue (run_finally w σ) = queue σ
  ∧ dequeued (run_finally w σ) = dequeued σ
  ∧ fs (run_finally w σ) = fs σ
  ∧ fs_log (run_finally w σ) = fs_log σ
  ∧ console (run_finally w σ) = console σ
  ∧ overall_completed (run_finally w σ)
    = (overall_completed σ + if is_running w then 1 else 0)%Z.
Proof.
  unfold run_finally. destruct (task_id w), (is_running w); cbn;
    repeat split; lia.
Qed.

(** Files: [download_file] touches the target only, and logs what it does. *)
Lemma download_file_files env u p w σ o w' σ' :
  download_file env u p w σ = (o, w', σ') →
  (∀ p', p' ≠ p → fs σ' !! p' = fs σ !! p')
  ∧ (∃ evs, fs_log σ' = fs_log σ ++ evs ∧ Forall (λ e, fs_path e = p) evs)
  ∧ (o = Skipped ∨ raised o = true → fs σ' = fs σ ∧ fs_log σ' = fs_log σ).
Proof.
  intros Hrun. destruct (http_get env u) as [e|r] eqn:Hget.
  - rewrite (download_file_raises _ _ _ _ _ _ Hget) in Hrun.
    injection Hrun as <- <- <-. cbn. repeat split; auto.
    exists []. by rewrite app_nil_r.
  - destruct (same_size σ p (default 0%Z (content_length r))) eqn:Hsame.
    + rewrite (download_file_skips _ _ _ _ _ _ Hget Hsame) in Hrun.
      injection Hrun as <- <- <-. cbn. repeat split; auto.
      exists []. by rewrite app_nil_r.
    + destruct (raise_for_status r) eqn:Hstatus.
      * rewrite (download_file_http_error _ _ _ _ _ _ Hget Hsame Hstatus) in Hrun.
        injection Hrun as <- <- <-. cbn. repeat split; auto.
        exists []. by rewrite app_nil_r.
      * rewrite (download_file_streams _ _ _ _ _ _ Hget Hsame Hstatus) in Hrun.
        destruct (write_chunks _ _ _ _ _) as [o1 σ1] eqn:Hloop.
        injection Hrun as <- <- <-.
        destruct (write_chunks_spec _ _ _ _ _ _ _ [] Hloop)
          as (k & _ & _ & _ & _ & Hfs & Hlog).
        { cbn. by rewrite lookup_insert_eq. }
        apply write_chunks_frame in Hloop as (_ & _ & _ & _ & _ & Ho).
        cbn in Hfs, Hlog. split; [|split].
        -- intros p' Hp'. rewrite Hfs. by rewrite !lookup_insert_ne.
        -- eexists. rewrite Hlog, <- app_assoc. split; [done|].
           constructor; [done|]. apply Forall_lookup. intros i x Hx.
           apply list_lookup_imap_Some in Hx as (c & _ & ->). done.
        -- intros [HS|HR]; destruct Ho as [-> | ->]; discriminate.
Qed.

Section Pipeline.

Variable slugify : string -> string.
Variable env : Env.

(** A pass that got a job, seen from outside. *)
Lemma job_pass_effect wid w σ entry q o w1 σ1 w' :
  download_of slugify env wid w σ entry q = (o, w1, σ1) →
  let σ' := run_finally w'
              (match o with Raised e => console_print (ErrorMsg e) σ1 | _ => σ1 end) in
  queue σ' = q
  ∧ dequeued σ' = dequeued σ ++ [(wid, Job entry)]
  ∧ (∃ evs, fs_log σ' = fs_log σ ++ evs
            ∧ Forall (λ e, fs_path e = output_video slugify (output w) entry) evs)
  ∧ (∀ p', p' ≠ output_video slugify (output w) entry → fs σ' !! p' = fs σ !! p')
  ∧ console σ'
    = console σ ++ match o with
                   | Skipped => [AlreadyDownloaded (output_video slugify (output w) entry)]
                   | Raised e => [ErrorMsg e]
                   | _ => []
                   end
  ∧ overall_completed σ'
    = (overall_completed σ + if is_running w' then 1 else 0)%Z
  ∧ (o = Skipped → fs σ' = fs σ ∧ fs_log σ' = fs_log σ)
  ∧ is_running w1 = is_running w ∧ output w1 = output w.
Proof.
  intros Hdl σ'. unfold download_of in Hdl.
  pose proof (download_file_frame _ _ _ _ _ _ _ _ Hdl) as (Hq & Hd & Hov & _ & Hw1).
  pose proof (download_file_console _ _ _ _ _ _ _ _ Hdl) as Hcon.
  pose proof (download_file_files _ _ _ _ _ _ _ _ Hdl) as (Hfs & Hlog & Hskip).
  pose proof (run_finally_frame w'
    (match o with Raised e => console_print (ErrorMsg e) σ1 | _ => σ1 end))
    as (Fq & Fd & Ffs & Flog & Fcon & Fov).
  fold σ' in Fq, Fd, Ffs, Flog, Fcon, Fov.
  cbn in Hq, Hd, Hov, Hcon, Hfs, Hlog, Hskip.
  rewrite Fq, Fd, Ffs, Flog, Fcon, Fov.
  assert (∀ A (f : World → A),
    (∀ m σ, f (console_print m σ) = f σ) →
    f (match o with Raised e => console_print (ErrorMsg e) σ1 | _ => σ1 end) = f σ1)
    as Hsame.
  { intros A f Hf. by destruct o. }
  rewrite !Hsame by done.
  split; [done|]. split; [done|]. split; [done|]. split; [done|].
  split.
  { destruct o; cbn; rewrite Hcon; try done. by rewrite app_nil_r. }
  split; [rewrite (Hsame _ overall_completed) by done; by rewrite Hov|].
  split; [intros ->; by apply Hskip; left|].
  by rewrite Hw1.
Qed.

(** What [Step i] does: nothing, or one pass of a running worker [i]. *)
Lemma step_effect i p :
  (step slugify env i p = p
   ∧ ∀ w, workers p !! i = Some w → is_running w = true →
          stop_is_set env (clock (world p)) = false ∧ queue (world p) = [])
  ∨ ∃ w w' σ',
      workers p !! i = Some w ∧ is_running w = true
      ∧ step slugify env i p
        = {| world := σ'; workers := <[i := w']> (workers p);
             to_spawn := to_spawn p |}
      ∧ output w' = output w
      ∧ ((stop_is_set env (clock (world p)) = true
          ∧ is_running w' = false ∧ σ' = tick (world p))
         ∨ (stop_is_set env (clock (world p)) = false
            ∧ ∃ q, queue (world p) = Sentinel :: q
                   ∧ is_running w' = false
                   ∧ σ' = task_done (queue_got i Sentinel q (tick (world p))))
         ∨ (stop_is_set env (clock (world p)) = false
            ∧ ∃ entry q o w1 σ1,
                queue (world p) = Job entry :: q
                ∧ download_of slugify env i w (world p) entry q = (o, w1, σ1)
                ∧ is_running w' = negb (raised o)
                ∧ σ' = run_finally w'
                         (match o with
                          | Raised e => console_print (ErrorMsg e) σ1
                          | _ => σ1
                          end))).
Proof.
  unfold step. destruct (workers p !! i) as [w|] eqn:Hw; [|by left].
  destruct (is_running w) eqn:Hrun;
    [|left; split; [done|]; intros ? [= <-]; congruence].
  destruct (stop_is_set env (clock (world p))) eqn:Hstop.
  { rewrite run_body_stopped by done. right. eexists _, _, _.
    repeat split; eauto. }
  destruct (queue (world p)) as [|[entry|] q] eqn:Hq.
  - rewrite run_body_blocked by done. left. split; [done|]. by intros ? [= <-].
  - destruct (download_of slugify env i w (world p) entry q) as [[o w1] σ1] eqn:Hdl.
    pose proof (job_pass_effect _ _ _ _ _ _ _ _ w1 Hdl) as (_ & _ & _ & _ & _ & _ & _ & Hr1 & Ho1).
    destruct (raised o) eqn:Ho.
    + destruct o as [| | |e]; try discriminate.
      erewrite run_body_raised by done. right. eexists _, _, _.
      split; [done|]. split; [done|]. split; [done|]. split; [by cbn|].
      right; right. split; [done|]. eexists _, _, _, _, _.
      split; [done|]. split; [done|]. by cbn.
    + erewrite run_body_returned by done. right. eexists _, _, _.
      split; [done|]. split; [done|]. split; [done|]. split; [done|].
      right; right. split; [done|]. eexists _, _, _, _, _.
      split; [done|]. split; [done|]. rewrite Ho, Hr1, Hrun. split; [done|].
      by destruct o.
  - rewrite (run_body_sentinel _ _ _ _ _ q) by done. right. eexists _, _, _.
    split; [done|]. split; [done|]. split; [done|]. split; [done|].
    right; left. eauto.
Qed.

Variables (output_dir : Path) (data : list VideoEntry).
Variables (fs0 : gmap Path (list Byte.byte)) (threads : Z).

Local Abbreviation Inv := (pipeline_inv slugify output_dir data fs0 threads).

Lemma put_all_queue (l : list VideoEntry) : ∀ σ,
  queue (put_all l σ) = queue σ ++ map Job l
  ∧ dequeued (put_all l σ) = dequeued σ
  ∧ fs (put_all l σ) = fs σ
  ∧ fs_log (put_all l σ) = fs_log σ
  ∧ console (put_all l σ) = console σ
  ∧ overall_completed (put_all l σ) = overall_completed σ.
Proof.
  induction l as [|x l IH]; intros σ.
  - cbn. by rewrite app_nil_r.
  - change (put_all (x :: l) σ) with (put_all l (queue_put (Job x) σ)).
    destruct (IH (queue_put (Job x) σ)) as (-> & -> & -> & -> & -> & ->).
    cbn. by rewrite <- app_assoc.
Qed.

Lemma pipeline_inv_start : Inv (cli_start threads data fs0).
Proof.
  destruct (put_all_queue data (empty_world fs0)) as (Hq & Hd & Hfs & Hlog & _).
  constructor; cbn; rewrite ?Hq, ?Hd, ?Hfs, ?Hlog; cbn.
  - by rewrite app_nil_r.
  - done.
  - intros x Hx. by apply elem_of_nil in Hx.
  - intros i w Hw. by rewrite lookup_nil in Hw.
  - constructor.
  - done.
Qed.

Lemma pipeline_inv_spawn p : Inv p → Inv (spawn output_dir p).
Proof.
  intros HI. pose proof HI as [Hitems Hcount Hids Hout Hlog Hfs]. unfold spawn.
  destruct (to_spawn p) as [|n] eqn:Hn; [done|].
  constructor; cbn.
  - rewrite app_assoc, Hitems, length_app. cbn.
    rewrite Nat.add_1_r, replicate_S_end. by rewrite app_assoc.
  - rewrite length_app. cbn. lia.
  - intros x Hx. rewrite length_app. specialize (Hids x Hx). lia.
  - intros i w Hw. apply lookup_app_Some in Hw as [Hw|[_ Hw]]; [by eapply Hout|].
    apply list_lookup_singleton_Some in Hw as [_ <-]. done.
  - done.
  - done.
Qed.

(** A job in the queue is one of [data]. *)
Lemma queued_job_in_data p entry q :
  Inv p → queue (world p) = Job entry :: q → entry ∈ data.
Proof.
  intros [Hitems _ _ _ _ _] Hq.
  assert (Job entry ∈ map Job data ++ replicate (length (workers p)) Sentinel) as Hin.
  { rewrite <- Hitems, Hq. apply elem_of_app. right. apply elem_of_cons. by left. }
  apply elem_of_app in Hin as [Hin|Hin].
  - apply list_elem_of_fmap in Hin as (e & [= ->] & He). done.
  - apply elem_of_replicate in Hin as [? _]. discriminate.
Qed.

Lemma outputs_insert (ws : list Worker) i w w' :
  ws !! i = Some w → output w' = output w →
  (∀ j wj, ws !! j = Some wj → output wj = output_dir) →
  ∀ j wj, <[i := w']> ws !! j = Some wj → output wj = output_dir.
Proof.
  intros Hw Hout Hall j wj Hj. destruct (decide (j = i)) as [->|Hne].
  - rewrite list_lookup_insert_eq in Hj by (by eapply lookup_lt_Some).
    injection Hj as <-. rewrite Hout. by eapply Hall.
  - rewrite list_lookup_insert_ne in Hj by done. by eapply Hall.
Qed.

Lemma pipeline_inv_step i p : Inv p → Inv (step slugify env i p).
Proof.
  intros HI. pose proof HI as [Hitems Hcount Hids Hout Hlog Hfs].
  destruct (step_effect i p)
    as [[-> _] | (w & w' & σ' & Hw & Hrun & -> & Hout' & Hcases)]; [done|].
  pose proof (lookup_lt_Some _ _ _ Hw) as Hi.
  destruct Hcases as [(Hstop & Hr' & ->)
    | [(Hstop & q & Hq & Hr' & ->)
      | (Hstop & entry & q & o & w1 & σ1 & Hq & Hdl & Hr' & ->)]].
  - constructor; cbn; rewrite ?length_insert; try done.
    by eapply outputs_insert.
  - constructor; cbn; rewrite ?length_insert; try done.
    + rewrite fmap_app, <- app_assoc. cbn. by rewrite <- Hq.
    + intros x Hx. apply elem_of_app in Hx as [Hx|Hx]; [by apply Hids|].
      apply list_elem_of_singleton in Hx as ->. done.
    + by eapply outputs_insert.
  - pose proof (job_pass_effect _ _ _ _ _ _ _ _ w' Hdl)
      as (Eq & Ed & (evs & Elog & Hevs) & Efs & _).
    pose proof (queued_job_in_data _ _ _ HI Hq) as Hentry.
    rewrite (Hout _ _ Hw) in Hevs, Efs.
    constructor; cbn [world workers to_spawn]; rewrite ?length_insert; try done.
    + rewrite Eq, Ed, fmap_app, <- app_assoc. cbn. by rewrite <- Hq.
    + rewrite Ed. intros x Hx. apply elem_of_app in Hx as [Hx|Hx]; [by apply Hids|].
      apply list_elem_of_singleton in Hx as ->. done.
    + by eapply outputs_insert.
    + rewrite Elog. apply Forall_app. split; [done|].
      eapply Forall_impl; [exact Hevs|]. cbn. eauto.
    + intros path Hpath. rewrite Efs by (by apply Hpath). by apply Hfs.
Qed.

Lemma pipeline_inv_exec e p : Inv p → Inv (exec slugify env output_dir e p).
Proof.
  destruct e; cbn; [apply pipeline_inv_spawn | apply pipeline_inv_step].
Qed.

(** Invariants hold along every schedule. *)
Lemma foldl_exec_inv (P : Pipeline → Prop) sched :
  (∀ e p, P p → P (exec slugify env output_dir e p)) →
  ∀ p, P p → P (foldl (λ p e, exec slugify env output_dir e p) p sched).
Proof.
  intros Hstep. induction sched as [|e sched IH]; intros p Hp; cbn; [done|].
  apply IH, Hstep, Hp.
Qed.

(** **** Passes that end neither by the stop event nor by an exception *)

Lemma got_snoc σ σ' (i : nat) x j :
  dequeued σ' = dequeued σ ++ [(i, x)] →
  got j σ' = got j σ ++ (if decide (i = j) then [x] else []).
Proof.
  intros Hd. unfold got. rewrite Hd, filter_app, fmap_app. f_equal.
  rewrite filter_cons, filter_nil. cbn. by case_decide.
Qed.

Lemma got_same σ σ' j : dequeued σ' = dequeued σ → got j σ' = got j σ.
Proof. intros Hd. unfold got. by rewrite Hd. Qed.

Lemma got_fresh σ n :
  (∀ x, x ∈ dequeued σ → x.1 < n) → got n σ = [].
Proof.
  intros Hids. unfold got.
  induction (dequeued σ) as [|x d IH]; [done|].
  rewrite filter_cons_False.
  - apply IH. intros y Hy. apply Hids. by apply elem_of_cons; right.
  - specialize (Hids x (list_elem_of_here _ _)). lia.
Qed.

Local Abbreviation Calm := (calm_inv).

Lemma calm_inv_start : Calm (cli_start threads data fs0).
Proof. intros i w Hw. cbn in Hw. by rewrite lookup_nil in Hw. Qed.

Lemma calm_inv_spawn p : Inv p → Calm p → Calm (spawn output_dir p).
Proof.
  intros [_ _ Hids _ _ _] Hcalm. unfold spawn.
  destruct (to_spawn p) as [|n]; [done|].
  intros i w Hw. cbn in Hw.
  rewrite (got_same (world p)) by done.
  apply lookup_app_Some in Hw as [Hw|[Hlen Hw]]; [by apply Hcalm|].
  apply list_lookup_singleton_Some in Hw as [Hi <-].
  exists []. cbn. replace i with (length (workers p)) by lia.
  by apply got_fresh.
Qed.

Lemma calm_inv_step i p :
  cancel_at env = None →
  Calm p →
  (∀ w entry q, workers p !! i = Some w → is_running w = true →
     queue (world p) = Job entry :: q →
     raised (download_of slugify env i w (world p) entry q).1.1 = false) →
  Calm (step slugify env i p).
Proof.
  intros Hcancel Hcalm Hnoraise.
  destruct (step_effect i p)
    as [[-> _] | (w & w' & σ' & Hw & Hrun & -> & Hout' & Hcases)]; [done|].
  pose proof (lookup_lt_Some _ _ _ Hw) as Hi.
  destruct (Hcalm _ _ Hw) as [js Hjs]. rewrite Hrun, app_nil_r in Hjs.
  assert (∀ x, dequeued σ' = dequeued (world p) ++ [(i, x)] →
               (∃ js', map Job js ++ [x]
                       = map Job js' ++ if is_running w' then [] else [Sentinel]) →
               Calm {| world := σ'; workers := <[i := w']> (workers p);
                       to_spawn := to_spawn p |}) as Hgot.
  { intros x Hd Hx j wj Hj. cbn in Hj. cbn [world].
    rewrite (got_snoc (world p) σ' i x j Hd).
    destruct (decide (i = j)) as [<-|Hne].
    - rewrite list_lookup_insert_eq in Hj by done. injection Hj as <-.
      by rewrite Hjs.
    - rewrite list_lookup_insert_ne in Hj by done. rewrite app_nil_r.
      by apply Hcalm. }
  destruct Hcases as [(Hstop & _)
    | [(Hstop & q & Hq & Hr' & ->)
      | (Hstop & entry & q & o & w1 & σ1 & Hq & Hdl & Hr' & ->)]].
  - unfold stop_is_set in Hstop. by rewrite Hcancel in Hstop.
  - apply (Hgot Sentinel); [done|]. exists js. by rewrite Hr'.
  - pose proof (job_pass_effect _ _ _ _ _ _ _ _ w' Hdl) as (_ & Ed & _).
    apply (Hgot (Job entry)); [done|].
    specialize (Hnoraise _ _ _ Hw Hrun Hq). rewrite Hdl in Hnoraise.
    cbn in Hnoraise. rewrite Hnoraise in Hr'. rewrite Hr'.
    exists (js ++ [entry]). by rewrite map_app, app_nil_r.
Qed.

(** A response that [raise_for_status] accepts never makes the call raise. *)
Lemma download_file_returns u p w σ r :
  http_get env u = Responds r →
  raise_for_status r = false →
  raised (download_file env u p w σ).1.1 = false.
Proof.
  intros Hget Hstatus.
  destruct (same_size σ p (default 0%Z (content_length r))) eqn:Hsame.
  - by rewrite (download_file_skips _ _ _ _ _ _ Hget Hsame).
  - rewrite (download_file_streams _ _ _ _ _ _ Hget Hsame Hstatus).
    destruct (write_chunks _ _ _ _ _) as [o σ'] eqn:Hloop.
    by apply write_chunks_frame in Hloop as (_ & _ & _ & _ & _ & [-> | ->]).
Qed.

Lemma filter_insert_length {A} (P : A → Prop) `{!∀ x, Decision (P x)}
    (l : list A) : ∀ i x y,
  l !! i = Some x →
  length (filter P (<[i := y]> l)) + (if decide (P x) then 1 else 0)
  = length (filter P l) + (if decide (P y) then 1 else 0).
Proof.
  induction l as [|a l IH]; intros [|i] x y Hx; try done.
  - injection Hx as ->.
    change (<[0 := y]> (x :: l)) with (y :: l). rewrite !filter_cons.
    destruct (decide (P x)), (decide (P y)); cbn; lia.
  - change (<[S i := y]> (a :: l)) with (a :: <[i := y]> l).
    rewrite !filter_cons. specialize (IH i x y Hx).
    destruct (decide (P a)); cbn; lia.
Qed.

Lemma filter_sentinel_jobs (l : list VideoEntry) :
  filter (λ x, x = Sentinel) (map Job l) = [].
Proof.
  induction l as [|x l IH]; [done|]. cbn [map]. by rewrite filter_cons_False.
Qed.

(** **** Every run: no worker waits for ever *)

Lemma live_inv_start : live_inv (cli_start threads data fs0).
Proof. unfold live_inv. cbn. lia. Qed.

Lemma live_inv_spawn p : live_inv p → live_inv (spawn output_dir p).
Proof.
  unfold live_inv, spawn. intros Hlive. destruct (to_spawn p); [done|].
  cbn [world workers queue queue_put].
  rewrite !filter_app, !length_app, !filter_cons_True, !filter_nil by done.
  cbn. lia.
Qed.

Lemma live_inv_step i p : live_inv p → live_inv (step slugify env i p).
Proof.
  intros Hlive.
  destruct (step_effect i p)
    as [[-> _] | (w & w' & σ' & Hw & Hrun & -> & Hout' & Hcases)]; [done|].
  pose proof (filter_insert_length (λ w, is_running w = true) _ _ _ w' Hw) as Hins.
  rewrite decide_True in Hins by done.
  unfold live_inv in *. cbn [world workers].
  destruct Hcases as [(Hstop & Hr' & ->)
    | [(Hstop & q & Hq & Hr' & ->)
      | (Hstop & entry & q & o & w1 & σ1 & Hq & Hdl & Hr' & ->)]].
  - rewrite decide_False in Hins by congruence. cbn. lia.
  - rewrite decide_False in Hins by congruence.
    rewrite Hq, filter_cons_True in Hlive by done. cbn in *. lia.
  - pose proof (job_pass_effect _ _ _ _ _ _ _ _ w' Hdl) as (-> & _).
    rewrite Hq, filter_cons_False in Hlive by done.
    destruct (decide (is_running w' = true)); lia.
Qed.

Lemma got_inv_start : got_inv (cli_start threads data fs0).
Proof. intros i w Hw. cbn in Hw. by rewrite lookup_nil in Hw. Qed.

Lemma got_inv_spawn p : Inv p → got_inv p → got_inv (spawn output_dir p).
Proof.
  intros [_ _ Hids _ _ _] Hgot. unfold spawn.
  destruct (to_spawn p) as [|n]; [done|].
  intros i w Hw Hr. cbn in Hw.
  rewrite (got_same (world p)) by done.
  apply lookup_app_Some in Hw as [Hw|[Hlen Hw]]; [by eapply Hgot|].
  apply list_lookup_singleton_Some in Hw as [Hi _].
  exists []. cbn. replace i with (length (workers p)) by lia.
  by apply got_fresh.
Qed.

Lemma got_inv_step i p : got_inv p → got_inv (step slugify env i p).
Proof.
  intros Hgot.
  destruct (step_effect i p)
    as [[-> _] | (w & w' & σ' & Hw & Hrun & -> & Hout' & Hcases)]; [done|].
  pose proof (lookup_lt_Some _ _ _ Hw) as Hi.
  destruct (Hgot _ _ Hw Hrun) as [js Hjs].
  intros j wj Hj Hrj. cbn in Hj. cbn [world].
  destruct (decide (i = j)) as [<-|Hne].
  - rewrite list_lookup_insert_eq in Hj by done. injection Hj as <-.
    destruct Hcases as [(_ & Hr' & _)
      | [(_ & q & _ & Hr' & _)
        | (_ & entry & q & o & w1 & σ1 & Hq & Hdl & Hr' & ->)]];
      [congruence..|].
    pose proof (job_pass_effect _ _ _ _ _ _ _ _ w' Hdl) as (_ & Ed & _).
    rewrite (got_snoc (world p) _ i (Job entry) i Ed), decide_True, Hjs by done.
    exists (js ++ [entry]). by rewrite map_app.
  - rewrite list_lookup_insert_ne in Hj by done.
    destruct (Hgot _ _ Hj Hrj) as [js' Hjs']. exists js'. rewrite <- Hjs'.
    destruct Hcases as [(_ & _ & ->)
      | [(_ & q & _ & _ & ->)
        | (_ & entry & q & o & w1 & σ1 & Hq & Hdl & Hr' & ->)]].
    + done.
    + erewrite (got_snoc (world p) _ i Sentinel j); [|done].
      by rewrite decide_False, app_nil_r.
    + pose proof (job_pass_effect _ _ _ _ _ _ _ _ w' Hdl) as (_ & Ed & _).
      rewrite (got_snoc (world p) _ i (Job entry) j Ed).
      by rewrite decide_False, app_nil_r.
Qed.

Local Abbreviation Good p := (Inv p ∧ got_inv p ∧ live_inv p).

Lemma good_start : Good (cli_start threads data fs0).
Proof.
  split; [apply pipeline_inv_start|].
  split; [apply got_inv_start | apply live_inv_start].
Qed.

Lemma good_exec e p : Good p → Good (exec slugify env output_dir e p).
Proof.
  intros (HI & Hgot & Hlive).
  split; [by apply pipeline_inv_exec|]. destruct e as [|i]; cbn.
  - split; [by apply got_inv_spawn | by apply live_inv_spawn].
  - split; [by apply got_inv_step | by apply live_inv_step].
Qed.

(** A running worker never finds the queue empty: its sentinel is there. *)
Lemma running_not_blocked p i w :
  live_inv p → workers p !! i = Some w → is_running w = true →
  queue (world p) ≠ [].
Proof.
  unfold live_inv. intros Hlive Hw Hrun Hq. rewrite Hq in Hlive. cbn in Hlive.
  assert (w ∈ filter (λ w, is_running w = true) (workers p)) as Hin.
  { apply list_elem_of_filter. split; [done|]. by eapply list_elem_of_lookup_2. }
  destruct (filter _ (workers p)); [by apply elem_of_nil in Hin | cbn in Hlive; lia].
Qed.

(** One event of the schedule, seen from worker [i]: if it runs afterwards,
    it ran before, and it got one more item exactly when the pass was its
    own. *)
Lemma exec_progress e p i w :
  live_inv p →
  workers p !! i = Some w →
  ∃ w1, workers (exec slugify env output_dir e p) !! i = Some w1
    ∧ (is_running w1 = true →
       is_running w = true
       ∧ length (got i (world (exec slugify env output_dir e p)))
         = length (got i (world p)) + passes i [e]).
Proof.
  intros Hlive Hw.
  unfold passes. rewrite filter_cons, filter_nil.
  destruct e as [|j]; cbn [exec].
  - rewrite decide_False by done. unfold spawn.
    destruct (to_spawn p); [exists w; split; [done|]; intros; split; [done|cbn; lia]|].
    cbn. exists w. split; [by apply lookup_app_l_Some|].
    intros Hr. split; [done|]. unfold got. cbn. lia.
  - destruct (step_effect j p)
      as [[-> Hblocked] | (wj & w' & σ' & Hwj & Hrun & -> & Hout' & Hcases)].
    + exists w. split; [done|]. intros Hr. split; [done|].
      destruct (decide (Step j = Step i)) as [[= ->]|_]; [|cbn; lia].
      destruct (Hblocked w Hw Hr) as [_ Hq].
      by destruct (running_not_blocked p i w Hlive Hw Hr).
    + cbn [world workers].
      assert ((dequeued σ' = dequeued (world p) ∧ is_running w' = false)
              ∨ (∃ x, dequeued σ' = dequeued (world p) ++ [(j, x)])) as Hd.
      { destruct Hcases as [(_ & Hr' & ->)
          | [(_ & q & _ & Hr' & ->)
            | (_ & entry & q & o & w1 & σ1 & Hq & Hdl & Hr' & ->)]].
        - by left.
        - right. by exists Sentinel.
        - right. exists (Job entry).
          by pose proof (job_pass_effect _ _ _ _ _ _ _ _ w' Hdl) as (_ & -> & _). }
      destruct (decide (j = i)) as [->|Hne].
      * rewrite Hw in Hwj. injection Hwj as <-.
        exists w'. split.
        { apply list_lookup_insert_eq. by eapply lookup_lt_Some. }
        intros Hr. split; [done|]. rewrite decide_True by done.
        destruct Hd as [[_ Hd]|(x & Hd)]; [congruence|].
        rewrite (got_snoc (world p) σ' i x i Hd), decide_True by done.
        rewrite length_app. done.
      * exists w. split; [by rewrite list_lookup_insert_ne|].
        intros Hr. split; [done|]. rewrite decide_False by congruence.
        destruct Hd as [[Hd _]|(x & Hd)].
        -- rewrite (got_same (world p)) by done. cbn. lia.
        -- rewrite (got_snoc (world p) σ' j x i Hd), decide_False by done.
           rewrite app_nil_r. cbn. lia.
Qed.

Lemma foldl_progress sched : ∀ p i w,
  Good p →
  workers p !! i = Some w →
  let p' := foldl (λ p e, exec slugify env output_dir e p) p sched in
  ∃ w', workers p' !! i = Some w'
    ∧ (is_running w' = true →
       is_running w = true
       ∧ length (got i (world p')) = length (got i (world p)) + passes i sched).
Proof.
  induction sched as [|e sched IH]; intros p i w Hgood Hw;
    cbn zeta; cbn [foldl].
  - exists w. split; [done|]. intros Hr. split; [done|]. unfold passes. cbn. lia.
  - destruct (exec_progress e p i w (proj2 (proj2 Hgood)) Hw) as (w1 & Hw1 & Hstep).
    destruct (IH _ i w1 (good_exec e p Hgood) Hw1) as (w' & Hw' & Hrest).
    exists w'. split; [done|]. intros Hr.
    destruct (Hrest Hr) as [Hr1 ->]. destruct (Hstep Hr1) as [Hr0 ->].
    split; [done|]. unfold passes.
    change (e :: sched) with ([e] ++ sched). rewrite filter_app, length_app. lia.
Qed.

(** A running worker has got at most as many items as there are jobs. *)
Lemma jobs_of_got (d : list (nat * Item)) i :
  length (filter (λ x, x ≠ Sentinel) ((filter (λ y, y.1 = i) d).*2))
  ≤ length (filter (λ x, x ≠ Sentinel) (d.*2)).
Proof.
  induction d as [|y d IH]; [done|].
  rewrite filter_cons, (fmap_cons snd y d), (filter_cons _ (y.2)).
  destruct (decide (y.1 = i)).
  - rewrite fmap_cons, filter_cons. destruct (decide (y.2 ≠ Sentinel)); cbn; lia.
  - destruct (decide (y.2 ≠ Sentinel)); cbn; lia.
Qed.

Lemma filter_jobs_map (js : list VideoEntry) :
  filter (λ x, x ≠ Sentinel) (map Job js) = map Job js.
Proof.
  induction js as [|x js IH]; [done|]. cbn [map].
  rewrite filter_cons_True by done. by rewrite IH.
Qed.

Lemma filter_jobs_replicate n :
  filter (λ x, x ≠ Sentinel) (replicate n Sentinel) = [].
Proof.
  induction n as [|n IH]; [done|]. cbn [replicate].
  rewrite filter_cons_False; [done|]. by intros [].
Qed.

Lemma got_bound p i w :
  Inv p → got_inv p →
  workers p !! i = Some w → is_running w = true →
  length (got i (world p)) ≤ length data.
Proof.
  intros [Hitems _ _ _ _ _] Hgot Hw Hr.
  destruct (Hgot _ _ Hw Hr) as [js Hjs].
  assert (length (got i (world p))
          = length (filter (λ x, x ≠ Sentinel) (got i (world p)))) as ->.
  { by rewrite Hjs, filter_jobs_map. }
  unfold got. etrans; [apply jobs_of_got|].
  apply (f_equal (λ l, length (filter (λ x, x ≠ Sentinel) l))) in Hitems.
  rewrite !filter_app, !length_app, filter_jobs_map, filter_jobs_replicate,
    length_map in Hitems.
  cbn in Hitems. lia.
Qed.

(** The coordinator's loop, run to its end before any worker is scheduled. *)
Lemma spawn_all n : ∀ p,
  n ≤ to_spawn p →
  let p' := foldl (λ p e, exec slugify env output_dir e p) p (replicate n Spawn) in
  to_spawn p' = to_spawn p - n ∧ length (workers p') = length (workers p) + n.
Proof.
  induction n as [|n IH]; intros p Hn; cbn zeta; cbn [replicate foldl].
  - split; lia.
  - destruct (IH (exec slugify env output_dir Spawn p)) as [Ht Hl].
    { cbn. unfold spawn. destruct (to_spawn p); [lia|]. cbn. lia. }
    rewrite Ht, Hl. cbn. unfold spawn. destruct (to_spawn p); [lia|].
    cbn. rewrite length_app. cbn. lia.
Qed.

Lemma to_spawn_foldl sched : ∀ p,
  to_spawn (foldl (λ p e, exec slugify env output_dir e p) p sched) ≤ to_spawn p.
Proof.
  induction sched as [|e sched IH]; intros p; cbn [foldl]; [done|].
  etrans; [apply IH|]. destruct e as [|i]; cbn.
  - unfold spawn. destruct (to_spawn p) eqn:E; cbn; lia.
  - unfold step. destruct (workers p !! i); [|done].
    destruct (is_running _); [|done].
    by destruct (run_body _ _ _ _ _) as [[[? ?] ?]|].
Qed.

(** Whatever the remote side does and whenever the stop event is set: once
    every worker exists, a schedule that gives each of them more passes than
    there are jobs ends with all of them stopped. *)
Lemma fair_schedule_joins steps :
  (∀ i, i < Z.to_nat threads → length data < passes i steps) →
  joined (foldl (λ p e, exec slugify env output_dir e p)
            (cli_start threads data fs0)
            (replicate (Z.to_nat threads) Spawn ++ steps)) = true.
Proof.
  intros Hfair. rewrite foldl_app.
  set (p0 := foldl _ (cli_start threads data fs0) (replicate _ Spawn)).
  set (p' := foldl _ p0 steps).
  assert (Good p0) as Hgood0.
  { apply (foldl_exec_inv (λ p, Good p)); [|apply good_start].
    intros e p. by apply good_exec. }
  assert (Good p') as (HI & Hgot & Hlive).
  { apply (foldl_exec_inv (λ p, Good p)); [|done].
    intros e p. by apply good_exec. }
  destruct (spawn_all (Z.to_nat threads) (cli_start threads data fs0)) as [Ht0 Hl0];
    [done|]. fold p0 in Ht0, Hl0. cbn in Ht0, Hl0.
  assert (to_spawn p' = 0) as Ht'.
  { pose proof (to_spawn_foldl steps p0) as Hle. fold p' in Hle. lia. }
  unfold joined. rewrite Ht'. cbn. apply Is_true_eq_true, forallb_True.
  apply Forall_lookup. intros i w' Hw'.
  assert (i < Z.to_nat threads) as Hi.
  { apply lookup_lt_Some in Hw'. pose proof (inv_count _ _ _ _ _ _ HI). lia. }
  destruct (lookup_lt_is_Some_2 (workers p0) i) as [w0 Hw0]; [lia|].
  destruct (foldl_progress steps p0 i w0 Hgood0 Hw0) as (w'' & Hw'' & Hprog).
  fold p' in Hw'', Hprog. rewrite Hw' in Hw''. injection Hw'' as <-.
  destruct (is_running w') eqn:Hr; [|done].
  destruct (Hprog eq_refl) as [_ Hlen].
  pose proof (got_bound p' i w' HI Hgot Hw' Hr).
  specialize (Hfair i Hi). lia.
Qed.

(** **** Runs in which every file is already there *)

Local Abbreviation Skip := (skip_inv slugify output_dir fs0).
Local Abbreviation all_match := (all_match slugify output_dir data fs0 env).

Lemma skip_inv_start : Skip (cli_start threads data fs0).
Proof.
  destruct (put_all_queue data (empty_world fs0))
    as (_ & Hd & Hfs & Hlog & Hcon & Hov).
  constructor; cbn; rewrite ?Hd, ?Hfs, ?Hlog, ?Hcon, ?Hov; done.
Qed.

Lemma skip_inv_spawn p : Skip p → Skip (spawn output_dir p).
Proof.
  intros HS. unfold spawn. destruct (to_spawn p); [done|].
  destruct HS. by constructor.
Qed.

Lemma matching_job_is_skipped p i w entry q :
  all_match → Inv p → Skip p →
  workers p !! i = Some w →
  queue (world p) = Job entry :: q →
  ∃ w1 σ1, download_of slugify env i w (world p) entry q = (Skipped, w1, σ1).
Proof.
  intros Hmatch HI HS Hw Hq.
  destruct (Hmatch entry (queued_job_in_data _ _ _ HI Hq)) as (r & c & Hget & Hc & Hlen).
  eexists _, _. unfold download_of. apply (download_file_skips _ _ _ _ _ _ Hget).
  unfold same_size. cbn [fs queue_got tick].
  rewrite (skip_fs _ _ _ _ HS), (inv_outputs _ _ _ _ _ _ HI _ _ Hw), Hc.
  by apply bool_decide_eq_true.
Qed.

Lemma skip_inv_step i p :
  all_match → Inv p → Skip p → Skip (step slugify env i p).
Proof.
  intros Hmatch HI HS. pose proof HS as [Hfs Hlog Hcon Hov].
  destruct (step_effect i p)
    as [[-> _] | (w & w' & σ' & Hw & Hrun & -> & Hout' & Hcases)]; [done|].
  destruct Hcases as [(Hstop & Hr' & ->)
    | [(Hstop & q & Hq & Hr' & ->)
      | (Hstop & entry & q & o & w1 & σ1 & Hq & Hdl & Hr' & ->)]].
  - by constructor.
  - constructor; cbn; try done. rewrite omap_app. cbn. by rewrite app_nil_r.
  - destruct (matching_job_is_skipped _ _ _ _ _ Hmatch HI HS Hw Hq)
      as (w1' & σ1' & Hskip).
    rewrite Hskip in Hdl. injection Hdl as <- <- <-.
    pose proof (job_pass_effect _ _ _ _ _ _ _ _ w' Hskip)
      as (_ & Ed & _ & _ & Econ & Eov & Efs & _).
    destruct (Efs eq_refl) as [Efs1 Efs2].
    rewrite (inv_outputs _ _ _ _ _ _ HI _ _ Hw) in Econ.
    constructor; cbn [world].
    + by rewrite Efs1.
    + by rewrite Efs2.
    + rewrite Econ, Ed, omap_app, Hcon. done.
    + rewrite Eov, Econ, length_app, Hov, Hr'. cbn. lia.
Qed.

(** Once all workers have stopped after getting their sentinel, every job
    has been taken. *)
Lemma all_jobs_taken p :
  Inv p → calm_inv p → joined p = true → 0 < Z.to_nat threads →
  ∃ k, (dequeued (world p)).*2 = map Job data ++ replicate k Sentinel.
Proof.
  intros [Hitems Hcount _ _ _ _] Hcalm Hjoined Hthreads.
  unfold joined in Hjoined. apply andb_true_iff in Hjoined as [Hsp Hall].
  apply bool_decide_eq_true in Hsp.
  destruct (lookup_lt_is_Some_2 (workers p) 0) as [w0 Hw0]; [lia|].
  assert (is_running w0 = false) as Hr0.
  { apply Is_true_eq_left, forallb_True in Hall.
    rewrite Forall_lookup in Hall. specialize (Hall 0 w0 Hw0).
    by destruct (is_running w0). }
  destruct (Hcalm 0 w0 Hw0) as [js Hjs]. rewrite Hr0 in Hjs.
  assert (Sentinel ∈ (dequeued (world p)).*2) as Hin.
  { assert (Sentinel ∈ got 0 (world p)) as Hin0.
    { rewrite Hjs. apply elem_of_app. right. apply list_elem_of_here. }
    unfold got in Hin0. apply list_elem_of_fmap in Hin0 as (y & -> & Hy).
    apply list_elem_of_filter in Hy as [_ Hy]. apply list_elem_of_fmap. eauto. }
  apply app_eq_inv in Hitems as [(k & Hd & Hk)|(k & Hd & _)].
  - exists (length k). rewrite Hd. f_equal.
    assert (Forall (λ x, x = Sentinel) k) as Hall'.
    { apply Forall_forall. intros x Hx.
      assert (x ∈ replicate (length (workers p)) Sentinel) as Hx'.
      { rewrite Hk. apply elem_of_app. by left. }
      by apply elem_of_replicate in Hx' as [-> _]. }
    clear -Hall'. induction Hall' as [|x k -> _ IH]; [done|]. cbn. by f_equal.
  - exfalso. assert (Sentinel ∈ map Job data) as Hbad.
    { rewrite Hd. apply elem_of_app. by left. }
    apply list_elem_of_fmap in Hbad as (e & He & _). discriminate.
Qed.

Lemma skip_lines_of_all (d : list (nat * Item)) k :
  d.*2 = map Job data ++ replicate k Sentinel →
  omap (skip_line slugify output_dir) d
  = map (λ entry, AlreadyDownloaded (output_video slugify output_dir entry)) data.
Proof.
  clear. revert d. induction data as [|entry l IH]; intros d Hd.
  - cbn in Hd. revert d Hd. induction k as [|k IHk]; intros d Hd.
    + by destruct d.
    + destruct d as [|[i x] d]; [done|]. cbn in Hd. injection Hd as -> Hd.
      cbn. by apply IHk.
  - destruct d as [|[i x] d]; [done|]. cbn in Hd. injection Hd as -> Hd.
    cbn. f_equal. by apply IH.
Qed.

(** **** What a schedule prints *)

Lemma console_step i p :
  ∃ more, console (world (step slugify env i p)) = console (world p) ++ more.
Proof.
  destruct (step_effect i p)
    as [[-> _] | (w & w' & σ' & Hw & Hrun & -> & Hout' & Hcases)].
  { exists []. by rewrite app_nil_r. }
  cbn [world].
  destruct Hcases as [(_ & _ & ->)
    | [(_ & q & _ & _ & ->)
      | (_ & entry & q & o & w1 & σ1 & Hq & Hdl & Hr' & ->)]].
  - exists []. by rewrite app_nil_r.
  - exists []. by rewrite app_nil_r.
  - pose proof (job_pass_effect _ _ _ _ _ _ _ _ w' Hdl) as (_ & _ & _ & _ & -> & _).
    eauto.
Qed.

Lemma console_exec e p :
  ∃ more, console (world (exec slugify env output_dir e p))
          = console (world p) ++ more.
Proof.
  destruct e as [|i]; [|apply console_step].
  exists []. cbn. unfold spawn. destruct (to_spawn p); by rewrite app_nil_r.
Qed.

(** An exception in a pass shows on the console. *)
Lemma quiet_step_returns i p w entry q :
  cancel_at env = None →
  (∀ err, ErrorMsg err ∉ console (world (step slugify env i p))) →
  workers p !! i = Some w → is_running w = true →
  queue (world p) = Job entry :: q →
  raised (download_of slugify env i w (world p) entry q).1.1 = false.
Proof.
  intros Hcancel Hquiet Hw Hrun Hq.
  destruct (download_of slugify env i w (world p) entry q) as [[o w1] σ1] eqn:Hdl.
  destruct o as [| | |err]; try done. exfalso. apply (Hquiet err).
  unfold step. rewrite Hw, Hrun.
  erewrite run_body_raised; [| |done..].
  2:{ unfold stop_is_set. by rewrite Hcancel. }
  cbn [world].
  pose proof (job_pass_effect _ _ _ _ _ _ _ _ (set_is_running false w1) Hdl)
    as (_ & _ & _ & _ & -> & _).
  apply elem_of_app. right. apply list_elem_of_here.
Qed.

Lemma calm_inv_exec_quiet e p :
  cancel_at env = None →
  (∀ err, ErrorMsg err ∉ console (world (exec slugify env output_dir e p))) →
  Inv p → calm_inv p → calm_inv (exec slugify env output_dir e p).
Proof.
  intros Hcancel Hquiet HI Hcalm. destruct e as [|i]; cbn.
  - by apply calm_inv_spawn.
  - apply calm_inv_step; [done..|]. intros w entry q Hw Hrun Hq.
    by apply quiet_step_returns.
Qed.

Lemma calm_run sched :
  cancel_at env = None →
  (∀ err, ErrorMsg err ∉
     console (world (foldl (λ p e, exec slugify env output_dir e p)
                       (cli_start threads data fs0) sched))) →
  calm_inv (foldl (λ p e, exec slugify env output_dir e p)
              (cli_start threads data fs0) sched).
Proof.
  intros Hcancel. induction sched as [|e sched IH] using rev_ind; intros Hquiet.
  - apply calm_inv_start.
  - rewrite foldl_app in *. cbn [foldl] in *.
    apply calm_inv_exec_quiet; [done..| |].
    + apply foldl_exec_inv; [apply pipeline_inv_exec | apply pipeline_inv_start].
    + apply IH. intros err Herr. apply (Hquiet err).
      destruct (console_exec e
        (foldl (λ p e, exec slugify env output_dir e p)
           (cli_start threads data fs0) sched)) as [more ->].
      apply elem_of_app. by left.
Qed.

Lemma skip_run sched :
  all_match →
  Inv (foldl (λ p e, exec slugify env output_dir e p)
         (cli_start threads data fs0) sched)
  ∧ Skip (foldl (λ p e, exec slugify env output_dir e p)
            (cli_start threads data fs0) sched).
Proof.
  intros Hmatch.
  apply (foldl_exec_inv (λ p, Inv p ∧ Skip p));
    [|split; [apply pipeline_inv_start | apply skip_inv_start]].
  intros e p [HI HS]. split; [by apply pipeline_inv_exec|].
  destruct e as [|i]; cbn; [by apply skip_inv_spawn | by apply skip_inv_step].
Qed.

(** When every file is there, nothing is printed but "already downloaded". *)
Lemma skip_run_quiet sched err :
  all_match →
  ErrorMsg err ∉
    console (world (foldl (λ p e, exec slugify env output_dir e p)
                      (cli_start threads data fs0) sched)).
Proof.
  intros Hmatch Hin. destruct (skip_run sched Hmatch) as [_ [_ _ Hcon _]].
  rewrite Hcon in Hin. apply list_elem_of_omap in Hin as ([i x] & _ & Hx).
  unfold skip_line in Hx. cbn in Hx. by destruct x.
Qed.

End Pipeline.

(** *** The download phase as a whole *)

(** C8.  The [--output] option is never read: whatever its value, the
    download phase goes through the same states, and the only paths it
    opens or writes are [<cwd>/output/<slug>.mp4] for the jobs it was given;
    every other file is as it was. *)
Theorem output_option_is_ignored (slugify : string → string)
    (output1 output2 : option string) cwd threads data env fs0 sched :
  cli slugify output1 cwd threads data env fs0 sched
  = cli slugify output2 cwd threads data env fs0 sched
  ∧ Forall (λ e, ∃ entry, entry ∈ data
                 ∧ fs_path e = cwd ++ ["output"] ++ [slugify (title entry) +:+ ".mp4"])
      (fs_log (world (cli slugify output1 cwd threads data env fs0 sched)))
  ∧ ∀ path,
      (∀ entry, entry ∈ data →
                path ≠ cwd ++ ["output"] ++ [slugify (title entry) +:+ ".mp4"]) →
      fs (world (cli slugify output1 cwd threads data env fs0 sched)) !! path
      = fs0 !! path.
Proof.
  split; [done|].
  assert (pipeline_inv slugify (path_div cwd "output") data fs0 threads
            (cli slugify output1 cwd threads data env fs0 sched)) as HI.
  { unfold cli.
    apply foldl_exec_inv; [apply pipeline_inv_exec | apply pipeline_inv_start]. }
  destruct HI as [_ _ _ _ Hlog Hfs].
  assert (∀ entry, output_video slugify (path_div cwd "output") entry
                   = cwd ++ ["output"] ++ [slugify (title entry) +:+ ".mp4"]) as Hpath.
  { intros entry. unfold output_video, path_div. by rewrite <- app_assoc. }
  split.
  - eapply Forall_impl; [exact Hlog|]. intros e (entry & Hentry & He).
    exists entry. by rewrite <- Hpath.
  - intros path Hpath'. apply Hfs. intros entry Hentry. rewrite Hpath.
    by apply Hpath'.
Qed.

(** C5, as the code has it.  In every run, what has been put on the queue
    is the jobs followed by one sentinel per worker spawned, and [threads]
    workers are spawned in all.  When the stop event is never set and no
    pass has printed an error, a worker has stopped exactly when it has got
    a sentinel: a running worker has got jobs only, a stopped one has got
    jobs and then one sentinel, its last item.  And every worker does stop:
    with all workers spawned, a schedule that gives each of them more passes
    than there are jobs ends with every [join] returned. *)
Theorem sentinel_balance (slugify : string → string) output cwd threads data
    env fs0 sched p :
  p = cli slugify output cwd threads data env fs0 sched →
  ((dequeued (world p)).*2 ++ queue (world p)
   = map Job data ++ replicate (length (workers p)) Sentinel
   ∧ length (workers p) + to_spawn p = Z.to_nat threads)
  ∧ (cancel_at env = None →
     (∀ err, ErrorMsg err ∉ console (world p)) →
     ∀ i w, workers p !! i = Some w →
       ∃ js, got i (world p)
             = map Job js ++ (if is_running w then [] else [Sentinel]))
  ∧ (∀ steps,
       sched = replicate (Z.to_nat threads) Spawn ++ steps →
       (∀ i, i < Z.to_nat threads → length data < passes i steps) →
       joined p = true).
Proof.
  intros ->. unfold cli. split; [|split].
  - assert (pipeline_inv slugify (path_div cwd "output") data fs0 threads
              (foldl (λ p e, exec slugify env (path_div cwd "output") e p)
                 (cli_start threads data fs0) sched)) as [Hitems Hcount _ _ _ _].
    { apply foldl_exec_inv; [apply pipeline_inv_exec | apply pipeline_inv_start]. }
    done.
  - intros Hcancel Hquiet. by apply calm_run.
  - intros steps -> Hfair. by apply fair_schedule_joins.
Qed.

(** Sentinels and workers, run: two workers, [talk] and [live], three
    passes each. *)
Lemma sentinel_balance_witness :
  (∀ i w,
     workers (cli Samples.slug None Samples.cwd 2 [Samples.talk; Samples.live]
                Samples.never_cancelled ∅
                [Spawn; Spawn; Step 0; Step 1; Step 0; Step 1; Step 0; Step 1])
       !! i = Some w →
     ∃ js,
       got i (world (cli Samples.slug None Samples.cwd 2
                       [Samples.talk; Samples.live] Samples.never_cancelled ∅
                       [Spawn; Spawn; Step 0; Step 1; Step 0; Step 1; Step 0; Step 1]))
       = map Job js ++ (if is_running w then [] else [Sentinel]))
  ∧ joined (cli Samples.slug None Samples.cwd 2 [Samples.talk; Samples.live]
              Samples.never_cancelled ∅
              [Spawn; Spawn; Step 0; Step 1; Step 0; Step 1; Step 0; Step 1])
    = true.
Proof.
  destruct (sentinel_balance Samples.slug None Samples.cwd 2
              [Samples.talk; Samples.live] Samples.never_cancelled ∅
              [Spawn; Spawn; Step 0; Step 1; Step 0; Step 1; Step 0; Step 1]
              _ eq_refl) as (_ & Hgot & Hjoin).
  split.
  - apply Hgot; [reflexivity|]. intros err Herr. vm_compute in Herr.
    repeat (apply elem_of_cons in Herr as [Herr|Herr]; [discriminate|]).
    by apply elem_of_nil in Herr.
  - apply (Hjoin [Step 0; Step 1; Step 0; Step 1; Step 0; Step 1]); [reflexivity|].
    intros i Hi. change (Z.to_nat 2) with 2 in Hi.
    destruct i as [|[|i]]; [vm_compute; lia..|lia].
Defined.

(** C5 as the specification words it fails: one worker, one job that
    answers 404, no cancellation.  The worker stops after the failed job; it
    has got no sentinel, and the sentinel is still in the queue. *)
Lemma worker_stops_without_sentinel :
  joined (cli Samples.slug None Samples.cwd 1 [Samples.intro]
            Samples.never_cancelled ∅ [Spawn; Step 0]) = true
  ∧ got 0 (world (cli Samples.slug None Samples.cwd 1 [Samples.intro]
                    Samples.never_cancelled ∅ [Spawn; Step 0]))
    = [Job Samples.intro]
  ∧ queue (world (cli Samples.slug None Samples.cwd 1 [Samples.intro]
                    Samples.never_cancelled ∅ [Spawn; Step 0]))
    = [Sentinel].
Proof. repeat split; vm_compute; reflexivity. Qed.

(** A request that got a response is skipped exactly when the file at the
    target has the announced length; nothing else makes [download_file]
    return through "already downloaded". *)
Lemma download_file_skipped_iff env u p w σ :
  (download_file env u p w σ).1.1 = Skipped
  ↔ ∃ r c, http_get env u = Responds r
           ∧ fs σ !! p = Some c
           ∧ Z.of_nat (length c) = default 0%Z (content_length r).
Proof.
  destruct (http_get env u) as [e|r] eqn:Hget.
  { rewrite (download_file_raises _ _ _ _ _ _ Hget). cbn.
    split; [done|]. by intros (r & c & ? & _). }
  destruct (same_size σ p (default 0%Z (content_length r))) eqn:Hsame.
  - rewrite (download_file_skips _ _ _ _ _ _ Hget Hsame). cbn. split; [|done].
    intros _. unfold same_size in Hsame.
    destruct (fs σ !! p) as [c|] eqn:Hc; [|done].
    apply bool_decide_eq_true in Hsame. by exists r, c.
  - assert ((download_file env u p w σ).1.1 ≠ Skipped) as Hnot.
    { destruct (raise_for_status r) eqn:Hstatus.
      - by rewrite (download_file_http_error _ _ _ _ _ _ Hget Hsame Hstatus).
      - rewrite (download_file_streams _ _ _ _ _ _ Hget Hsame Hstatus).
        destruct (write_chunks _ _ _ _ _) as [o σ'] eqn:Hloop. cbn.
        by apply write_chunks_frame in Hloop as (_ & _ & _ & _ & _ & [-> | ->]). }
    split; [done|]. intros (r' & c & [= <-] & Hc & Hlen).
    unfold same_size in Hsame. rewrite Hc in Hsame.
    apply bool_decide_eq_false in Hsame. done.
Qed.

(** A transfer that is not cancelled runs to its end and leaves the whole
    body at the target. *)
Lemma download_file_completes env u p w σ r :
  cancel_at env = None →
  http_get env u = Responds r →
  same_size σ p (default 0%Z (content_length r)) = false →
  raise_for_status r = false →
  (download_file env u p w σ).1.1 = Completed
  ∧ fs (download_file env u p w σ).2 !! p = Some (concat (body r)).
Proof.
  intros Hnever Hget Hsame Hstatus.
  rewrite (download_file_streams _ _ _ _ _ _ Hget Hsame Hstatus).
  destruct (write_chunks _ _ _ _ _) as [o σ'] eqn:Hloop. cbn [fst snd].
  destruct (write_chunks_spec _ _ _ _ _ _ _ [] Hloop)
    as (k & Hk & _ & Hcancel & Hdone & Hfs & _).
  { cbn. by rewrite lookup_insert_eq. }
  assert (k = length (body r)) as ->.
  { destruct (decide (k = length (body r))) as [|Hne]; [done|].
    destruct Hcancel as [Hstop _]; [lia|].
    unfold stop_is_set in Hstop. by rewrite Hnever in Hstop. }
  split; [by apply Hdone|].
  rewrite Hfs, firstn_all. cbn. by rewrite lookup_insert_eq.
Qed.

(** C4, as the code has it.  Whenever the file at the target has exactly
    the announced length ([0] when no length is announced), [download_file]
    returns at once: it prints that the file is already downloaded and
    neither opens nor writes it; and a call is skipped in no other case,
    whatever the state it is made in, so also in a later run.  Hence a run
    that starts with such a file in place for every job never opens or
    writes a file; and when it is not cancelled, has at least one worker and
    has come to its end, it has printed the line of every job, once for each
    job and in some order, and has counted every job.  A job that was
    downloaded to its end is skipped when it is requested again if and only
    if the length announced is the length of its body. *)
Theorem matching_files_are_skipped (slugify : string → string) output cwd
    threads data env fs0 sched p :
  p = cli slugify output cwd threads data env fs0 sched →
  (∀ u local_file w σ r c,
     http_get env u = Responds r →
     fs σ !! local_file = Some c →
     Z.of_nat (length c) = default 0%Z (content_length r) →
     ∃ w' σ',
       download_file env u local_file w σ = (Skipped, w', σ')
       ∧ fs σ' = fs σ ∧ fs_log σ' = fs_log σ
       ∧ console σ' = console σ ++ [AlreadyDownloaded local_file])
  ∧ (∀ u local_file w σ,
       (download_file env u local_file w σ).1.1 = Skipped →
       ∃ r c, http_get env u = Responds r
              ∧ fs σ !! local_file = Some c
              ∧ Z.of_nat (length c) = default 0%Z (content_length r))
  ∧ (all_match slugify (path_div cwd "output") data fs0 env →
     fs (world p) = fs0
     ∧ fs_log (world p) = []
     ∧ (cancel_at env = None → (0 < threads)%Z → joined p = true →
        console (world p)
        ≡ₚ map (λ entry, AlreadyDownloaded
                           (cwd ++ ["output"] ++ [slugify (title entry) +:+ ".mp4"]))
             data
        ∧ overall_completed (world p) = Z.of_nat (length data)))
  ∧ (∀ u local_file w σ r,
       cancel_at env = None →
       http_get env u = Responds r →
       raise_for_status r = false →
       same_size σ local_file (default 0%Z (content_length r)) = false →
       ∀ w2,
         (download_file env u local_file w2
            (download_file env u local_file w σ).2).1.1 = Skipped
         ↔ default 0%Z (content_length r) = Z.of_nat (length (concat (body r)))).
Proof.
  intros ->. split; [|split; [|split]].
  - intros u local_file w σ r c Hget Hc Hlen.
    eexists _, _. split.
    { apply (download_file_skips _ _ _ _ _ _ Hget).
      unfold same_size. rewrite Hc. by apply bool_decide_eq_true. }
    done.
  - intros u local_file w σ. apply download_file_skipped_iff.
  - intros Hmatch. unfold cli.
    destruct (skip_run slugify env _ _ _ threads sched Hmatch)
      as [HI [Hfs Hlog Hcon Hov]].
    split; [done|]. split; [done|].
    intros Hcancel Hthreads Hjoined.
    assert (calm_inv (foldl (λ p e, exec slugify env (path_div cwd "output") e p)
                        (cli_start threads data fs0) sched)) as Hcalm.
    { apply calm_run; [done|]. intros err. by apply skip_run_quiet. }
    destruct (all_jobs_taken _ _ _ _ _ _ HI Hcalm Hjoined) as [k Hk]; [lia|].
    rewrite Hov, Hcon, (skip_lines_of_all _ _ _ _ k Hk), length_map.
    split; [|done].
    assert (map (λ entry, AlreadyDownloaded
                            (output_video slugify (path_div cwd "output") entry)) data
            = map (λ entry, AlreadyDownloaded
                              (cwd ++ ["output"]
                                 ++ [slugify (title entry) +:+ ".mp4"])) data) as ->;
      [|done].
    apply map_ext. intros entry.
    unfold output_video, path_div. by rewrite <- app_assoc.
  - intros u local_file w σ r Hnever Hget Hstatus Hsame w2.
    destruct (download_file_completes env u local_file w σ r Hnever Hget Hsame
                Hstatus) as [_ Hfile].
    rewrite download_file_skipped_iff. split.
    + intros (r' & c & Hget' & Hc & Hlen). rewrite Hget in Hget'.
      injection Hget' as <-. rewrite Hfile in Hc. by injection Hc as <-.
    + intros Hlen. exists r, (concat (body r)). by rewrite Hlen.
Qed.

(** A run on files already there: [talk] is complete on disk; one
    worker.  And a call that is not skipped: nothing is at the target. *)
Lemma matching_files_are_skipped_witness :
  (∃ w' σ',
     download_file Samples.never_cancelled "http://h/talk.mp4"
       ["home"; "user"; "output"; "talk.mp4"] Samples.worker0
       (Samples.world_of Samples.fs_talk [Samples.talk])
     = (Skipped, w', σ')
     ∧ fs σ' = Samples.fs_talk ∧ fs_log σ' = []
     ∧ console σ' = [AlreadyDownloaded ["home"; "user"; "output"; "talk.mp4"]])
  ∧ (∃ r c, Samples.remote "http://h/talk.mp4" = Responds r
            ∧ Samples.fs_talk !! ["home"; "user"; "output"; "talk.mp4"] = Some c
            ∧ Z.of_nat (length c) = default 0%Z (content_length r))
  ∧ fs (world (cli Samples.slug None Samples.cwd 1 [Samples.talk]
                 Samples.never_cancelled Samples.fs_talk [Spawn; Step 0; Step 0]))
    = Samples.fs_talk
  ∧ fs_log (world (cli Samples.slug None Samples.cwd 1 [Samples.talk]
                     Samples.never_cancelled Samples.fs_talk [Spawn; Step 0; Step 0]))
    = []
  ∧ console (world (cli Samples.slug None Samples.cwd 1 [Samples.talk]
                      Samples.never_cancelled Samples.fs_talk [Spawn; Step 0; Step 0]))
    ≡ₚ [AlreadyDownloaded ["home"; "user"; "output"; "talk.mp4"]]
  ∧ overall_completed
      (world (cli Samples.slug None Samples.cwd 1 [Samples.talk]
                Samples.never_cancelled Samples.fs_talk [Spawn; Step 0; Step 0]))
    = 1%Z
  ∧ ((download_file Samples.never_cancelled "http://h/live.mp4"
        ["home"; "user"; "output"; "live.mp4"] Samples.worker0
        (download_file Samples.never_cancelled "http://h/live.mp4"
           ["home"; "user"; "output"; "live.mp4"] Samples.worker0
           (Samples.world_of ∅ [Samples.live])).2).1.1 = Skipped
     ↔ default 0%Z None = Z.of_nat (length (concat [[Samples.b1]]))).
Proof.
  destruct (matching_files_are_skipped Samples.slug None Samples.cwd 1
              [Samples.talk] Samples.never_cancelled Samples.fs_talk
              [Spawn; Step 0; Step 0] _ eq_refl) as (Hone & Honly & Hall & Hagain).
  destruct Hall as (Hfs & Hlog & Hend).
  { intros entry Hentry. apply list_elem_of_singleton in Hentry as ->.
    eexists _, _. repeat split; reflexivity. }
  destruct Hend as [Hcon Hov]; [reflexivity | lia | vm_compute; reflexivity |].
  split.
  { apply (Hone "http://h/talk.mp4" _ Samples.worker0
             (Samples.world_of Samples.fs_talk [Samples.talk])
             {| status_code := 200; content_length := Some 3%Z;
                body := [[Samples.b1; Samples.b2]; [Samples.b3]] |}
             [Samples.b1; Samples.b2; Samples.b3]); reflexivity. }
  split.
  { apply (Honly "http://h/talk.mp4" ["home"; "user"; "output"; "talk.mp4"]
             Samples.worker0 (Samples.world_of Samples.fs_talk [Samples.talk])).
    reflexivity. }
  split; [done|]. split; [done|]. split; [done|]. split; [done|].
  apply (Hagain "http://h/live.mp4" ["home"; "user"; "output"; "live.mp4"]
           Samples.worker0 (Samples.world_of ∅ [Samples.live])
           {| status_code := 200; content_length := None;
              body := [[Samples.b1]] |}); reflexivity.
Defined.

(** C4 as the specification words it fails, in its last part: [live] is
    served without a [Content-Length].  The first run downloads its one
    byte; the second run, on the file system the first one left, compares
    the file's size 1 with 0, skips nothing and writes the byte again. *)
Lemma second_run_downloads_again :
  joined (cli Samples.slug None Samples.cwd 1 [Samples.live]
            Samples.never_cancelled ∅ [Spawn; Step 0; Step 0]) = true
  ∧ fs (world (cli Samples.slug None Samples.cwd 1 [Samples.live]
                 Samples.never_cancelled ∅ [Spawn; Step 0; Step 0]))
      !! ["home"; "user"; "output"; "live.mp4"] = Some [Samples.b1]
  ∧ joined (cli Samples.slug None Samples.cwd 1 [Samples.live]
              Samples.never_cancelled
              (fs (world (cli Samples.slug None Samples.cwd 1 [Samples.live]
                            Samples.never_cancelled ∅ [Spawn; Step 0; Step 0])))
              [Spawn; Step 0; Step 0]) = true
  ∧ console (world (cli Samples.slug None Samples.cwd 1 [Samples.live]
              Samples.never_cancelled
              (fs (world (cli Samples.slug None Samples.cwd 1 [Samples.live]
                            Samples.never_cancelled ∅ [Spawn; Step 0; Step 0])))
              [Spawn; Step 0; Step 0])) = []
  ∧ fs_log (world (cli Samples.slug None Samples.cwd 1 [Samples.live]
              Samples.never_cancelled
              (fs (world (cli Samples.slug None Samples.cwd 1 [Samples.live]
                            Samples.never_cancelled ∅ [Spawn; Step 0; Step 0])))
              [Spawn; Step 0; Step 0]))
    = [Opened 1 ["home"; "user"; "output"; "live.mp4"];
       Wrote 2 ["home"; "user"; "output"; "live.mp4"] [Samples.b1]].
Proof. repeat split; vm_compute; reflexivity. Qed.

End DownloadProps.

(** ** Properties of the event client *)
Module EventBriteProps.
Import EventBrite.

Section Server.

Context {Ev : Type}.
Variable get_showmore : string -> Z -> Z -> EventKind -> Result (list Ev * bool).
Variables (org_id : string) (pagesize : Z) (type : EventKind).

(** From page [k] on, with [m] pages left up to the last one. *)
Lemma get_events_while_pages n :
  last_page get_showmore org_id pagesize type n →
  ∀ m k events fuel,
    k + m = n + 1 → 1 ≤ k → 1 ≤ m → m ≤ fuel →
    get_events_while get_showmore fuel org_id type pagesize events (Z.of_nat k) true
    = Some (Ok (events
                ++ concat (map (λ j, page_events get_showmore org_id pagesize type
                                       (Z.of_nat j)) (seq k m)))).
Proof.
  intros (Hn & Hmore & dlast & Hlast).
  induction m as [|m IH]; intros k events fuel Hkm Hk Hm Hfuel; [lia|].
  destruct fuel as [|fuel]; [lia|]. cbn [get_events_while seq map concat].
  unfold page_events at 1.
  destruct (decide (m = 0)) as [->|Hm0].
  - replace k with n by lia. rewrite Hlast. cbn. rewrite app_nil_r.
    by destruct fuel.
  - destruct (Hmore k) as [data Hdata]; [lia|]. rewrite Hdata.
    replace (Z.of_nat k + 1)%Z with (Z.of_nat (S k)) by lia.
    rewrite (IH (S k)) by lia. by rewrite app_assoc.
Qed.

Lemma get_events_pages n fuel :
  last_page get_showmore org_id pagesize type n →
  n ≤ fuel →
  get_events get_showmore fuel org_id type pagesize
  = Some (Ok (pages_upto get_showmore org_id pagesize type n)).
Proof.
  intros Hlast Hfuel. unfold get_events, pages_upto.
  change 1%Z with (Z.of_nat 1).
  rewrite (get_events_while_pages n Hlast n 1) by (destruct Hlast; lia).
  done.
Qed.

End Server.

(** C9.  When the server reports no next page for the first time on page
    [nf] of the upcoming events and on page [np] of the past ones,
    [get_all_events] returns, given enough fuel for that many requests, the
    events of pages [1 .. nf] of "future" followed by those of pages
    [1 .. np] of "past", each in the order served. *)
Theorem get_all_events_concatenates {Ev : Type}
    (get_showmore : string -> Z -> Z -> EventKind -> Result (list Ev * bool))
    org_id pagesize nf np fuel :
  last_page get_showmore org_id pagesize future nf →
  last_page get_showmore org_id pagesize past np →
  nf ≤ fuel → np ≤ fuel →
  get_all_events get_showmore fuel org_id pagesize
  = Some (Ok (pages_upto get_showmore org_id pagesize future nf
              ++ pages_upto get_showmore org_id pagesize past np)).
Proof.
  intros Hf Hp Hnf Hnp. unfold get_all_events, get_future_events, get_past_events.
  rewrite (get_events_pages get_showmore org_id pagesize future nf fuel Hf Hnf).
  rewrite (get_events_pages get_showmore org_id pagesize past np fuel Hp Hnp).
  done.
Qed.

(** The two listings, fetched from the sample server. *)
Lemma get_all_events_concatenates_witness :
  get_all_events Samples.showmore 5 "org" 20 = Some (Ok [1; 2; 3; 4]).
Proof.
  apply (get_all_events_concatenates Samples.showmore "org" 20%Z 2 1 5).
  - split; [lia|]. split.
    + intros k Hk. assert (k = 1) as -> by lia. by eexists.
    + by eexists.
  - split; [lia|]. split.
    + intros k Hk. lia.
    + by eexists.
  - lia.
  - lia.
Defined.

End EventBriteProps.

(** ** Properties of the webinar client *)
Module StreamYardProps.
Import StreamYard.

Section Fields.

Variables (email first_name last_name : string).

Local Abbreviation add := (add_field email first_name last_name).
Local Abbreviation value := (field_value email first_name last_name).

Lemma add_field_other acc field k :
  k ≠ id field → add acc field !! k = acc !! k.
Proof.
  intros Hk. unfold add_field.
  repeat case_match; try done; by rewrite lookup_insert_ne.
Qed.

Lemma add_field_this acc field :
  add acc field !! id field
  = match value field with Some v => Some v | None => acc !! id field end.
Proof.
  unfold add_field, field_value.
  destruct (isRequired field); cbn; [|done].
  repeat case_match; try done; by rewrite lookup_insert_eq.
Qed.

Lemma foldl_add_other fields : ∀ acc k,
  k ∉ map id fields → foldl add acc fields !! k = acc !! k.
Proof.
  induction fields as [|f fields IH]; intros acc k Hk; [done|].
  cbn [foldl]. rewrite IH.
  - apply add_field_other. intros ->. apply Hk. cbn. apply list_elem_of_here.
  - intros Hin. apply Hk. cbn. by apply list_elem_of_further.
Qed.

Lemma foldl_add_this fields : ∀ acc field,
  NoDup (map id fields) → field ∈ fields →
  foldl add acc fields !! id field
  = match value field with Some v => Some v | None => acc !! id field end.
Proof.
  induction fields as [|f fields IH]; intros acc field Hnd Hin.
  { by apply elem_of_nil in Hin. }
  cbn [map] in Hnd. apply NoDup_cons in Hnd as [Hf Hnd]. cbn [foldl].
  apply elem_of_cons in Hin as [->|Hin].
  - rewrite foldl_add_other by done. apply add_field_this.
  - rewrite IH by done. destruct (value field); [done|].
    apply add_field_other. intros Heq. apply Hf. rewrite <- Heq.
    apply list_elem_of_fmap. eauto.
Qed.

(** With distinct field ids, the value submitted for a field is the one the
    loop assigns for it. *)
Lemma fields_values_lookup fields field :
  NoDup (map id fields) → field ∈ fields →
  fields_values fields email first_name last_name !! id field = value field.
Proof.
  intros Hnd Hin. unfold fields_values. rewrite foldl_add_this by done.
  by destruct (value field).
Qed.

(** Whatever the ids: a submitted value always comes from a required field
    of one of the three types. *)
Lemma fields_values_sound fields k v :
  fields_values fields email first_name last_name !! k = Some v →
  ∃ field, field ∈ fields ∧ id field = k ∧ value field = Some v.
Proof.
  unfold fields_values.
  assert (∀ acc, foldl add acc fields !! k = Some v →
                 acc !! k = Some v
                 ∨ ∃ field, field ∈ fields ∧ id field = k ∧ value field = Some v)
    as Hgen.
  { induction fields as [|f fields IH]; intros acc Hv; [by left|].
    cbn [foldl] in Hv. destruct (IH _ Hv) as [Hacc|(field & Hin & Hid & Hval)].
    - destruct (decide (k = id f)) as [->|Hne].
      + rewrite add_field_this in Hacc. destruct (value f) eqn:Hf.
        * right. exists f. split; [apply list_elem_of_here|]. by rewrite Hf.
        * by left.
      + rewrite add_field_other in Hacc by done. by left.
    - right. exists field. split; [by apply list_elem_of_further|done]. }
  intros Hv. destruct (Hgen ∅ Hv) as [Hempty|H]; [|done].
  by rewrite lookup_empty in Hempty.
Qed.

Lemma field_value_is_Some field :
  is_Some (value field)
  ↔ isRequired field = true
    ∧ (type field = "email" ∨ type field = "firstName" ∨ type field = "lastName").
Proof.
  unfold field_value. destruct (isRequired field); cbn.
  - destruct (String.eqb_spec (type field) "email");
      [split; [intros _; auto | eauto]|].
    destruct (String.eqb_spec (type field) "firstName");
      [split; [intros _; auto | eauto]|].
    destruct (String.eqb_spec (type field) "lastName");
      [split; [intros _; auto | eauto]|].
    split; [by intros [? ?]|]. intros [_ [?|[?|?]]]; done.
  - split; [by intros [? ?]|]. by intros [? _].
Qed.

End Fields.

(** C10, as the code has it.  The values are keyed by field id.  When the
    fields of the first registration field definition have distinct ids,
    [register_webinar] posts a value for a field if and only if the field is
    required and of type "email", "firstName" or "lastName"; the value is
    then the e-mail address, the first name or the last name given,
    according to the type. *)
Theorem register_webinar_field_values url webinar_data email first_name
    last_name d rest :
  registrationFieldDefinitions webinar_data = d :: rest →
  NoDup (map id (fields_data d)) →
  ∃ registration_url registration_data,
    registration_request url webinar_data email first_name last_name
    = Some (registration_url, registration_data)
    ∧ (∀ A (post : string → RegistrationData → EventBrite.Result A),
         register_webinar post url webinar_data email first_name last_name
         = post registration_url registration_data)
    ∧ definitionId registration_data = def_id d
    ∧ ∀ field, field ∈ fields_data d →
        (is_Some (values registration_data !! id field)
         ↔ isRequired field = true
           ∧ (type field = "email" ∨ type field = "firstName"
              ∨ type field = "lastName"))
        ∧ (isRequired field = true → type field = "email" →
           values registration_data !! id field = Some email)
        ∧ (isRequired field = true → type field = "firstName" →
           values registration_data !! id field = Some first_name)
        ∧ (isRequired field = true → type field = "lastName" →
           values registration_data !! id field = Some last_name).
Proof.
  intros Hdefs Hnd. unfold register_webinar, registration_request. rewrite Hdefs.
  eexists _, _. split; [done|]. split; [done|]. split; [done|].
  intros field Hin. cbn [values].
  rewrite (fields_values_lookup _ _ _ _ _ Hnd Hin).
  split; [apply field_value_is_Some|].
  unfold field_value.
  split; [|split]; intros -> ->; done.
Qed.

(** The values posted for the sample form. *)
Lemma register_webinar_field_values_witness :
  ∃ registration_url registration_data,
    registration_request "https://streamyard.com/watch/abc123" Samples.form
      "a@b.c" "Ada" "Byron"
    = Some (registration_url, registration_data)
    ∧ registration_url
      = "https://oa-api.streamyard.com/api/public/webinars/abc123/registrations"
    ∧ values registration_data !! "f1" = Some "a@b.c"
    ∧ values registration_data !! "f2" = Some "Ada"
    ∧ values registration_data !! "f3" = None
    ∧ values registration_data !! "f4" = None
    ∧ values registration_data !! "f5" = None.
Proof.
  destruct (register_webinar_field_values "https://streamyard.com/watch/abc123"
              Samples.form "a@b.c" "Ada" "Byron" _ [] eq_refl)
    as (u & body & Hreq & _ & _ & Hfields).
  { cbn. repeat (apply NoDup_cons; split; [by vm_compute; intros H; repeat (apply elem_of_cons in H as [H|H]; [discriminate|]); apply elem_of_nil in H |]).
    apply NoDup_nil_2. }
  exists u, body. split; [done|].
  split; [by injection Hreq as <- _|].
  injection Hreq as _ <-. vm_compute. auto 10.
Defined.

(** C10 as the specification words it fails, for fields that share an
    id: the first field is required and of type "email", but what is posted
    under its id is the first name, assigned for the second field; and the
    third field, which is not required, has a value posted under its id. *)
Lemma repeated_id_takes_the_later_value :
  ∃ registration_url registration_data,
    registration_request "https://streamyard.com/watch/abc123"
      {| registrationFieldDefinitions :=
           [ {| def_id := "def1";
                fields_data :=
                  [ {| id := "f"; type := "email"; isRequired := true |};
                    {| id := "f"; type := "firstName"; isRequired := true |};
                    {| id := "f"; type := "company"; isRequired := false |} ] |} ] |}
      "a@b.c" "Ada" "Byron"
    = Some (registration_url, registration_data)
    ∧ values registration_data !! "f" = Some "Ada"
    ∧ values registration_data !! "f" ≠ Some "a@b.c"
    ∧ size (values registration_data) = 1.
Proof.
  eexists _, _. split; [reflexivity|]. cbn [values].
  split; [by vm_compute|]. split; [by vm_compute|]. by vm_compute.
Qed.

End StreamYardProps.

(** ** Properties of [crop_string] *)
Module TextProps.
Import Text.

Section Sequences.

Context {A : Type}.
Implicit Types s ellipsis : list A.

Lemma crop_string_fits s N ellipsis end_ :
  (Z.of_nat (length s) ≤ N - Z.of_nat (length ellipsis))%Z →
  crop_string s N ellipsis end_ = s.
Proof.
  intros Hfits. unfold crop_string.
  destruct (Z.ltb_spec (N - Z.of_nat (length ellipsis)) (Z.of_nat (length s)));
    [lia | done].
Qed.

(** X1.  When [N] exceeds the length of the ellipsis, the result never has
    more than [N] characters, and it has fewer only when it is the string
    itself, returned as it is because it fits in [N - len(ellipsis)]
    characters. *)
Theorem crop_string_within s N ellipsis end_ :
  (Z.of_nat (length ellipsis) < N)%Z →
  (Z.of_nat (length (crop_string s N ellipsis end_)) ≤ N)%Z
  ∧ ((Z.of_nat (length (crop_string s N ellipsis end_)) < N)%Z →
     crop_string s N ellipsis end_ = s)
  ∧ ((Z.of_nat (length s) ≤ N - Z.of_nat (length ellipsis))%Z →
     crop_string s N ellipsis end_ = s).
Proof.
  intros HN. unfold crop_string, slice_from.
  destruct (Z.ltb_spec (N - Z.of_nat (length ellipsis)) (Z.of_nat (length s))).
  - destruct (Z.ltb_spec (- (N - Z.of_nat (length ellipsis))) 0); [|lia].
    assert (Z.of_nat (length (drop (Z.to_nat (Z.of_nat (length s)
                                        + - (N - Z.of_nat (length ellipsis)))) s))
            = (N - Z.of_nat (length ellipsis))%Z) as Hlen.
    { rewrite length_drop. lia. }
    split; [|split]; destruct end_; rewrite ?length_app; lia.
  - split; [lia|]. by split.
Qed.

(** X2.  When [N] exceeds the length of the ellipsis and the string does
    not fit, the result has exactly [N] characters: the ellipsis and the
    last [N - len(ellipsis)] characters of the string.  With [end] the
    ellipsis comes after them, otherwise before; in both cases it is the
    head of the string that is dropped. *)
Theorem crop_string_crops s N ellipsis :
  (0 < N - Z.of_nat (length ellipsis) < Z.of_nat (length s))%Z →
  ∃ dropped kept,
    s = dropped ++ kept
    ∧ Z.of_nat (length kept) = (N - Z.of_nat (length ellipsis))%Z
    ∧ crop_string s N ellipsis false = ellipsis ++ kept
    ∧ crop_string s N ellipsis true = kept ++ ellipsis
    ∧ ∀ end_, Z.of_nat (length (crop_string s N ellipsis end_)) = N.
Proof.
  intros Hk. unfold crop_string, slice_from.
  destruct (Z.ltb_spec (N - Z.of_nat (length ellipsis)) (Z.of_nat (length s)));
    [|lia].
  destruct (Z.ltb_spec (- (N - Z.of_nat (length ellipsis))) 0); [|lia].
  set (i := Z.to_nat (Z.of_nat (length s) + - (N - Z.of_nat (length ellipsis)))).
  exists (take i s), (drop i s).
  assert (Z.of_nat (length (drop i s)) = (N - Z.of_nat (length ellipsis))%Z) as Hlen.
  { rewrite length_drop. unfold i. lia. }
  split; [by rewrite take_drop|]. split; [done|]. split; [done|]. split; [done|].
  intros [|]; rewrite length_app; lia.
Qed.

(** X3.  When [N] does not exceed the length of the ellipsis the result is
    longer than [N] (an empty string with [N = len(ellipsis)] apart, which
    is returned empty): with [N = len(ellipsis)] nothing at all is dropped
    from a non-empty string, since [s[-0:]] is the whole of it. *)
Theorem crop_string_too_narrow s N ellipsis end_ :
  (N ≤ Z.of_nat (length ellipsis))%Z →
  s ≠ [] ∨ (N < Z.of_nat (length ellipsis))%Z →
  (N < Z.of_nat (length (crop_string s N ellipsis end_)))%Z
  ∧ (N = Z.of_nat (length ellipsis) →
     crop_string s N ellipsis false = ellipsis ++ s
     ∧ crop_string s N ellipsis true = s ++ ellipsis).
Proof.
  intros HN Hs.
  assert (N - Z.of_nat (length ellipsis) < Z.of_nat (length s))%Z as Hcrop.
  { destruct Hs as [Hs|Hs]; [|lia]. destruct s; [done|]. cbn. lia. }
  unfold crop_string, slice_from.
  destruct (Z.ltb_spec (N - Z.of_nat (length ellipsis)) (Z.of_nat (length s)));
    [|lia].
  destruct (Z.ltb_spec (- (N - Z.of_nat (length ellipsis))) 0); [lia|].
  split.
  - assert (s ≠ [] → 0 < length s) as Hpos by (destruct s; [done | cbn; lia]).
    destruct end_; rewrite length_app, length_drop; destruct Hs; lia.
  - intros ->. by replace (- (Z.of_nat (length ellipsis) - Z.of_nat (length ellipsis)))%Z
      with 0%Z by lia.
Qed.

End Sequences.

Lemma crop_string_within_witness :
  (Z.of_nat (length (crop_string [1; 2; 3; 4; 5; 6] 4 [0] false)) ≤ 4)%Z
  ∧ ((Z.of_nat (length (crop_string [1; 2; 3; 4; 5; 6] 4 [0] false)) < 4)%Z →
     crop_string [1; 2; 3; 4; 5; 6] 4 [0] false = [1; 2; 3; 4; 5; 6])
  ∧ ((Z.of_nat (length [1; 2; 3; 4; 5; 6]) ≤ 4 - Z.of_nat (length [0]))%Z →
     crop_string [1; 2; 3; 4; 5; 6] 4 [0] false = [1; 2; 3; 4; 5; 6]).
Proof. apply (crop_string_within [1; 2; 3; 4; 5; 6] 4 [0] false). cbn. lia. Defined.

Lemma crop_string_crops_witness :
  ∃ dropped kept,
    [1; 2; 3; 4; 5; 6] = dropped ++ kept
    ∧ Z.of_nat (length kept) = (4 - Z.of_nat (length [0]))%Z
    ∧ crop_string [1; 2; 3; 4; 5; 6] 4 [0] false = [0] ++ kept
    ∧ crop_string [1; 2; 3; 4; 5; 6] 4 [0] true = kept ++ [0]
    ∧ ∀ end_, Z.of_nat (length (crop_string [1; 2; 3; 4; 5; 6] 4 [0] end_)) = 4%Z.
Proof. apply (crop_string_crops [1; 2; 3; 4; 5; 6] 4 [0]). cbn. lia. Defined.

Lemma crop_string_too_narrow_witness :
  (1 < Z.of_nat (length (crop_string [7; 8] 1 [0] false)))%Z
  ∧ (1%Z = Z.of_nat (length [0]) →
     crop_string [7; 8] 1 [0] false = [0] ++ [7; 8]
     ∧ crop_string [7; 8] 1 [0] true = [7; 8] ++ [0]).
Proof. apply (crop_string_too_narrow [7; 8] 1 [0] false); [cbn; lia | by left]. Defined.

End TextProps.

(** ** More on the event client: errors and listings without end *)
Module EventBriteExtra.
Import EventBrite.

Section Server.

Context {Ev : Type}.
Variable get_showmore : string -> Z -> Z -> EventKind -> Result (list Ev * bool).
Variables (org_id : string) (pagesize : Z).

Lemma get_events_while_raises type k e :
  (∀ j, 1 ≤ j < k →
        ∃ data, get_showmore org_id (Z.of_nat j) pagesize type = Ok (data, true)) →
  get_showmore org_id (Z.of_nat k) pagesize type = Err e →
  ∀ m j events fuel,
    j + m = k → 1 ≤ j → m < fuel →
    get_events_while get_showmore fuel org_id type pagesize events (Z.of_nat j) true
    = Some (Err e).
Proof.
  intros Hmore Hfail.
  induction m as [|m IH]; intros j events fuel Hjm Hj Hfuel;
    (destruct fuel as [|fuel]; [lia|]); cbn [get_events_while].
  - replace j with k by lia. by rewrite Hfail.
  - destruct (Hmore j) as [data Hdata]; [lia|]. rewrite Hdata.
    replace (Z.of_nat j + 1)%Z with (Z.of_nat (S j)) by lia.
    apply IH; lia.
Qed.

Lemma get_events_raises type k e fuel :
  1 ≤ k →
  (∀ j, 1 ≤ j < k →
        ∃ data, get_showmore org_id (Z.of_nat j) pagesize type = Ok (data, true)) →
  get_showmore org_id (Z.of_nat k) pagesize type = Err e →
  k ≤ fuel →
  get_events get_showmore fuel org_id type pagesize = Some (Err e).
Proof.
  intros Hk Hmore Hfail Hfuel. unfold get_events. change 1%Z with (Z.of_nat 1).
  apply (get_events_while_raises type k e Hmore Hfail (k - 1) 1); lia.
Qed.

Lemma get_events_while_endless type :
  (∀ page, (1 ≤ page)%Z →
           ∃ data, get_showmore org_id page pagesize type = Ok (data, true)) →
  ∀ fuel events page,
    (1 ≤ page)%Z →
    get_events_while get_showmore fuel org_id type pagesize events page true = None.
Proof.
  intros Hmore. induction fuel as [|fuel IH]; intros events page Hpage; [done|].
  cbn [get_events_while]. destruct (Hmore page Hpage) as [data ->].
  apply IH. lia.
Qed.

End Server.

(** X4.  When a request for a page raises, after pages that all announced a
    next one, [get_all_events] raises that same error and the events of the
    earlier pages are lost: for a page of the upcoming events whatever the
    past ones are, and for a page of the past events although the upcoming
    ones were all fetched. *)
Theorem get_all_events_raises {Ev : Type}
    (get_showmore : string -> Z -> Z -> EventKind -> Result (list Ev * bool))
    org_id pagesize type k e fuel :
  1 ≤ k ≤ fuel →
  (∀ j, 1 ≤ j < k →
        ∃ data, get_showmore org_id (Z.of_nat j) pagesize type = Ok (data, true)) →
  get_showmore org_id (Z.of_nat k) pagesize type = Err e →
  (type = past → ∃ nf, nf ≤ fuel ∧ last_page get_showmore org_id pagesize future nf) →
  get_events get_showmore fuel org_id type pagesize = Some (Err e)
  ∧ get_all_events get_showmore fuel org_id pagesize = Some (Err e).
Proof.
  intros [Hk Hfuel] Hmore Hfail Hfuture.
  pose proof (get_events_raises get_showmore org_id pagesize type k e fuel
                Hk Hmore Hfail Hfuel) as Hraise.
  split; [done|]. unfold get_all_events, get_future_events, get_past_events.
  destruct type.
  - destruct (Hfuture eq_refl) as (nf & Hnf & Hlast).
    rewrite (EventBriteProps.get_events_pages get_showmore org_id pagesize
               future nf fuel Hlast Hnf).
    by rewrite Hraise.
  - by rewrite Hraise.
Qed.

(** X5.  There is no bound on the number of pages: against a server that
    announces a next page on every page, [get_events] and [get_all_events]
    never return, however many requests they are allowed. *)
Theorem get_events_never_returns {Ev : Type}
    (get_showmore : string -> Z -> Z -> EventKind -> Result (list Ev * bool))
    org_id pagesize :
  (∀ page, (1 ≤ page)%Z →
           ∃ data, get_showmore org_id page pagesize future = Ok (data, true)) →
  ∀ fuel,
    get_events get_showmore fuel org_id future pagesize = None
    ∧ get_all_events get_showmore fuel org_id pagesize = None.
Proof.
  intros Hmore fuel.
  assert (get_events get_showmore fuel org_id future pagesize = None) as Hnone.
  { unfold get_events. by apply get_events_while_endless. }
  split; [done|]. unfold get_all_events, get_future_events. by rewrite Hnone.
Qed.

Lemma get_all_events_raises_witness :
  get_events Samples.showmore_broken 3 "org" future 20 = Some (Err "HTTPError")
  ∧ get_all_events Samples.showmore_broken 3 "org" 20 = Some (Err "HTTPError").
Proof.
  apply (get_all_events_raises Samples.showmore_broken "org" 20%Z future 2
           "HTTPError" 3).
  - lia.
  - intros j Hj. assert (j = 1) as -> by lia. by eexists.
  - reflexivity.
  - discriminate.
Defined.

Lemma get_events_never_returns_witness :
  get_events Samples.showmore_endless 1000 "org" future 20 = None
  ∧ get_all_events Samples.showmore_endless 1000 "org" 20 = None.
Proof.
  refine (get_events_never_returns Samples.showmore_endless "org" 20%Z _ 1000).
  intros page _. by eexists.
Defined.

End EventBriteExtra.

(** ** More on the webinar client: the webinar id, and forms with repeated ids *)
Module StreamYardExtra.
Import StreamYard.

Local Abbreviation chars := String.list_ascii_of_string.

Lemma chars_app (a b : string) : chars (a +:+ b) = chars a ++ chars b.
Proof. induction a as [|c a IH]; [done|]. simpl. by f_equal. Qed.

Lemma append_assoc (a b c : string) : (a +:+ b) +:+ c = a +:+ (b +:+ c).
Proof.
  induction a as [|x a IH]; [done|].
  change (String x ((a +:+ b) +:+ c) = String x (a +:+ (b +:+ c))). by f_equal.
Qed.

Lemma append_nil_r (a : string) : a +:+ "" = a.
Proof.
  induction a as [|x a IH]; [done|].
  change (String x (a +:+ "") = String x a). by f_equal.
Qed.

Lemma last_segment_from_plain (t : string) : ∀ acc,
  "/"%char ∉ chars t → last_segment_from acc t = acc +:+ t.
Proof.
  induction t as [|c t IH]; intros acc Ht; cbn.
  - by rewrite append_nil_r.
  - destruct (Ascii.eqb_spec c "/") as [->|Hc].
    + exfalso. apply Ht. cbn. apply list_elem_of_here.
    + rewrite IH, append_assoc; [done|].
      intros Hin. apply Ht. cbn. by apply list_elem_of_further.
Qed.

Lemma last_segment_from_slash (p t : string) : ∀ acc,
  last_segment_from acc (p +:+ "/" +:+ t) = last_segment_from "" t.
Proof.
  induction p as [|c p IH]; intros acc.
  - by change ("" +:+ "/" +:+ t) with (String "/" t).
  - change (String c p +:+ "/" +:+ t) with (String c (p +:+ "/" +:+ t)).
    cbn [last_segment_from]. destruct (Ascii.eqb c "/"); apply IH.
Qed.

Lemma last_segment_from_clean (s : string) : ∀ acc,
  "/"%char ∉ chars acc → "/"%char ∉ chars (last_segment_from acc s).
Proof.
  induction s as [|c s IH]; intros acc Hacc; cbn; [done|].
  destruct (Ascii.eqb_spec c "/") as [->|Hc].
  - apply IH. cbn. apply not_elem_of_nil.
  - apply IH. rewrite chars_app. cbn. intros Hin.
    apply elem_of_app in Hin as [Hin|Hin]; [done|].
    apply list_elem_of_singleton in Hin. congruence.
Qed.

(** X6.  The webinar id taken from a URL, [url.split("/")[-1]], contains
    no ["/"]; it is what follows the last ["/"] of the URL, the whole URL
    when it has none, and so the empty string for a URL that ends in one. *)
Theorem last_segment_is_after_last_slash (url : string) :
  ("/"%char ∉ chars (last_segment url))
  ∧ (∀ p t, url = p +:+ "/" +:+ t → "/"%char ∉ chars t → last_segment url = t)
  ∧ ("/"%char ∉ chars url → last_segment url = url)
  ∧ (∀ p, url = p +:+ "/" → last_segment url = "").
Proof.
  unfold last_segment. split; [|split; [|split]].
  - apply last_segment_from_clean. cbn. apply not_elem_of_nil.
  - intros p t -> Ht. rewrite last_segment_from_slash.
    by rewrite last_segment_from_plain.
  - intros Hurl. by rewrite last_segment_from_plain.
  - intros p ->. by rewrite (last_segment_from_slash p "").
Qed.

Section Fields.

Variables (email first_name last_name : string).

Local Abbreviation add := (add_field email first_name last_name).
Local Abbreviation value := (field_value email first_name last_name).

Lemma foldl_add_silent (after : list Field) k : ∀ acc,
  (∀ g, g ∈ after → id g = k → value g = None) →
  foldl add acc after !! k = acc !! k.
Proof.
  induction after as [|g after IH]; intros acc Hsilent; [done|].
  cbn [foldl]. rewrite IH.
  - destruct (decide (k = id g)) as [->|Hne].
    + rewrite StreamYardProps.add_field_this.
      by rewrite (Hsilent g (list_elem_of_here _ _) eq_refl).
    + by apply StreamYardProps.add_field_other.
  - intros g' Hg'. apply Hsilent. by apply list_elem_of_further.
Qed.

Lemma field_value_cases field v :
  value field = Some v →
  isRequired field = true
  ∧ ((type field = "email" ∧ v = email)
     ∨ (type field = "firstName" ∧ v = first_name)
     ∨ (type field = "lastName" ∧ v = last_name)).
Proof.
  unfold field_value. destruct (isRequired field); cbn; [|done].
  destruct (String.eqb_spec (type field) "email"); [intros [= <-]; auto|].
  destruct (String.eqb_spec (type field) "firstName"); [intros [= <-]; auto|].
  destruct (String.eqb_spec (type field) "lastName"); [intros [= <-]; auto|].
  done.
Qed.

End Fields.

(** X7.  Whatever the ids of the form's fields, repeated or not: every
    value submitted is keyed by the id of a required field of type "email",
    "firstName" or "lastName" and is the matching argument; and when several
    fields share an id, the last of them that is assigned a value decides
    what is submitted under that id. *)
Theorem fields_values_repeated_ids fields email first_name last_name :
  (∀ k v,
     fields_values fields email first_name last_name !! k = Some v →
     ∃ field, field ∈ fields ∧ id field = k ∧ isRequired field = true
       ∧ ((type field = "email" ∧ v = email)
          ∨ (type field = "firstName" ∧ v = first_name)
          ∨ (type field = "lastName" ∧ v = last_name)))
  ∧ (∀ before field after v,
       fields = before ++ field :: after →
       field_value email first_name last_name field = Some v →
       (∀ g, g ∈ after → id g = id field →
             field_value email first_name last_name g = None) →
       fields_values fields email first_name last_name !! id field = Some v).
Proof.
  split.
  - intros k v Hv.
    destruct (StreamYardProps.fields_values_sound _ _ _ _ _ _ Hv)
      as (field & Hin & Hid & Hval).
    exists field. split; [done|]. split; [done|]. by apply field_value_cases.
  - intros before field after v -> Hval Hsilent. unfold fields_values.
    rewrite foldl_app. cbn [foldl].
    rewrite foldl_add_silent by done.
    by rewrite StreamYardProps.add_field_this, Hval.
Qed.

(** Two fields with the same id: the later, required one wins over the
    earlier; a later one that is not required changes nothing. *)
Lemma fields_values_repeated_ids_witness :
  fields_values
    [ {| id := "f"; type := "email"; isRequired := true |};
      {| id := "f"; type := "lastName"; isRequired := true |};
      {| id := "f"; type := "firstName"; isRequired := false |} ]
    "a@b.c" "Ada" "Byron" !! "f" = Some "Byron".
Proof.
  apply (proj2 (fields_values_repeated_ids
                  [ {| id := "f"; type := "email"; isRequired := true |};
                    {| id := "f"; type := "lastName"; isRequired := true |};
                    {| id := "f"; type := "firstName"; isRequired := false |} ]
                  "a@b.c" "Ada" "Byron")
           [ {| id := "f"; type := "email"; isRequired := true |} ]
           {| id := "f"; type := "lastName"; isRequired := true |}
           [ {| id := "f"; type := "firstName"; isRequired := false |} ]
           "Byron").
  - reflexivity.
  - reflexivity.
  - intros g Hg _. apply list_elem_of_singleton in Hg as ->. reflexivity.
Defined.

(** The id of a watch page. *)
Lemma last_segment_is_after_last_slash_witness :
  last_segment "https://streamyard.com/watch/abc123" = "abc123".
Proof.
  apply (proj1 (proj2 (last_segment_is_after_last_slash
                         "https://streamyard.com/watch/abc123"))
           "https://streamyard.com/watch" "abc123").
  - reflexivity.
  - intros Hin. cbn in Hin.
    repeat (apply elem_of_cons in Hin as [Hin|Hin]; [discriminate|]).
    by apply elem_of_nil in Hin.
Defined.

End StreamYardExtra.

(** ** Properties of the command group's options *)
Module MainProps.
Import Main.

(** X8.  The [--no-verify] flag is stored as the clients' [verify]
    setting: both the EventBrite client and the StreamYard client verify
    certificates exactly when [--no-verify] is given, and have warnings
    disabled exactly when it is not.  A proxy that is given and not empty
    is used for both "http" and "https" and for nothing else; without one,
    or with an empty one, no proxy is set. *)
Theorem options_reach_clients verbose proxy no_verify :
  verify (obj_client (cli verbose proxy no_verify)) = no_verify
  ∧ verify (streamyard_client (cli verbose proxy no_verify)) = no_verify
  ∧ warnings_disabled (obj_client (cli verbose proxy no_verify)) = negb no_verify
  ∧ warnings_disabled (streamyard_client (cli verbose proxy no_verify))
    = negb no_verify
  ∧ proxies (streamyard_client (cli verbose proxy no_verify))
    = proxies (obj_client (cli verbose proxy no_verify))
  ∧ (∀ scheme,
       proxies (obj_client (cli verbose proxy no_verify)) !! scheme
       = match proxy with
         | Some p =>
             if decide (p ≠ "" ∧ (scheme = "http" ∨ scheme = "https"))
             then Some p else None
         | None => None
         end).
Proof.
  repeat (split; [done|]). intros scheme. cbn.
  destruct proxy as [p|]; cbn; [|done].
  destruct (String.eqb_spec p "") as [->|Hp]; cbn.
  - rewrite decide_False; [done|]. by intros [? _].
  - destruct (decide (scheme = "https")) as [->|Hs].
    + rewrite lookup_insert_eq, decide_True; auto.
    + rewrite lookup_insert_ne by done.
      destruct (decide (scheme = "http")) as [->|Hh].
      * rewrite lookup_insert_eq, decide_True; auto.
      * rewrite lookup_insert_ne by done.
        rewrite lookup_empty, decide_False; [done|].
        intros [_ [?|?]]; done.
Qed.

End MainProps.

(** ** Properties of the phases of [cli] before the downloads *)
Module CliProps.
Import Cli.

Lemma omap_step {A B} (f : A → option B) x l :
  omap f (x :: l) = match f x with Some y => y :: omap f l | None => omap f l end.
Proof. done. Qed.

(** The modules are gone through up to the first one that is not well
    formed; the URLs of the webinars before it are appended. *)
Lemma scan_modules_spec (ms : list ContentModule) : ∀ urls,
  ∃ k, k ≤ length ms
    ∧ Forall (λ x, well_formed x = true) (take k ms)
    ∧ (scan_modules ms urls).1 = urls ++ omap module_url (take k ms)
    ∧ ((k = length ms ∧ (scan_modules ms urls).2 = None)
       ∨ (∃ x, ms !! k = Some x ∧ well_formed x = false
               ∧ (scan_modules ms urls).2 = Some KeyError)).
Proof.
  induction ms as [|x ms IH]; intros urls.
  { exists 0. cbn. rewrite app_nil_r.
    split; [lia|]. split; [constructor|]. split; [done|]. by left. }
  assert (well_formed x = false →
          (scan_modules (x :: ms) urls) = (urls, Some KeyError)) as Hbad.
  { unfold well_formed. cbn [scan_modules]. destruct (type x) as [t|]; [|done].
    destruct (String.eqb t "webinar"); [|done]. by destruct (webinar_url x). }
  assert (well_formed x = true →
          scan_modules (x :: ms) urls
          = scan_modules ms (urls ++ match module_url x with
                                     | Some u => [u] | None => [] end)) as Hgood.
  { unfold well_formed, module_url. cbn [scan_modules].
    destruct (type x) as [t|]; [|done].
    destruct (String.eqb t "webinar"); [|by rewrite app_nil_r].
    by destruct (webinar_url x). }
  destruct (well_formed x) eqn:Hx.
  - rewrite Hgood by done.
    destruct (IH (urls ++ match module_url x with Some u => [u] | None => [] end))
      as (k & Hk & Hwf & Hurls & Hend).
    exists (S k). cbn [take length]. split; [lia|]. split; [by constructor|].
    split.
    { rewrite Hurls, omap_step, <- app_assoc. by destruct (module_url x). }
    destruct Hend as [[-> Hn]|(y & Hy & Hbady & Hexc)]; [by left|].
    right. by exists y.
  - rewrite Hbad by done. exists 0. cbn. rewrite app_nil_r.
    split; [lia|]. split; [constructor|]. split; [done|]. right. by exists x.
Qed.

Lemma scan_modules_acc (ms : list ContentModule) : ∀ urls,
  scan_modules ms urls
  = (urls ++ (scan_modules ms []).1, (scan_modules ms []).2).
Proof.
  induction ms as [|x ms IH]; intros urls; cbn [scan_modules].
  { cbn. by rewrite app_nil_r. }
  destruct (type x) as [t|]; [|cbn; by rewrite app_nil_r].
  destruct (String.eqb t "webinar"); [|apply IH].
  destruct (webinar_url x) as [u|]; [|cbn; by rewrite app_nil_r].
  rewrite (IH (urls ++ [u])), (IH ([] ++ [u])). cbn. by rewrite <- app_assoc.
Qed.

Section EventBrite.

Variable get_structured_content : string -> Outcome Content.

Local Abbreviation event_urls := (event_urls get_structured_content).
Local Abbreviation event_exception := (event_exception get_structured_content).
Local Abbreviation event_found := (event_found get_structured_content).
Local Abbreviation report := (report get_structured_content).
Local Abbreviation streamyard_urls := (streamyard_urls get_structured_content).
Local Abbreviation get_streamyard_links :=
  (get_streamyard_links get_structured_content).

Lemma event_urls_acc event urls :
  event_urls event urls = (urls ++ event_found event, event_exception event).
Proof.
  unfold Cli.event_found, Cli.event_exception, Cli.event_urls.
  destruct (get_structured_content (id event)) as [c|e]; [|cbn; by rewrite app_nil_r].
  destruct (modules c) as [ms|]; [|cbn; by rewrite app_nil_r].
  apply scan_modules_acc.
Qed.

(** X9.  For an event whose content was fetched, the URLs appended are
    those of the webinar modules that come before the first module lacking a
    key: with all modules well formed, every webinar URL in order and no
    exception; otherwise a [KeyError], with the URLs found before it kept
    and those after it never looked at. *)
Theorem event_urls_up_to_first_missing_key event urls ms :
  get_structured_content (id event) = Returns {| modules := Some ms |} →
  (Forall (λ x, well_formed x = true) ms →
   event_urls event urls = (urls ++ omap module_url ms, None))
  ∧ (∀ before bad after,
       ms = before ++ bad :: after →
       Forall (λ x, well_formed x = true) before →
       well_formed bad = false →
       event_urls event urls = (urls ++ omap module_url before, Some KeyError)).
Proof.
  intros Hget. unfold Cli.event_urls. rewrite Hget. cbn [modules].
  destruct (scan_modules_spec ms urls) as (k & Hk & Hwf & Hurls & Hend).
  split.
  - intros Hall. destruct Hend as [[-> Hn]|(x & Hx & Hbad & _)].
    + rewrite firstn_all in Hurls.
      destruct (scan_modules ms urls) as [us exc]. cbn in *. by subst.
    + rewrite Forall_lookup in Hall. specialize (Hall k x Hx). congruence.
  - intros before bad after -> Hbefore Hbad.
    assert (k = length before) as ->.
    { destruct (Nat.lt_trichotomy k (length before)) as [Hlt|[->|Hgt]]; [|done|].
      - exfalso. destruct Hend as [[-> _]|(x & Hx & Hbadx & _)].
        + rewrite length_app in Hlt. lia.
        + rewrite lookup_app_l in Hx by done.
          rewrite Forall_lookup in Hbefore. specialize (Hbefore k x Hx). congruence.
      - exfalso. rewrite Forall_lookup in Hwf.
        specialize (Hwf (length before) bad).
        rewrite lookup_take_lt, list_lookup_middle in Hwf by done.
        specialize (Hwf eq_refl). congruence. }
    rewrite take_app_length in Hurls.
    destruct Hend as [[Hlen _]|(x & Hx & _ & Hexc)].
    + rewrite length_app in Hlen. cbn in Hlen. lia.
    + destruct (scan_modules _ urls) as [us exc]. cbn in *. by subst.
Qed.

(** X10.  As long as fetching an event raises nothing but [HTTPError] and
    [KeyError], the loop of [cli] goes through every event: it ends with the
    URLs found for each event, in the order of the events, one line printed
    per event that raised, and the progress advanced once per event. *)
Theorem streamyard_urls_goes_on events : ∀ st,
  (∀ event e, event ∈ events → event_exception event = Some e →
              reported e = true) →
  streamyard_urls events st
  = Returns {| urls := urls st ++ concat (map event_found events);
               printed := printed st ++ omap report events;
               advanced := advanced st + length events |}.
Proof.
  induction events as [|event events IH]; intros st Hrep.
  { cbn. rewrite !app_nil_r, Nat.add_0_r. by destruct st. }
  cbn [Cli.streamyard_urls]. rewrite event_urls_acc.
  assert (∀ event' e, event' ∈ events → event_exception event' = Some e →
                      reported e = true) as Hrest.
  { intros event' e Hin. apply Hrep. by apply list_elem_of_further. }
  pose proof (Hrep event) as Hhere.
  cbn [map concat length]. rewrite omap_step. unfold Cli.report at 1.
  destruct (event_exception event) as [e|] eqn:Hexc.
  - specialize (Hhere e (list_elem_of_here _ _) eq_refl).
    destruct e; try discriminate; rewrite IH by done; cbn;
      rewrite <- !app_assoc; repeat f_equal; lia.
  - rewrite IH by done. cbn. rewrite <- !app_assoc. repeat f_equal; lia.
Qed.

(** X11.  An exception of another kind is not caught: the first event
    whose fetch raises one ends [cli] with that exception, whatever was
    collected before and whatever events follow. *)
Theorem streamyard_urls_stops before event after e st :
  (∀ event' e', event' ∈ before → event_exception event' = Some e' →
                reported e' = true) →
  event_exception event = Some e →
  reported e = false →
  streamyard_urls (before ++ event :: after) st = Raises e.
Proof.
  revert st. induction before as [|b before IH]; intros st Hrep Hexc He.
  - cbn [app Cli.streamyard_urls]. rewrite event_urls_acc, Hexc.
    by destruct e.
  - cbn [app Cli.streamyard_urls]. rewrite event_urls_acc.
    assert (∀ event' e', event' ∈ before → event_exception event' = Some e' →
                         reported e' = true) as Hrest.
    { intros event' e' Hin. apply Hrep. by apply list_elem_of_further. }
    pose proof (Hrep b) as Hhere.
    destruct (event_exception b) as [eb|] eqn:Hb; [|by apply IH].
    specialize (Hhere eb (list_elem_of_here _ _) eq_refl).
    destruct eb; try discriminate; by apply IH.
Qed.

(** X12.  [get_streamyard_links] of the helpers and the loop of [cli]
    collect the same URLs and stop on the same exceptions when every event
    has a name; the helper alone reads the name, before its [try:], and so
    raises [KeyError] on the first event without one. *)
Theorem helper_agrees_with_cli data : ∀ st log,
  (Forall (λ event, is_Some (name_text event)) data →
   match streamyard_urls data st with
   | Returns st' =>
       ∃ log', get_streamyard_links data (urls st) log = Returns (urls st', log')
   | Raises e => get_streamyard_links data (urls st) log = Raises e
   end)
  ∧ (∀ before event after,
       data = before ++ event :: after →
       Forall (λ event, is_Some (name_text event)) before →
       (∀ event' e', event' ∈ before → event_exception event' = Some e' →
                     reported e' = true) →
       name_text event = None →
       get_streamyard_links data (urls st) log = Raises KeyError).
Proof.
  induction data as [|event data IH]; intros st log.
  { split; [intros _; cbn; eauto|]. intros [|? ?] ? ? Hnil; discriminate. }
  split.
  - intros Hnames. apply Forall_cons in Hnames as [[name Hname] Hnames].
    cbn [Cli.streamyard_urls Cli.get_streamyard_links]. rewrite Hname.
    rewrite event_urls_acc.
    destruct (event_exception event) as [[msg| | |msg|msg]|];
      try done;
      match goal with
      | |- context [Cli.streamyard_urls _ _ ?st'] =>
          apply (proj1 (IH st' _) Hnames)
      end.
  - intros before event' after Hdata Hnames Hrep Hnone.
    destruct before as [|b before].
    + cbn in Hdata. injection Hdata as -> ->.
      cbn [Cli.get_streamyard_links]. by rewrite Hnone.
    + cbn in Hdata. injection Hdata as -> ->.
      apply Forall_cons in Hnames as [[name Hname] Hnames].
      cbn [Cli.get_streamyard_links]. rewrite Hname, event_urls_acc.
      assert (∀ ev e', ev ∈ before → event_exception ev = Some e' →
                       reported e' = true) as Hrest.
      { intros ev e' Hin. apply Hrep. by apply list_elem_of_further. }
      pose proof (Hrep b) as Hhere.
      destruct (event_exception b) as [eb|] eqn:Hb.
      * specialize (Hhere eb (list_elem_of_here _ _) eq_refl).
        destruct eb; try discriminate.
        -- apply (proj2 (IH {| urls := urls st ++ event_found b;
                               printed := []; advanced := 0 |} _)
                    before event' after eq_refl Hnames Hrest Hnone).
        -- apply (proj2 (IH {| urls := urls st ++ event_found b;
                               printed := []; advanced := 0 |} _)
                    before event' after eq_refl Hnames Hrest Hnone).
      * apply (proj2 (IH {| urls := urls st ++ event_found b;
                            printed := []; advanced := 0 |} _)
                 before event' after eq_refl Hnames Hrest Hnone).
Qed.

End EventBrite.

Lemma event_urls_up_to_first_missing_key_witness :
  Cli.event_urls Samples.content_of (Samples.event "e1") [] =
    ([] ++ omap module_url
             [ {| type := Some "text"; webinar_url := None |};
               {| type := Some "webinar";
                  webinar_url := Some "https://streamyard.com/watch/aaa" |} ], None)
  ∧ Cli.event_urls Samples.content_of (Samples.event "e3") ["u"] =
      (["u"] ++ omap module_url
                  [ {| type := Some "webinar";
                       webinar_url := Some "https://streamyard.com/watch/bbb" |} ],
       Some KeyError).
Proof.
  split.
  - apply (event_urls_up_to_first_missing_key Samples.content_of
             (Samples.event "e1") []); [reflexivity|].
    repeat constructor.
  - eapply (proj2 (event_urls_up_to_first_missing_key Samples.content_of
                     (Samples.event "e3") ["u"] _ eq_refl)
              [_] _ [_]); [reflexivity | repeat constructor | reflexivity].
Defined.

Lemma streamyard_urls_goes_on_witness :
  Cli.streamyard_urls Samples.content_of
    [Samples.event "e1"; Samples.event "e2"; Samples.event "e3"] Samples.no_urls
  = Returns
      {| urls := ["https://streamyard.com/watch/aaa";
                  "https://streamyard.com/watch/bbb"];
         printed := [ErrorFetching "e2" "404"; NoWebinarURL "e3"];
         advanced := 3 |}.
Proof.
  apply (streamyard_urls_goes_on Samples.content_of
           [Samples.event "e1"; Samples.event "e2"; Samples.event "e3"]
           Samples.no_urls).
  intros ev e Hin.
  repeat (apply elem_of_cons in Hin as [->|Hin]);
    [| | |by apply elem_of_nil in Hin];
    intros He; vm_compute in He;
    first [discriminate | injection He as <-; reflexivity].
Defined.

Lemma streamyard_urls_stops_witness :
  Cli.streamyard_urls Samples.content_of
    ([Samples.event "e1"; Samples.event "e2"]
       ++ Samples.event "e4" :: [Samples.event "e3"]) Samples.no_urls
  = Raises (OtherError "JSONDecodeError").
Proof.
  apply (streamyard_urls_stops Samples.content_of
           [Samples.event "e1"; Samples.event "e2"] (Samples.event "e4")
           [Samples.event "e3"] (OtherError "JSONDecodeError") Samples.no_urls).
  - intros ev e Hin.
    repeat (apply elem_of_cons in Hin as [->|Hin]);
      [| |by apply elem_of_nil in Hin];
      intros He; vm_compute in He;
      first [discriminate | injection He as <-; reflexivity].
  - reflexivity.
  - reflexivity.
Defined.

(** The helper on the same events, and on a list whose second event has no
    name. *)
Example both_loops_on_the_samples :
  Cli.get_streamyard_links Samples.content_of
    [Samples.event "e1"; Samples.event "e2"; Samples.event "e3"] [] []
  = Returns
      (["https://streamyard.com/watch/aaa"; "https://streamyard.com/watch/bbb"],
       [Fetching "e1" "a talk"; Fetching "e2" "a talk"; ErrorFetching "e2" "404";
        Fetching "e3" "a talk"; NoWebinarURL "e3"])
  ∧ Cli.get_streamyard_links Samples.content_of
      [Samples.event "e1"; {| id := "e3"; name_text := None |}] [] []
    = Raises KeyError
  ∧ (Cli.streamyard_urls Samples.content_of
       [Samples.event "e1"; {| id := "e3"; name_text := None |}] Samples.no_urls)
    = Returns
        {| urls := ["https://streamyard.com/watch/aaa";
                    "https://streamyard.com/watch/bbb"];
           printed := [NoWebinarURL "e3"]; advanced := 2 |}.
Proof. repeat split; vm_compute; reflexivity. Qed.

Lemma helper_agrees_with_cli_witness :
  (∃ log',
     Cli.get_streamyard_links Samples.content_of
       [Samples.event "e1"; Samples.event "e2"; Samples.event "e3"] [] []
     = Returns (["https://streamyard.com/watch/aaa";
                 "https://streamyard.com/watch/bbb"], log'))
  ∧ Cli.get_streamyard_links Samples.content_of
      [Samples.event "e1"; {| id := "e3"; name_text := None |}; Samples.event "e4"]
      [] []
    = Raises KeyError.
Proof.
  split.
  - apply (proj1 (helper_agrees_with_cli Samples.content_of
                    [Samples.event "e1"; Samples.event "e2"; Samples.event "e3"]
                    Samples.no_urls [])).
    repeat constructor; by eexists.
  - apply (proj2 (helper_agrees_with_cli Samples.content_of
                    [Samples.event "e1"; {| id := "e3"; name_text := None |};
                     Samples.event "e4"]
                    Samples.no_urls [])
             [Samples.event "e1"] {| id := "e3"; name_text := None |}
             [Samples.event "e4"]).
    + reflexivity.
    + repeat constructor; by eexists.
    + intros ev e Hin. apply list_elem_of_singleton in Hin as ->.
      intros He; vm_compute in He; discriminate.
    + reflexivity.
Defined.

Section StreamYard.

Context {S : Type}.
Variable has_token : S -> bool.
Variable get_page : S -> string -> S * option Exn.
Variable get_api : S -> string -> S * Outcome WebinarInfo.
Variable post_registration :
  S -> string -> StreamYard.RegistrationData -> S * Outcome unit.

Local Abbreviation get_webinar_info := (get_webinar_info has_token get_page get_api).
Local Abbreviation register_webinar := (register_webinar post_registration).
Local Abbreviation vod_entry :=
  (vod_entry has_token get_page get_api post_registration).
Local Abbreviation vod_urls :=
  (vod_urls has_token get_page get_api post_registration).

Lemma vod_of_returns data entry :
  vod_of data = Returns entry ↔ is_job_of data entry.
Proof.
  unfold vod_of, is_job_of. destruct entry as [t u p]. cbn.
  destruct (vodUrl data) as [vod|]; [|split; [done|by intros [? _]]].
  destruct (isVodMediaDeleted data) as [[|]|];
    [split; [done|by intros (_ & ? & _)] | | split; [done|by intros (_ & ? & _)]].
  destruct (title data) as [t'|]; [|split; [done|by intros (_ & _ & ? & _)]].
  destruct (vodPosterUrl data) as [p'|]; [|split; [done|by intros (_ & _ & _ & ?)]].
  split; [by intros [= -> -> ->]|]. by intros ([= ->] & _ & [= ->] & [= ->]).
Qed.

Lemma vod_entry_returns_iff s url email first_name last_name s' entry :
  vod_entry s url email first_name last_name = (s', Returns entry)
  ↔ ∃ s1 first,
      get_webinar_info s url = (s1, Returns first)
      ∧ ((isRegistrationEnabled first = Some false
          ∧ s' = s1 ∧ is_job_of first entry)
         ∨ (isRegistrationEnabled first = Some true
            ∧ ∃ s2 answer data,
                register_webinar s1 url first email first_name last_name
                = (s2, Returns answer)
                ∧ get_webinar_info s2 url = (s', Returns data)
                ∧ is_job_of data entry)).
Proof.
  unfold Cli.vod_entry. split.
  - destruct (get_webinar_info s url) as [s1 [first|e]]; [|done].
    destruct (isRegistrationEnabled first) as [[|]|] eqn:Hen; [| |done].
    + destruct (register_webinar s1 url first email first_name last_name)
        as [s2 [answer|e]] eqn:Hreg; [|done].
      destruct (get_webinar_info s2 url) as [s3 [data|e]] eqn:Hget; [|done].
      intros [= -> Hjob]. exists s1, first. split; [done|]. right.
      split; [done|]. exists s2, answer, data. by rewrite <- vod_of_returns.
    + intros [= <- Hjob]. exists s1, first. split; [done|]. left.
      by rewrite <- vod_of_returns.
  - intros (s1 & first & Hget & [(Hen & Hs & Hjob)|(Hen & s2 & answer & data & Hreg & Hget2 & Hjob)]);
      rewrite Hget, Hen.
    + apply vod_of_returns in Hjob. by rewrite Hjob, Hs.
    + rewrite Hreg, Hget2. apply vod_of_returns in Hjob. by rewrite Hjob.
Qed.

(** X13.  A URL yields a job exactly in two ways.  Either the data first
    fetched says that registration is not enabled, and the job is made of
    that data; or it says registration is enabled, the registration request
    returns, the data is fetched again, and the job is made of the data
    fetched last.  In both cases that data has a VOD URL and is not marked
    as deleted.  So nothing is built when the registration raises, even if
    the first data already showed a VOD. *)
Theorem vod_entry_returns s url email first_name last_name s' entry :
  vod_entry s url email first_name last_name = (s', Returns entry)
  ↔ ∃ s1 first,
      get_webinar_info s url = (s1, Returns first)
      ∧ ((isRegistrationEnabled first = Some false
          ∧ s' = s1 ∧ is_job_of first entry)
         ∨ (isRegistrationEnabled first = Some true
            ∧ ∃ s2 answer data,
                register_webinar s1 url first email first_name last_name
                = (s2, Returns answer)
                ∧ get_webinar_info s2 url = (s', Returns data)
                ∧ is_job_of data entry)).
Proof. apply vod_entry_returns_iff. Qed.

(** X14.  The loop over the URLs catches every exception and goes through
    all of them in order: the body of the [try:] is run once for each URL,
    on the session as the URL before left it.  The jobs added are the
    results of the URLs that returned one, in the order of the URLs; the
    lines printed are the errors of the others, each with its URL, in the
    order of the URLs; and the progress is advanced once per URL. *)
Theorem vod_urls_accounts urls email first_name last_name : ∀ s st s' st',
  vod_urls s urls email first_name last_name st = (s', st') →
  ∃ states outcomes,
    length states = length urls ∧ length outcomes = length urls
    ∧ (∀ i url, urls !! i = Some url →
         ∃ s0 s1 o,
           (s :: states) !! i = Some s0 ∧ states !! i = Some s1
           ∧ outcomes !! i = Some o
           ∧ vod_entry s0 url email first_name last_name = (s1, o))
    ∧ (s :: states) !! length urls = Some s'
    ∧ vod_download_data st' = vod_download_data st ++ omap job_of outcomes
    ∧ vod_printed st' = vod_printed st ++ omap line_of (zip urls outcomes)
    ∧ vod_advanced st' = vod_advanced st + length urls.
Proof.
  induction urls as [|url urls IH]; intros s st s' st' Hrun.
  { injection Hrun as <- <-. exists [], []. cbn. rewrite !app_nil_r.
    split; [done|]. split; [done|]. split; [by intros i url ?|].
    split; [done|]. split; [done|]. split; [done|lia]. }
  cbn [Cli.vod_urls] in Hrun.
  destruct (vod_entry s url email first_name last_name) as [s1 o] eqn:Hentry.
  assert (∃ st1,
            vod_urls s1 urls email first_name last_name st1 = (s', st')
            ∧ vod_download_data st1 = vod_download_data st ++ omap job_of [o]
            ∧ vod_printed st1 = vod_printed st ++ omap line_of [(url, o)]
            ∧ vod_advanced st1 = Datatypes.S (vod_advanced st))
    as (st1 & Hrest & Hjobs1 & Hlines1 & Hadv1).
  { destruct o as [entry|e]; eexists; (split; [exact Hrun|]); cbn;
      by rewrite ?app_nil_r. }
  apply IH in Hrest
    as (states & outcomes & Hls & Hlo & Hstep & Hlast & Hjobs & Hlines & Hadv).
  exists (s1 :: states), (o :: outcomes). cbn [length].
  split; [by rewrite Hls|]. split; [by rewrite Hlo|]. split; [|split; [done|]].
  - intros [|i] u Hu.
    + injection Hu as <-. by exists s, s1, o.
    + cbn in Hu. destruct (Hstep i u Hu) as (s0 & s2 & o' & H0 & H2 & Ho & Hcall).
      by exists s0, s2, o'.
  - rewrite Hjobs, Hjobs1, Hlines, Hlines1, Hadv, Hadv1, <- !app_assoc.
    split; [|split; [|lia]].
    + f_equal. by destruct o.
    + f_equal. cbn [zip zip_with]. by destruct o.
Qed.

End StreamYard.

(** The recording that shows only after registration. *)
Lemma vod_entry_returns_witness :
  ∃ s1 first,
    get_webinar_info Samples.token Samples.yard_page Samples.yard_api
      Samples.fresh_yard "https://streamyard.com/watch/bbb" = (s1, Returns first)
    ∧ ((isRegistrationEnabled first = Some false
        ∧ {| Samples.token := true; Samples.registered := true |} = s1
        ∧ is_job_of first
            {| Download.title := "a talk"; Download.url := "http://h/bbb.mp4";
               Download.poster := "http://h/poster.jpg" |})
       ∨ (isRegistrationEnabled first = Some true
          ∧ ∃ s2 answer data,
              register_webinar Samples.yard_post s1
                "https://streamyard.com/watch/bbb" first "a@b.c" "Ada" "Byron"
              = (s2, Returns answer)
              ∧ get_webinar_info Samples.token Samples.yard_page Samples.yard_api
                  s2 "https://streamyard.com/watch/bbb"
                = ({| Samples.token := true; Samples.registered := true |},
                   Returns data)
              ∧ is_job_of data
                  {| Download.title := "a talk"; Download.url := "http://h/bbb.mp4";
                     Download.poster := "http://h/poster.jpg" |})).
Proof.
  apply (proj1 (vod_entry_returns Samples.token Samples.yard_page Samples.yard_api
                  Samples.yard_post Samples.fresh_yard
                  "https://streamyard.com/watch/bbb" "a@b.c" "Ada" "Byron"
                  {| Samples.token := true; Samples.registered := true |}
                  {| Download.title := "a talk"; Download.url := "http://h/bbb.mp4";
                     Download.poster := "http://h/poster.jpg" |})).
  vm_compute. reflexivity.
Defined.

Lemma vod_urls_accounts_witness :
  ∃ states outcomes,
    length states = length Samples.yard_urls
    ∧ length outcomes = length Samples.yard_urls
    ∧ (∀ i url, Samples.yard_urls !! i = Some url →
         ∃ s0 s1 o,
           (Samples.fresh_yard :: states) !! i = Some s0 ∧ states !! i = Some s1
           ∧ outcomes !! i = Some o
           ∧ vod_entry Samples.token Samples.yard_page Samples.yard_api
               Samples.yard_post s0 url "a@b.c" "Ada" "Byron" = (s1, o))
    ∧ (Samples.fresh_yard :: states) !! length Samples.yard_urls
      = Some Samples.yard_run.1
    ∧ vod_download_data Samples.yard_run.2
      = vod_download_data Samples.no_vods ++ omap job_of outcomes
    ∧ vod_printed Samples.yard_run.2
      = vod_printed Samples.no_vods ++ omap line_of (zip Samples.yard_urls outcomes)
    ∧ vod_advanced Samples.yard_run.2
      = vod_advanced Samples.no_vods + length Samples.yard_urls.
Proof.
  apply (vod_urls_accounts Samples.token Samples.yard_page Samples.yard_api
           Samples.yard_post Samples.yard_urls "a@b.c" "Ada" "Byron"
           Samples.fresh_yard Samples.no_vods Samples.yard_run.1 Samples.yard_run.2).
  reflexivity.
Defined.

(** The same run, evaluated: the open recording and the one that shows
    after registration become jobs, the deleted and the unknown one are
    reported. *)
Example yard_run_result :
  Samples.yard_run
  = ({| Samples.token := true; Samples.registered := true |},
     {| vod_download_data :=
          [ {| Download.title := "a talk"; Download.url := "http://h/aaa.mp4";
               Download.poster := "http://h/poster.jpg" |};
            {| Download.title := "a talk"; Download.url := "http://h/bbb.mp4";
               Download.poster := "http://h/poster.jpg" |} ];
        vod_printed :=
          [ ErrorFor (Exception "VOD media has been deleted")
              "https://streamyard.com/watch/ccc";
            ErrorFor (HTTPError "404") "https://streamyard.com/watch/zzz" ];
        vod_advanced := 4 |}).
Proof. vm_compute. reflexivity. Qed.

End CliProps.

(** ** More on the download pipeline *)
Module DownloadExtra.
Import Download DownloadProps.

(** *** Files and the per-file progress *)

(** While a body is streamed, the task of the transfer counts the bytes
    appended to the file; no other task changes. *)
Lemma write_chunks_progress env tid p chunks : ∀ σ o σ' data t,
  write_chunks env tid p chunks σ = (o, σ') →
  fs σ !! p = Some data →
  tasks σ !! tid = Some t →
  ∃ more,
    fs σ' !! p = Some (data ++ more)
    ∧ tasks σ' !! tid
      = Some {| total := total t;
                completed := (completed t + Z.of_nat (length more))%Z;
                started := started t |}
    ∧ (∀ j, j ≠ tid → tasks σ' !! j = tasks σ !! j)
    ∧ next_task_id σ' = next_task_id σ
    ∧ clock σ ≤ clock σ'.
Proof.
  induction chunks as [|c rest IH]; intros σ o σ' data t Hrun Hfile Htask.
  - injection Hrun as <- <-. exists []. rewrite app_nil_r, Z.add_0_r.
    split; [done|]. split; [by destruct t|]. auto.
  - cbn [write_chunks] in Hrun. destruct (stop_is_set env (clock σ)).
    + injection Hrun as <- <-. exists []. rewrite app_nil_r, Z.add_0_r. cbn.
      split; [done|]. split; [by destruct t|]. split; [done|]. split; [done|lia].
    + eapply (IH _ _ _ (data ++ c)
                {| total := total t;
                   completed := (completed t + Z.of_nat (length c))%Z;
                   started := started t |})
        in Hrun as (more & Hfs & Htasks & Hother & Hnext & Hclock).
      * exists (c ++ more). rewrite app_assoc. split; [done|].
        split; [|split; [|split]].
        -- rewrite Htasks. cbn. by rewrite length_app, Nat2Z.inj_add, Z.add_assoc.
        -- intros j Hj. rewrite (Hother j Hj). cbn. by rewrite lookup_alter_ne.
        -- done.
        -- cbn in Hclock. lia.
      * cbn. by rewrite Hfile, lookup_insert_eq.
      * cbn. by rewrite lookup_alter_eq, Htask.
Qed.




(** X18.  [open(local_file, "wb")] comes before the first look at the stop
    event: a transfer that starts when the event is already set writes
    nothing and returns, but leaves an empty file where the target was,
    whatever that held. *)
Theorem cancelled_before_first_chunk_truncates env u p w σ r :
  http_get env u = Responds r →
  same_size σ p (default 0%Z (content_length r)) = false →
  raise_for_status r = false →
  stop_is_set env (clock σ) = true →
  ∃ w' σ',
    download_file env u p w σ
    = (if decide (body r = []) then Completed else Cancelled, w', σ')
    ∧ fs σ' = <[p := []]> (fs σ)
    ∧ fs_log σ' = fs_log σ ++ [Opened (clock σ) p].
Proof.
  intros Hget Hsame Hstatus Hstop.
  rewrite (download_file_streams _ _ _ _ _ _ Hget Hsame Hstatus).
  destruct (body r) as [|c rest]; cbn [write_chunks].
  - eexists _, _. by rewrite decide_True.
  - change (clock (start_task _ _)) with (clock σ). rewrite Hstop.
    eexists _, _. by rewrite decide_False.
Qed.

Lemma cancelled_before_first_chunk_truncates_witness :
  ∃ w' σ',
    download_file (Samples.cancelled_at 1) "http://h/talk.mp4"
      ["home"; "user"; "output"; "intro.mp4"] Samples.worker0
      (tick (Samples.world_of Samples.fs_intro [Samples.talk]))
    = (if decide ([[Samples.b1; Samples.b2]; [Samples.b3]] = [])
       then Completed else Cancelled, w', σ')
    ∧ fs σ' = <[["home"; "user"; "output"; "intro.mp4"] := []]> Samples.fs_intro
    ∧ fs_log σ' = [] ++ [Opened 1 ["home"; "user"; "output"; "intro.mp4"]].
Proof.
  apply (cancelled_before_first_chunk_truncates (Samples.cancelled_at 1)
           "http://h/talk.mp4" ["home"; "user"; "output"; "intro.mp4"]
           Samples.worker0
           (tick (Samples.world_of Samples.fs_intro [Samples.talk]))
           {| status_code := 200; content_length := Some 3%Z;
              body := [[Samples.b1; Samples.b2]; [Samples.b3]] |});
    reflexivity.
Defined.

(** *** What a run keeps count of *)

Import Counts.

Lemma download_file_tasks env u p w σ o w' σ' :
  download_file env u p w σ = (o, w', σ') →
  (∀ j, j ≠ next_task_id σ → tasks σ' !! j = tasks σ !! j)
  ∧ next_task_id σ' = S (next_task_id σ).
Proof.
  intros Hrun. destruct (http_get env u) as [e|r] eqn:Hget.
  - rewrite (download_file_raises _ _ _ _ _ _ Hget) in Hrun.
    injection Hrun as <- <- <-. cbn. split; [|done].
    intros j Hj. by rewrite lookup_insert_ne.
  - destruct (same_size σ p (default 0%Z (content_length r))) eqn:Hsame.
    + rewrite (download_file_skips _ _ _ _ _ _ Hget Hsame) in Hrun.
      injection Hrun as <- <- <-. cbn. split; [|done].
      intros j Hj. by rewrite lookup_insert_ne.
    + destruct (raise_for_status r) eqn:Hstatus.
      * rewrite (download_file_http_error _ _ _ _ _ _ Hget Hsame Hstatus) in Hrun.
        injection Hrun as <- <- <-. cbn. split; [|done].
        intros j Hj. by rewrite lookup_alter_ne, lookup_insert_ne.
      * rewrite (download_file_streams _ _ _ _ _ _ Hget Hsame Hstatus) in Hrun.
        destruct (write_chunks _ _ _ _ _) as [o1 σ1] eqn:Hloop.
        injection Hrun as <- <- <-.
        destruct (write_chunks_progress _ _ _ _ _ _ _ []
                    {| total := default 0%Z (content_length r); completed := 0;
                       started := true |} Hloop)
          as (more & _ & _ & Hother & Hnext & _).
        { cbn. by rewrite lookup_insert_eq. }
        { cbn. by rewrite !lookup_alter_eq, lookup_insert_eq. }
        cbn in Hother, Hnext. split; [|done].
        intros j Hj. rewrite (Hother j Hj).
        by rewrite !lookup_alter_ne, lookup_insert_ne.
Qed.


Section Accounts.

Variable slugify : string -> string.
Variable env : Env.
Variables (output_dir : Path).

Lemma accounts_spawn p : accounts p → accounts (spawn output_dir p).
Proof.
  intros [Htasks Hnext Hunf Hov Hsent Hpos]. unfold spawn.
  destruct (to_spawn p); [by constructor|].
  constructor; cbn; try done.
  - rewrite Hunf, length_app. cbn. lia.
  - unfold running, sentinels_queued, errors_printed in *. cbn.
    rewrite !filter_app, !length_app, !filter_cons_True, !filter_nil by done.
    cbn. lia.
Qed.

Lemma accounts_step i p : accounts p → accounts (step slugify env i p).
Proof.
  intros HA. pose proof HA as [Htasks Hnext Hunf Hov Hsent Hpos].
  unfold step. destruct (workers p !! i) as [w|] eqn:Hw; [|done].
  destruct (is_running w) eqn:Hrun; [|done].
  pose proof (filter_insert_length (λ w, is_running w = true) (workers p) i w)
    as Hins.
  destruct (stop_is_set env (clock (world p))) eqn:Hstop.
  { rewrite run_body_stopped by done.
    specialize (Hins (set_is_running false (set_task_id None w)) Hw).
    rewrite decide_True, decide_False in Hins by (cbn; congruence).
    constructor; cbn; try done.
    unfold running, sentinels_queued, errors_printed in *. cbn in *. lia. }
  destruct (queue (world p)) as [|[entry|] q] eqn:Hq.
  - by rewrite run_body_blocked.
  - destruct (download_of slugify env i w (world p) entry q) as [[o w1] σ1] eqn:Hdl.
    pose proof Hdl as Hdl'. unfold download_of in Hdl'.
    pose proof (download_file_frame _ _ _ _ _ _ _ _ Hdl') as (_ & _ & _ & Hunf1 & Hw1).
    pose proof (download_file_tasks _ _ _ _ _ _ _ _ Hdl') as (Htasks1 & Hnext1).
    cbn in Hunf1, Htasks1, Hnext1, Hw1.
    set (w' := if raised o then set_is_running false w1 else w1).
    set (σ1' := match o with
                | Raised e => console_print (ErrorMsg e) σ1
                | _ => σ1
                end).
    assert (run_body slugify env i w (world p) = Some (Next, w', run_finally w' σ1'))
      as ->.
    { unfold w', σ1'. destruct (raised o) eqn:Ho.
      - destruct o; try discriminate. by eapply run_body_raised.
      - erewrite run_body_returned by done. by destruct o. }
    assert (is_running w' = negb (raised o)) as Hr'.
    { unfold w'. rewrite Hw1. destruct (raised o); cbn; [done|]. by rewrite Hrun. }
    assert (task_id w' = Some (next_task_id (world p))) as Htid.
    { unfold w'. rewrite Hw1. by destruct (raised o). }
    pose proof (job_pass_effect slugify env _ _ _ _ _ _ _ _ w' Hdl)
      as (Eq & Ed & _ & _ & Econ & Eov & _).
    fold σ1' in Eq, Ed, Econ, Eov.
    assert (tasks (run_finally w' σ1') = ∅) as Etasks.
    { unfold run_finally. rewrite Htid.
      assert (tasks σ1' = tasks σ1) as Hsame by (unfold σ1'; by destruct o).
      destruct (is_running w'); cbn; rewrite Hsame; apply map_eq; intros j;
        rewrite lookup_empty;
        (destruct (decide (j = next_task_id (world p))) as [->|Hj];
         [by rewrite lookup_delete_eq
         |by rewrite lookup_delete_ne, (Htasks1 j), Htasks, lookup_empty]). }
    assert (next_task_id (run_finally w' σ1') = S (next_task_id (world p)))
      as Enext.
    { unfold run_finally. rewrite Htid.
      destruct (is_running w'); cbn; unfold σ1'; by destruct o. }
    assert (unfinished_tasks (run_finally w' σ1')
            = (unfinished_tasks (world p) - 1)%Z) as Eunf.
    { unfold run_finally. rewrite Htid.
      destruct (is_running w'); cbn; unfold σ1'; destruct o; cbn; by rewrite Hunf1. }
    specialize (Hins w' Hw). rewrite decide_True in Hins by done.
    constructor; cbn [world workers].
    + done.
    + rewrite Enext. unfold jobs_taken in *. rewrite Ed, filter_app, length_app.
      rewrite filter_cons_True, filter_nil by done. cbn. lia.
    + rewrite Eunf, Eq, Hunf. cbn. lia.
    + rewrite Eov. unfold jobs_taken, errors_printed in *.
      rewrite Ed, Econ, !filter_app, !length_app.
      rewrite (filter_cons_True _ (i, Job entry)), filter_nil by done.
      rewrite Hr'.
      destruct o; cbn [raised negb];
        rewrite ?filter_cons_True, ?filter_cons_False, ?filter_nil by done;
        cbn [length]; lia.
    + unfold running, sentinels_queued, errors_printed in *. cbn [workers].
      rewrite Eq, Econ, !filter_app, !length_app.
      rewrite Hq, filter_cons_False in Hsent by done.
      rewrite Hr' in Hins.
      destruct o; cbn [raised negb] in Hins;
        rewrite ?filter_cons_True, ?filter_cons_False, ?filter_nil by done;
        rewrite ?decide_True, ?decide_False in Hins by done;
        cbn [length]; lia.
    + rewrite Eov. destruct (is_running w'); lia.
  - rewrite (run_body_sentinel _ _ _ _ _ q) by done.
    specialize (Hins (set_is_running false (set_task_id None w)) Hw).
    rewrite decide_True, decide_False in Hins by (cbn; congruence).
    unfold running, sentinels_queued, errors_printed, jobs_taken in *.
    rewrite Hq, filter_cons_True in Hsent by done. cbn [length] in Hsent.
    constructor;
      unfold running, sentinels_queued, errors_printed, jobs_taken;
      cbn [world workers tasks next_task_id unfinished_tasks overall_completed
           console dequeued queue task_done queue_got tick];
      rewrite ?filter_app, ?length_app;
      rewrite ?filter_cons_False, ?filter_nil by (cbn; auto);
      cbn [length]; try done; try lia.
    rewrite Hunf. cbn [length]. lia.
Qed.

Lemma accounts_run threads data fs0 sched :
  accounts (foldl (λ p e, exec slugify env output_dir e p)
              (cli_start threads data fs0) sched).
Proof.
  apply foldl_exec_inv.
  - intros [|i] p; cbn; [apply accounts_spawn | apply accounts_step].
  - destruct (put_all_queue data (empty_world fs0))
      as (Hq & Hd & _ & _ & Hcon & Hov).
    assert (∀ l σ, tasks (put_all l σ) = tasks σ
                   ∧ next_task_id (put_all l σ) = next_task_id σ
                   ∧ unfinished_tasks (put_all l σ)
                     = (unfinished_tasks σ + Z.of_nat (length l))%Z) as Hput.
    { clear. induction l as [|x l IH]; intros σ; [cbn; split; [done|split; [done|lia]]|].
      change (put_all (x :: l) σ) with (put_all l (queue_put (Job x) σ)).
      destruct (IH (queue_put (Job x) σ)) as (-> & -> & ->). cbn. repeat split; lia. }
    destruct (Hput data (empty_world fs0)) as (Ht & Hn & Hu).
    constructor; cbn; unfold jobs_taken, errors_printed, running, sentinels_queued;
      rewrite ?Ht, ?Hn, ?Hu, ?Hq, ?Hd, ?Hcon, ?Hov; cbn; try done.
    + rewrite length_map. lia.
    + lia.
Qed.

End Accounts.

(** X19.  No progress task outlives its pass: whenever the workers are
    between passes, and so when the phase has come to its end, the per-file
    [Progress] holds no task, and as many tasks have been made as jobs were
    taken from the queue. *)
Theorem no_task_left (slugify : string → string) output cwd threads data env
    fs0 sched :
  tasks (world (cli slugify output cwd threads data env fs0 sched)) = ∅
  ∧ next_task_id (world (cli slugify output cwd threads data env fs0 sched))
    = jobs_taken (world (cli slugify output cwd threads data env fs0 sched)).
Proof.
  destruct (accounts_run slugify env (path_div cwd "output") threads data fs0 sched)
    as [Htasks Hnext _ _ _ _].
  done.
Qed.

(** X20.  [task_done] is called once for each item got from the queue and
    never otherwise: between passes the queue's count of unfinished tasks is
    the number of items still queued, and so never negative. *)
Theorem task_done_once_per_get (slugify : string → string) output cwd threads
    data env fs0 sched :
  unfinished_tasks (world (cli slugify output cwd threads data env fs0 sched))
  = Z.of_nat (length (queue (world (cli slugify output cwd threads data env
                                      fs0 sched)))).
Proof.
  by destruct (accounts_run slugify env (path_div cwd "output") threads data fs0
                 sched) as [_ _ Hunf _ _ _].
Qed.


(** X22.  A worker stopped by an exception or by the stop event never takes
    its sentinel: the queue always holds at least one sentinel for each
    worker still running and one more for each error printed.  So, once a
    job has failed, the queue is never emptied and its count of unfinished
    tasks stays positive, also after every worker has stopped. *)
Theorem failed_jobs_leave_sentinels (slugify : string → string) output cwd
    threads data env fs0 sched :
  running (cli slugify output cwd threads data env fs0 sched)
  + errors_printed (world (cli slugify output cwd threads data env fs0 sched))
  ≤ sentinels_queued (world (cli slugify output cwd threads data env fs0 sched))
  ∧ (Z.of_nat (errors_printed
                 (world (cli slugify output cwd threads data env fs0 sched)))
     ≤ unfinished_tasks
         (world (cli slugify output cwd threads data env fs0 sched)))%Z.
Proof.
  destruct (accounts_run slugify env (path_div cwd "output") threads data fs0 sched)
    as [_ _ Hunf _ Hsent _].
  fold (cli slugify output cwd threads data env fs0 sched) in Hunf, Hsent.
  split; [done|]. rewrite Hunf.
  assert (sentinels_queued (world (cli slugify output cwd threads data env fs0 sched))
          ≤ length (queue (world (cli slugify output cwd threads data env fs0 sched))))
    by apply length_filter.
  lia.
Qed.

(** Three jobs and two workers; [intro] answers 404 and stops the worker
    that took it: two jobs counted, one error, and that worker's sentinel
    left in the queue at the end. *)
Example accounts_of_a_run :
  joined (cli Samples.slug None Samples.cwd 2
            [Samples.talk; Samples.intro; Samples.live] Samples.never_cancelled ∅
            [Spawn; Step 0; Spawn; Step 1; Step 0; Step 0]) = true
  ∧ overall_completed
      (world (cli Samples.slug None Samples.cwd 2
                [Samples.talk; Samples.intro; Samples.live] Samples.never_cancelled ∅
                [Spawn; Step 0; Spawn; Step 1; Step 0; Step 0])) = 2%Z
  ∧ errors_printed
      (world (cli Samples.slug None Samples.cwd 2
                [Samples.talk; Samples.intro; Samples.live] Samples.never_cancelled ∅
                [Spawn; Step 0; Spawn; Step 1; Step 0; Step 0])) = 1
  ∧ queue
      (world (cli Samples.slug None Samples.cwd 2
                [Samples.talk; Samples.intro; Samples.live] Samples.never_cancelled ∅
                [Spawn; Step 0; Spawn; Step 1; Step 0; Step 0])) = [Sentinel]
  ∧ unfinished_tasks
      (world (cli Samples.slug None Samples.cwd 2
                [Samples.talk; Samples.intro; Samples.live] Samples.never_cancelled ∅
                [Spawn; Step 0; Spawn; Step 1; Step 0; Step 0])) = 1%Z.
Proof. repeat split; vm_compute; reflexivity. Qed.

End DownloadExtra.

(** ** [download_file] and [run] when something fails *)
Module FaultyProps.
Import Download DownloadProps Faulty.

(** *** Agreement with [Download] when nothing fails *)

Lemma write_chunks_agrees fl env tid p chunks : ∀ σ,
  (∀ t, write_error fl t p = None) →
  Faulty.write_chunks fl env tid p chunks None σ
  = Download.write_chunks env tid p chunks σ.
Proof.
  intros σ Hwrite. revert σ.
  induction chunks as [|c rest IH]; intros σ; [done|].
  cbn [Faulty.write_chunks Download.write_chunks].
  destruct (stop_is_set env (clock σ)); [done|].
  by rewrite Hwrite, IH.
Qed.

Lemma download_file_agrees fl env u p w σ :
  length_error fl u = None →
  stream_error fl u = None →
  (∀ t, open_error fl t p = None) →
  (∀ t, write_error fl t p = None) →
  Faulty.download_file fl env u p w σ = Download.download_file env u p w σ.
Proof.
  intros Hlen Hstream Hopen Hwrite.
  unfold Faulty.download_file, Download.download_file.
  destruct (http_get env u) as [e|r]; [done|].
  rewrite Hlen, Hstream, Hopen. by rewrite write_chunks_agrees.
Qed.

(** *** The streaming loop *)

Lemma write_chunks_result fl env tid p chunks after : ∀ σ o σ' data t,
  Faulty.write_chunks fl env tid p chunks after σ = (o, σ') →
  fs σ !! p = Some data →
  tasks σ !! tid = Some t →
  ∃ k counted part writes,
    fs σ' = <[p := data ++ concat (take k chunks) ++ part]> (fs σ)
    ∧ fs_log σ' = fs_log σ ++ writes
    ∧ tasks σ' !! tid
      = Some {| total := total t;
                completed :=
                  (completed t
                   + Z.of_nat (length (concat (take counted chunks))))%Z;
                started := started t |}
    ∧ k ≤ length chunks
    ∧ match o with
      | Completed => k = length chunks ∧ counted = k ∧ part = [] ∧ after = None
      | Cancelled => k < length chunks ∧ counted = k ∧ part = []
      | Raised e =>
          (k = length chunks ∧ counted = k ∧ part = [] ∧ after = Some e)
          ∨ (counted = S k
             ∧ ∃ c n tw, chunks !! k = Some c
                         ∧ write_error fl tw p = Some (e, n)
                         ∧ part = take n c)
      | Skipped => False
      end.
Proof.
  induction chunks as [|c rest IH]; intros σ o σ' data t Hrun Hfile Htask.
  - cbn [Faulty.write_chunks] in Hrun.
    exists 0, 0, [], []. cbn. rewrite !app_nil_r, Z.add_0_r, insert_id by done.
    destruct after as [e|]; injection Hrun as <- <-;
      (split; [done|]); (split; [done|]); (split; [by destruct t|]);
      (split; [done|]); auto.
  - cbn [Faulty.write_chunks] in Hrun.
    destruct (stop_is_set env (clock σ)).
    { injection Hrun as <- <-. exists 0, 0, [], []. cbn.
      rewrite !app_nil_r, Z.add_0_r, insert_id by done.
      split; [done|]. split; [done|]. split; [by destruct t|].
      split; [lia|]. split; [lia|]. done. }
    cbn [clock update_advance set_tasks tick] in Hrun.
    destruct (write_error fl (S (clock σ)) p) as [[e n]|] eqn:Hwrite.
    { injection Hrun as <- <-. exists 0, 1, (take n c), [Wrote (S (clock σ)) p (take n c)].
      cbn. rewrite Hfile, app_nil_r, lookup_alter_eq, Htask. cbn.
      split; [done|]. split; [done|]. split; [done|]. split; [lia|].
      right. split; [done|]. by exists c, n, (S (clock σ)). }
    eapply (IH _ _ _ (data ++ c)
              {| total := total t;
                 completed := (completed t + Z.of_nat (length c))%Z;
                 started := started t |})
      in Hrun as (k & counted & part & writes & Hfs & Hlog & Htasks & Hk & Ho).
    + exists (S k), (S counted), part, (Wrote (S (clock σ)) p c :: writes).
      cbn [take concat length]. split; [|split; [|split; [|split]]].
      * rewrite Hfs. cbn. rewrite Hfile. cbn.
        by rewrite insert_insert_eq, <- !app_assoc.
      * rewrite Hlog. cbn. by rewrite <- app_assoc.
      * rewrite Htasks. cbn. by rewrite length_app, Nat2Z.inj_add, Z.add_assoc.
      * lia.
      * destruct o as [| | |e].
        -- by destruct Ho as (-> & -> & -> & ->).
        -- done.
        -- destruct Ho as (? & -> & ->). split; [lia|done].
        -- destruct Ho as [(-> & -> & -> & ->)|(-> & c' & n & tw & Hc & Hw & ->)];
             [by left|].
           right. split; [done|]. by exists c', n, tw.
    + cbn. by rewrite Hfile, lookup_insert_eq.
    + cbn. by rewrite lookup_alter_eq, Htask.
Qed.


(** With nothing to interrupt it, the loop runs to the end of the body. *)
Lemma write_chunks_completes fl env tid p chunks : ∀ σ,
  cancel_at env = None →
  (∀ t, write_error fl t p = None) →
  (Faulty.write_chunks fl env tid p chunks None σ).1 = Completed.
Proof.
  intros σ Hnever Hwrite. revert σ.
  induction chunks as [|c rest IH]; intros σ; [done|].
  cbn [Faulty.write_chunks]. unfold stop_is_set. rewrite Hnever, Hwrite.
  apply IH.
Qed.

(** *** One call of [download_file] *)

(** X15.  Whenever a transfer starts (the response is not skipped, its
    status is accepted, and the file opens), whatever was at the target
    before is replaced.  At the end the file holds some first chunks of the
    body, and the task of the transfer shows the announced length as total
    and the size of the file as completed; unless a write failed: then the
    file also holds the part of the next chunk that got through, and the
    task counts that chunk in full, the progress being advanced before the
    chunk is written.  The file holds the whole body when the call returns
    without having been cancelled, and when the stream breaks after its last
    chunk; and the call does return so when the stop event is never set,
    the stream does not break and no write fails. *)
Theorem progress_counts_bytes_on_disk fl env u p w σ r :
  http_get env u = Responds r →
  length_error fl u = None →
  same_size σ p (default 0%Z (content_length r)) = false →
  raise_for_status r = false →
  open_error fl (clock σ) p = None →
  ∃ o w' σ' k counted part,
    Faulty.download_file fl env u p w σ = (o, w', σ')
    ∧ fs σ' !! p = Some (concat (take k (body r)) ++ part)
    ∧ tasks σ' !! next_task_id σ
      = Some {| total := default 0%Z (content_length r);
                completed := Z.of_nat (length (concat (take counted (body r))));
                started := true |}
    ∧ match o with
      | Completed =>
          k = length (body r) ∧ counted = k ∧ part = []
          ∧ stream_error fl u = None
      | Cancelled => k < length (body r) ∧ counted = k ∧ part = []
      | Raised e =>
          (k = length (body r) ∧ counted = k ∧ part = []
           ∧ stream_error fl u = Some e)
          ∨ (counted = S k
             ∧ ∃ c n tw, body r !! k = Some c
                         ∧ write_error fl tw p = Some (e, n)
                         ∧ part = take n c)
      | Skipped => False
      end
    ∧ (cancel_at env = None → stream_error fl u = None →
       (∀ t, write_error fl t p = None) → o = Completed).
Proof.
  intros Hget Hlen Hsame Hstatus Hopen. unfold Faulty.download_file.
  rewrite Hget, Hlen. change (same_size (add_task σ)) with (same_size σ).
  rewrite Hsame, Hstatus.
  change (clock (update_total _ _ (add_task σ))) with (clock σ). rewrite Hopen.
  destruct (Faulty.write_chunks _ _ _ _ _ _ _) as [o σ'] eqn:Hloop.
  destruct (write_chunks_result _ _ _ _ _ _ _ _ _ []
              {| total := default 0%Z (content_length r); completed := 0;
                 started := true |} Hloop)
    as (k & counted & part & writes & Hfs & _ & Htask & _ & Ho).
  { cbn. by rewrite lookup_insert_eq. }
  { cbn. by rewrite !lookup_alter_eq, lookup_insert_eq. }
  exists o, (set_task_id (Some (next_task_id σ)) w), σ', k, counted, part.
  split; [done|]. split; [by rewrite Hfs, lookup_insert_eq|].
  split; [done|]. split; [done|].
  intros Hnever Hstream Hwrite. rewrite Hstream in Hloop.
  pose proof (write_chunks_completes fl env (next_task_id σ) p (body r)
                (start_task (next_task_id σ)
                   (open_wb p
                      (update_total (next_task_id σ)
                         (default 0%Z (content_length r)) (add_task σ))))
                Hnever Hwrite) as Hdone.
  by rewrite Hloop in Hdone.
Qed.

(** X17.  When [download_file] raises, one of two things has happened.
    Either [requests.get], [int(...)] on the header, [raise_for_status] or
    [open] raised: then no file was opened or written, and a file already
    at the target is as it was.  Or the file had been opened, and so
    emptied, and the stream broke or a write failed: the target then holds
    what had been written of the body. *)
Theorem download_file_raised_cases fl env u p w σ e :
  (Faulty.download_file fl env u p w σ).1.1 = Raised e →
  (fs (Faulty.download_file fl env u p w σ).2 = fs σ
   ∧ fs_log (Faulty.download_file fl env u p w σ).2 = fs_log σ
   ∧ (http_get env u = Raises e
      ∨ ∃ r, http_get env u = Responds r
             ∧ (length_error fl u = Some e
                ∨ (raise_for_status r = true ∧ e = HTTPError (status_code r) u)
                ∨ open_error fl (clock σ) p = Some e)))
  ∨ (∃ r k part writes,
       http_get env u = Responds r
       ∧ fs_log (Faulty.download_file fl env u p w σ).2
         = fs_log σ ++ Opened (clock σ) p :: writes
       ∧ fs (Faulty.download_file fl env u p w σ).2
         = <[p := concat (take k (body r)) ++ part]> (fs σ)
       ∧ ((k = length (body r) ∧ part = [] ∧ stream_error fl u = Some e)
          ∨ ∃ c n tw, body r !! k = Some c
                      ∧ write_error fl tw p = Some (e, n)
                      ∧ part = take n c)).
Proof.
  unfold Faulty.download_file.
  destruct (http_get env u) as [e'|r] eqn:Hget.
  { cbn. intros [= ->]. left. auto. }
  destruct (length_error fl u) as [e'|] eqn:Hlen.
  { cbn. intros [= ->]. left. split; [done|]. split; [done|]. right.
    exists r. auto. }
  change (same_size (add_task σ)) with (same_size σ).
  destruct (same_size σ p (default 0%Z (content_length r))); [done|].
  destruct (raise_for_status r) eqn:Hstatus.
  { cbn. intros [= <-]. left. split; [done|]. split; [done|]. right.
    exists r. auto. }
  change (clock (update_total _ _ (add_task σ))) with (clock σ).
  destruct (open_error fl (clock σ) p) as [e'|] eqn:Hopen.
  { cbn. intros [= ->]. left. split; [done|]. split; [done|]. right.
    exists r. auto. }
  destruct (Faulty.write_chunks _ _ _ _ _ _ _) as [o σ'] eqn:Hloop.
  cbn [fst snd]. intros ->. right.
  destruct (write_chunks_result _ _ _ _ _ _ _ _ _ []
              {| total := default 0%Z (content_length r); completed := 0;
                 started := true |} Hloop)
    as (k & counted & part & writes & Hfs & Hlog & _ & _ & Ho).
  { cbn. by rewrite lookup_insert_eq. }
  { cbn. by rewrite !lookup_alter_eq, lookup_insert_eq. }
  exists r, k, part, writes. split; [done|]. split.
  { rewrite Hlog. cbn. by rewrite <- app_assoc. }
  split; [rewrite Hfs; cbn; by rewrite insert_insert_eq|].
  destruct Ho as [(-> & _ & -> & Hs)|(_ & c & n & tw & Hc & Hw & ->)];
    [by left|].
  right. by exists c, n, tw.
Qed.

(** *** A worker on its own *)

Section Worker.

Variable slugify : string -> string.

Lemma run_body_agrees fl env wid w σ :
  (∀ entry q, queue σ = Job entry :: q →
     all_healthy slugify fl env (output w) [entry]) →
  Faulty.run_body slugify fl env wid w σ = Download.run_body slugify env wid w σ.
Proof.
  intros Hhead. unfold Faulty.run_body, Download.run_body.
  destruct (stop_is_set env (clock σ)); [done|].
  change (queue (tick σ)) with (queue σ).
  destruct (queue σ) as [|[entry|] q] eqn:Hq; [done| |done].
  destruct (Hhead entry q eq_refl entry (list_elem_of_here _ _))
    as (_ & Hlen & Hstream & Hopen & Hwrite).
  by rewrite download_file_agrees.
Qed.

(** X24.  A worker that is not cancelled and whose queue starts with jobs
    for which nothing fails (each is served with a status that is accepted
    and a header [int] reads, its body comes through, its file opens and
    takes every write), followed by a sentinel, returns from [run]: it has
    taken those jobs in order and then the sentinel, nothing after it, has
    counted each job, and has cleared [is_running]. *)
Theorem run_takes_jobs_up_to_sentinel fl env wid js :
  ∀ w σ rest fuel,
    cancel_at env = None →
    is_running w = true →
    queue σ = map Job js ++ Sentinel :: rest →
    all_healthy slugify fl env (output w) js →
    length js < fuel →
    ∃ w' σ',
      Faulty.run slugify fuel fl env wid w σ = Some (w', σ')
      ∧ is_running w' = false
      ∧ queue σ' = rest
      ∧ dequeued σ'
        = dequeued σ ++ map (λ entry, (wid, Job entry)) js ++ [(wid, Sentinel)]
      ∧ overall_completed σ'
        = (overall_completed σ + Z.of_nat (length js))%Z.
Proof.
  induction js as [|entry js IH]; intros w σ rest fuel Hnever Hrun Hq Hhealthy Hfuel;
    (destruct fuel as [|fuel]; [cbn in Hfuel; lia|]);
    cbn [Faulty.run]; rewrite Hrun;
    assert (stop_is_set env (clock σ) = false) as Hstop
      by (unfold stop_is_set; by rewrite Hnever).
  - rewrite run_body_agrees by (intros entry q Hq'; by rewrite Hq in Hq').
    rewrite (run_body_sentinel _ _ _ _ _ rest) by done.
    eexists _, _. split; [done|]. cbn. split; [done|]. split; [done|].
    split; [done|lia].
  - cbn [map app] in Hq.
    rewrite run_body_agrees.
    2:{ intros entry' q Hq'. rewrite Hq in Hq'. injection Hq' as <- _.
        intros e He. apply list_elem_of_singleton in He as ->.
        apply Hhealthy, list_elem_of_here. }
    destruct (download_of slugify env wid w σ entry (map Job js ++ Sentinel :: rest))
      as [[o w1] σ1] eqn:Hdl.
    destruct (Hhealthy entry (list_elem_of_here _ _)) as ((r & Hget & Hstatus) & _).
    assert (raised o = false) as Ho.
    { pose proof (download_file_returns env (url entry)
                    (output_video slugify (output w) entry) (set_task_id None w)
                    (queue_got wid (Job entry) (map Job js ++ Sentinel :: rest)
                       (tick σ)) r Hget Hstatus) as Hret.
      unfold download_of in Hdl. by rewrite Hdl in Hret. }
    rewrite (run_body_returned slugify env wid w σ entry _ o w1 σ1 Hstop Hq Hdl Ho).
    pose proof (job_pass_effect slugify env _ _ _ _ _ _ _ _ w1 Hdl)
      as (Eq & Ed & _ & _ & _ & Eov & _ & Hr1 & Hout).
    assert (match o with Raised e => console_print (ErrorMsg e) σ1 | _ => σ1 end
            = σ1) as Hσ1 by (by destruct o).
    rewrite Hσ1 in Eq, Ed, Eov.
    destruct (IH w1 (run_finally w1 σ1) rest fuel)
      as (w' & σ' & Hrun' & Hr' & Hq' & Hd' & Hov');
      [done | by rewrite Hr1 | done | | cbn in Hfuel; lia |].
    { rewrite Hout. intros e He. apply Hhealthy. by apply list_elem_of_further. }
    exists w', σ'. split; [done|]. split; [done|]. split; [done|].
    split.
    + rewrite Hd', Ed. cbn [map]. by rewrite <- !app_assoc.
    + rewrite Hov', Eov, Hr1, Hrun. cbn [length]. lia.
Qed.

(** X25.  [queue.get()] has no timeout: a worker that is not cancelled and
    whose queue holds jobs for which nothing fails, but no sentinel, never
    returns from [run]. *)
Theorem run_waits_without_sentinel fl env wid js :
  ∀ w σ fuel,
    cancel_at env = None →
    is_running w = true →
    queue σ = map Job js →
    all_healthy slugify fl env (output w) js →
    Faulty.run slugify fuel fl env wid w σ = None.
Proof.
  induction js as [|entry js IH]; intros w σ fuel Hnever Hrun Hq Hhealthy;
    (destruct fuel as [|fuel]; [cbn; by rewrite Hrun|]);
    cbn [Faulty.run]; rewrite Hrun;
    assert (stop_is_set env (clock σ) = false) as Hstop
      by (unfold stop_is_set; by rewrite Hnever).
  - rewrite run_body_agrees by (intros entry q Hq'; by rewrite Hq in Hq').
    by rewrite run_body_blocked.
  - cbn [map] in Hq.
    rewrite run_body_agrees.
    2:{ intros entry' q Hq'. rewrite Hq in Hq'. injection Hq' as <- _.
        intros e He. apply list_elem_of_singleton in He as ->.
        apply Hhealthy, list_elem_of_here. }
    destruct (download_of slugify env wid w σ entry (map Job js))
      as [[o w1] σ1] eqn:Hdl.
    destruct (Hhealthy entry (list_elem_of_here _ _)) as ((r & Hget & Hstatus) & _).
    assert (raised o = false) as Ho.
    { pose proof (download_file_returns env (url entry)
                    (output_video slugify (output w) entry) (set_task_id None w)
                    (queue_got wid (Job entry) (map Job js) (tick σ)) r Hget Hstatus)
        as Hret.
      unfold download_of in Hdl. by rewrite Hdl in Hret. }
    rewrite (run_body_returned slugify env wid w σ entry _ o w1 σ1 Hstop Hq Hdl Ho).
    pose proof (job_pass_effect slugify env _ _ _ _ _ _ _ _ w1 Hdl)
      as (Eq & _ & _ & _ & _ & _ & _ & Hr1 & Hout).
    assert (match o with Raised e => console_print (ErrorMsg e) σ1 | _ => σ1 end
            = σ1) as Hσ1 by (by destruct o).
    rewrite Hσ1 in Eq.
    apply IH; [done | by rewrite Hr1 | done |].
    rewrite Hout. intros e He. apply Hhealthy. by apply list_elem_of_further.
Qed.

End Worker.


(** The stream of [live] breaks after its one chunk: the call raises, and
    the file holds that chunk. *)
Lemma progress_counts_bytes_on_disk_witness :
  ∃ o w' σ' k counted part,
    Faulty.download_file Samples.troubles Samples.never_cancelled
      "http://h/live.mp4" ["home"; "user"; "output"; "live.mp4"] Samples.worker0
      (Samples.world_of Samples.fs_talk [Samples.live])
    = (o, w', σ')
    ∧ fs σ' !! ["home"; "user"; "output"; "live.mp4"]
      = Some (concat (take k [[Samples.b1]]) ++ part)
    ∧ tasks σ' !! 0
      = Some {| total := 0;
                completed :=
                  Z.of_nat (length (concat (take counted [[Samples.b1]])));
                started := true |}
    ∧ match o with
      | Completed =>
          k = 1 ∧ counted = k ∧ part = []
          ∧ Faulty.stream_error Samples.troubles "http://h/live.mp4" = None
      | Cancelled => k < 1 ∧ counted = k ∧ part = []
      | Raised e =>
          (k = 1 ∧ counted = k ∧ part = []
           ∧ Some (RequestException "ChunkedEncodingError") = Some e)
          ∨ (counted = S k
             ∧ ∃ c n tw, [[Samples.b1]] !! k = Some c
                         ∧ Faulty.write_error Samples.troubles tw
                             ["home"; "user"; "output"; "live.mp4"] = Some (e, n)
                         ∧ part = take n c)
      | Skipped => False
      end
    ∧ (cancel_at Samples.never_cancelled = None →
       Faulty.stream_error Samples.troubles "http://h/live.mp4" = None →
       (∀ t, Faulty.write_error Samples.troubles t
               ["home"; "user"; "output"; "live.mp4"] = None) →
       o = Completed).
Proof.
  apply (progress_counts_bytes_on_disk Samples.troubles Samples.never_cancelled
           "http://h/live.mp4" ["home"; "user"; "output"; "live.mp4"]
           Samples.worker0 (Samples.world_of Samples.fs_talk [Samples.live])
           {| status_code := 200; content_length := None;
              body := [[Samples.b1]] |});
    reflexivity.
Defined.

(** The same call, and [talk] on a disk that fills up, evaluated: the
    broken stream leaves the whole chunk behind an exception; the failed
    write leaves the first chunk of two bytes on disk, with all three bytes
    counted by the task. *)
Example broken_stream_and_full_disk :
  (Faulty.download_file Samples.troubles Samples.never_cancelled
     "http://h/live.mp4" ["home"; "user"; "output"; "live.mp4"] Samples.worker0
     (Samples.world_of ∅ [Samples.live])).1.1
  = Raised (RequestException "ChunkedEncodingError")
  ∧ fs (Faulty.download_file Samples.troubles Samples.never_cancelled
          "http://h/live.mp4" ["home"; "user"; "output"; "live.mp4"]
          Samples.worker0 (Samples.world_of ∅ [Samples.live])).2
      !! ["home"; "user"; "output"; "live.mp4"] = Some [Samples.b1]
  ∧ (Faulty.download_file Samples.full_disk Samples.never_cancelled
       "http://h/talk.mp4" ["home"; "user"; "output"; "talk.mp4"] Samples.worker0
       (tick (Samples.world_of ∅ [Samples.talk]))).1.1
    = Raised (OSError "No space left on device")
  ∧ fs (Faulty.download_file Samples.full_disk Samples.never_cancelled
          "http://h/talk.mp4" ["home"; "user"; "output"; "talk.mp4"]
          Samples.worker0 (tick (Samples.world_of ∅ [Samples.talk]))).2
      !! ["home"; "user"; "output"; "talk.mp4"]
    = Some [Samples.b1; Samples.b2]
  ∧ tasks (Faulty.download_file Samples.full_disk Samples.never_cancelled
             "http://h/talk.mp4" ["home"; "user"; "output"; "talk.mp4"]
             Samples.worker0 (tick (Samples.world_of ∅ [Samples.talk]))).2 !! 0
    = Some {| total := 3; completed := 3; started := true |}.
Proof. repeat split; vm_compute; reflexivity. Qed.

(** The header of [intro] is not a number: [int(...)] raises before the
    status is looked at, and the complete [talk] on disk is as it was. *)
Lemma download_file_raised_cases_witness :
  (fs (Faulty.download_file Samples.troubles Samples.never_cancelled
         "http://h/intro.mp4" ["home"; "user"; "output"; "talk.mp4"]
         Samples.worker0 (Samples.world_of Samples.fs_talk [Samples.intro])).2
   = fs (Samples.world_of Samples.fs_talk [Samples.intro])
   ∧ fs_log (Faulty.download_file Samples.troubles Samples.never_cancelled
               "http://h/intro.mp4" ["home"; "user"; "output"; "talk.mp4"]
               Samples.worker0
               (Samples.world_of Samples.fs_talk [Samples.intro])).2
     = fs_log (Samples.world_of Samples.fs_talk [Samples.intro])
   ∧ (Samples.remote "http://h/intro.mp4"
      = Raises (ValueError "invalid literal for int()")
      ∨ ∃ r, Samples.remote "http://h/intro.mp4" = Responds r
             ∧ (Faulty.length_error Samples.troubles "http://h/intro.mp4"
                = Some (ValueError "invalid literal for int()")
                ∨ (raise_for_status r = true
                   ∧ ValueError "invalid literal for int()"
                     = HTTPError (status_code r) "http://h/intro.mp4")
                ∨ Faulty.open_error Samples.troubles
                    (clock (Samples.world_of Samples.fs_talk [Samples.intro]))
                    ["home"; "user"; "output"; "talk.mp4"]
                  = Some (ValueError "invalid literal for int()"))))
  ∨ (∃ r k part writes,
       Samples.remote "http://h/intro.mp4" = Responds r
       ∧ fs_log (Faulty.download_file Samples.troubles Samples.never_cancelled
                   "http://h/intro.mp4" ["home"; "user"; "output"; "talk.mp4"]
                   Samples.worker0
                   (Samples.world_of Samples.fs_talk [Samples.intro])).2
         = fs_log (Samples.world_of Samples.fs_talk [Samples.intro])
             ++ Opened (clock (Samples.world_of Samples.fs_talk [Samples.intro]))
                  ["home"; "user"; "output"; "talk.mp4"] :: writes
       ∧ fs (Faulty.download_file Samples.troubles Samples.never_cancelled
               "http://h/intro.mp4" ["home"; "user"; "output"; "talk.mp4"]
               Samples.worker0
               (Samples.world_of Samples.fs_talk [Samples.intro])).2
         = <[["home"; "user"; "output"; "talk.mp4"]
               := concat (take k (body r)) ++ part]>
             (fs (Samples.world_of Samples.fs_talk [Samples.intro]))
       ∧ ((k = length (body r) ∧ part = []
           ∧ Faulty.stream_error Samples.troubles "http://h/intro.mp4"
             = Some (ValueError "invalid literal for int()"))
          ∨ ∃ c n tw, body r !! k = Some c
                      ∧ Faulty.write_error Samples.troubles tw
                          ["home"; "user"; "output"; "talk.mp4"]
                        = Some (ValueError "invalid literal for int()", n)
                      ∧ part = take n c)).
Proof.
  apply (download_file_raised_cases Samples.troubles Samples.never_cancelled
           "http://h/intro.mp4" ["home"; "user"; "output"; "talk.mp4"]
           Samples.worker0 (Samples.world_of Samples.fs_talk [Samples.intro])
           (ValueError "invalid literal for int()")).
  reflexivity.
Defined.

Lemma run_takes_jobs_up_to_sentinel_witness :
  ∃ w' σ',
    Faulty.run Samples.slug 3 Samples.troubles Samples.never_cancelled 0
      Samples.worker0 (Samples.world_of ∅ [Samples.talk; Samples.talk])
    = Some (w', σ')
    ∧ is_running w' = false
    ∧ queue σ' = []
    ∧ dequeued σ'
      = [] ++ map (λ entry, (0, Job entry)) [Samples.talk; Samples.talk]
           ++ [(0, Sentinel)]
    ∧ overall_completed σ' = (0 + Z.of_nat (length [Samples.talk; Samples.talk]))%Z.
Proof.
  apply (run_takes_jobs_up_to_sentinel Samples.slug Samples.troubles
           Samples.never_cancelled 0 [Samples.talk; Samples.talk] Samples.worker0
           (Samples.world_of ∅ [Samples.talk; Samples.talk]) [] 3);
    [reflexivity | reflexivity | reflexivity | | cbn; lia].
  intros entry Hin.
  repeat (apply elem_of_cons in Hin as [->|Hin]);
    [| |by apply elem_of_nil in Hin];
    (split; [eexists; split; reflexivity|]); repeat split; reflexivity.
Defined.

Lemma run_waits_without_sentinel_witness :
  Faulty.run Samples.slug 9 Samples.troubles Samples.never_cancelled 0
    Samples.worker0 (put_all [Samples.talk; Samples.talk] (empty_world ∅)) = None.
Proof.
  apply (run_waits_without_sentinel Samples.slug Samples.troubles
           Samples.never_cancelled 0 [Samples.talk; Samples.talk] Samples.worker0
           (put_all [Samples.talk; Samples.talk] (empty_world ∅)) 9);
    [reflexivity | reflexivity | reflexivity |].
  intros entry Hin.
  repeat (apply elem_of_cons in Hin as [->|Hin]);
    [| |by apply elem_of_nil in Hin];
    (split; [eexists; split; reflexivity|]); repeat split; reflexivity.
Defined.

(** Without the hypothesis that nothing fails, the worker does return: the
    stream of [live] breaks, the handler clears [is_running], and [run]
    ends with the sentinel still queued. *)
Example broken_stream_stops_the_worker :
  ∃ w' σ',
    Faulty.run Samples.slug 9 Samples.troubles Samples.never_cancelled 0
      Samples.worker0 (Samples.world_of ∅ [Samples.live]) = Some (w', σ')
    ∧ is_running w' = false
    ∧ queue σ' = [Sentinel]
    ∧ console σ' = [ErrorMsg (RequestException "ChunkedEncodingError")]
    ∧ overall_completed σ' = 0%Z.
Proof. eexists _, _. split; [vm_compute; reflexivity|]. by vm_compute. Qed.

End FaultyProps.
(** ** Cancellation, with the threads interleaved operation by operation *)
Module ThreadsProps.
Import Download Faulty Threads.

Lemma done_by_app k i j tr acts :
  done_by k i (tr ++ map (pair j) acts)
  = done_by k i tr
    ++ (if decide (j = i) then filter (λ a, is_kind k a = true) acts else []).
Proof.
  unfold done_by. rewrite filter_app, fmap_app, filter_app. f_equal.
  destruct (decide (j = i)) as [->|Hne].
  - induction acts as [|a acts IH]; [done|].
    cbn [map]. rewrite filter_cons_True by done. rewrite fmap_cons. cbn [snd].
    rewrite !filter_cons, IH. done.
  - induction acts as [|a acts IH]; [done|].
    cbn [map]. by rewrite filter_cons_False by done.
Qed.

Section Machine.

Variable slugify : string -> string.
Variable fl : Faults.
Variable http_get : string -> GetResult.
Variable output_dir : Path.

Local Abbreviation thread_step := (thread_step slugify fl http_get).
Local Abbreviation exec := (exec slugify fl http_get output_dir).
Local Abbreviation step := (step slugify fl http_get).

(** One operation with the event set: what is taken or written comes off
    the allowance, and [run] is one operation nearer to its return. *)
Lemma thread_step_stopped wid th σ th' σ' acts :
  thread_step wid true th σ = Some (th', σ', acts) →
  (∀ k, length (filter (λ a, is_kind k a = true) acts) + allowance k (pc th')
        ≤ allowance k (pc th))
  ∧ distance (pc th') ≤ pred (distance (pc th)).
Proof.
  destruct th as [l w]. unfold Threads.thread_step, at_pc. cbn [pc me].
  destruct l; intros Hstep;
    repeat match type of Hstep with
           | context [match ?x with _ => _ end] => destruct x eqn:?
           end;
    simplify_eq; (split; [intros []|]); cbn; repeat case_decide; try done;
    cbn; lia.
Qed.

(** What one operation does to the queue and to the thread's standing. *)
Lemma thread_step_supply wid stop th σ th' σ' acts :
  thread_step wid stop th σ = Some (th', σ', acts) →
  (pc th = AtGet → is_running (me th) = true) →
  (pc th' = AtGet → is_running (me th') = true)
  ∧ (spent th = true → spent th' = true)
  ∧ (queue σ' = queue σ
     ∨ (∃ q, queue σ = Sentinel :: q ∧ queue σ' = q
             ∧ spent th = false ∧ spent th' = true)
     ∨ (∃ entry q, queue σ = Job entry :: q ∧ queue σ' = q)).
Proof.
  destruct th as [l [out tid running]].
  unfold Threads.thread_step, spent, on_task, at_pc. cbn [pc me is_running].
  destruct l, running; intros Hstep Hget;
    repeat match type of Hstep with
           | context [match ?x with _ => _ end] => destruct x eqn:?
           end;
    simplify_eq; cbn; try (by specialize (Hget eq_refl));
    try (split; [done|]; split; [done|]; by left).
  - split; [done|]. split; [done|]. right. right. eauto.
  - split; [done|]. split; [done|]. right. left. eauto.
Qed.

(** *** With the stop event set *)

Lemma exec_stopped e m :
  stop_event m = true →
  stop_event (exec e m) = true
  ∧ ∀ k i, length (done_by k i (trace (exec e m)))
           + allowance k (pc_of i (exec e m))
           ≤ length (done_by k i (trace m)) + allowance k (pc_of i m).
Proof.
  intros Hstop. destruct e as [|j|]; cbn [Threads.exec].
  - unfold spawn. destruct (unspawned m); [done|]. split; [done|].
    intros k i. unfold pc_of. cbn [trace threads].
    destruct (threads m !! i) as [th|] eqn:Hi.
    + by rewrite (lookup_app_l_Some _ _ _ _ Hi).
    + apply lookup_ge_None in Hi.
      destruct (decide (i = length (threads m))) as [->|Hne].
      * rewrite lookup_app_r, Nat.sub_diag by lia. cbn [lookup list_lookup pc].
        by destruct k.
      * rewrite lookup_ge_None_2; [done|]. rewrite length_app. cbn. lia.
  - unfold Threads.step. destruct (threads m !! j) as [th|] eqn:Hj; [|done].
    rewrite Hstop.
    destruct (thread_step j true th (shared m)) as [[[th' σ'] acts]|] eqn:Hstep;
      [|done].
    split; [done|]. intros k i. unfold pc_of. cbn [trace threads].
    rewrite done_by_app, length_app.
    destruct (decide (j = i)) as [->|Hne].
    + rewrite list_lookup_insert_eq by (by eapply lookup_lt_Some). rewrite Hj.
      apply thread_step_stopped in Hstep as [Hstep _]. specialize (Hstep k). lia.
    + rewrite list_lookup_insert_ne by done. cbn [length]. lia.
  - unfold cancel. by destruct (unspawned m).
Qed.

Lemma foldl_stopped more : ∀ m,
  stop_event m = true →
  stop_event (foldl (λ m e, exec e m) m more) = true
  ∧ ∀ k i, length (done_by k i (trace (foldl (λ m e, exec e m) m more)))
           + allowance k (pc_of i (foldl (λ m e, exec e m) m more))
           ≤ length (done_by k i (trace m)) + allowance k (pc_of i m).
Proof.
  induction more as [|e more IH]; intros m Hstop; cbn [foldl]; [split; [done|lia]|].
  destruct (exec_stopped e m Hstop) as [Hstop' Hone].
  destruct (IH _ Hstop') as [Hend Hall]. split; [done|].
  intros k i. specialize (Hone k i). specialize (Hall k i). lia.
Qed.

(** *** In every run *)

Lemma machine_inv_exec e m : machine_inv m → machine_inv (exec e m).
Proof.
  intros [Hstop Hsupply Hget]. destruct e as [|j|]; cbn [Threads.exec].
  - unfold spawn. destruct (unspawned m) as [|n] eqn:Hn; [by constructor|].
    constructor; cbn.
    + intros Hs. specialize (Hstop Hs). lia.
    + rewrite !filter_app, !length_app.
      rewrite !filter_cons_True, !filter_nil by done. cbn. lia.
    + intros i th Hi. apply lookup_app_Some in Hi as [Hi|[_ Hi]]; [by eapply Hget|].
      apply list_lookup_singleton_Some in Hi as [_ <-]. done.
  - unfold Threads.step. destruct (threads m !! j) as [th|] eqn:Hj; [|by constructor].
    destruct (thread_step j (stop_event m) th (shared m))
      as [[[th' σ'] acts]|] eqn:Hstep; [|by constructor].
    destruct (thread_step_supply _ _ _ _ _ _ _ Hstep (Hget j th Hj))
      as (Hget' & Hspent & Hqueue).
    pose proof (DownloadProps.filter_insert_length
                  (λ th, spent th = false) (threads m) j th th' Hj) as Hins.
    cbn beta in Hins.
    constructor; cbn.
    + done.
    + destruct Hqueue as [->|[(q & Hq & -> & Hs & Hs')|(entry & q & Hq & ->)]].
      * destruct (spent th) eqn:Hs.
        -- rewrite (Hspent eq_refl) in Hins.
           rewrite !decide_False in Hins by done. lia.
        -- rewrite decide_True in Hins by done.
           destruct (decide (spent th' = false)); lia.
      * rewrite Hq, filter_cons_True in Hsupply by done. cbn in Hsupply.
        rewrite Hs, Hs' in Hins.
        rewrite decide_True, decide_False in Hins by done. lia.
      * rewrite Hq, filter_cons_False in Hsupply by done.
        destruct (spent th) eqn:Hs.
        -- rewrite (Hspent eq_refl) in Hins.
           rewrite !decide_False in Hins by done. lia.
        -- rewrite decide_True in Hins by done.
           destruct (decide (spent th' = false)); lia.
    + intros i th0 Hi. destruct (decide (i = j)) as [->|Hne].
      * rewrite list_lookup_insert_eq in Hi by (by eapply lookup_lt_Some).
        by injection Hi as <-.
      * rewrite list_lookup_insert_ne in Hi by done. by eapply Hget.
  - unfold cancel. destruct (unspawned m) eqn:Hn; constructor; cbn; try done.
    intros Hs. specialize (Hstop Hs). lia.
Qed.

Lemma machine_inv_foldl sched : ∀ m,
  machine_inv m → machine_inv (foldl (λ m e, exec e m) m sched).
Proof.
  induction sched as [|e sched IH]; intros m Hm; cbn [foldl]; [done|].
  apply IH, machine_inv_exec, Hm.
Qed.

(** A thread about to call [queue.get()] finds something in the queue. *)
Lemma get_does_not_block m i th :
  machine_inv m → threads m !! i = Some th → pc th = AtGet →
  queue (shared m) ≠ [].
Proof.
  intros [_ Hsupply Hget] Hi Hpc Hempty. rewrite Hempty in Hsupply.
  assert (th ∈ filter (λ th, spent th = false) (threads m)) as Hin.
  { apply list_elem_of_filter. split; [|by eapply list_elem_of_lookup_2].
    unfold spent. rewrite Hpc. by rewrite (Hget i th Hi Hpc). }
  destruct (filter _ (threads m)); [by apply elem_of_nil in Hin|].
  cbn in Hsupply. lia.
Qed.

Lemma exec_nearer e m i :
  machine_inv m → stop_event m = true → i < length (threads m) →
  length (threads (exec e m)) = length (threads m)
  ∧ distance (pc_of i (exec e m))
    ≤ distance (pc_of i m) - (if decide (e = Step i) then 1 else 0).
Proof.
  intros Hinv Hstop Hi. pose proof Hinv as [Hunspawned _ _].
  destruct e as [|j|]; cbn [Threads.exec].
  - unfold spawn. rewrite (Hunspawned Hstop).
    rewrite decide_False by done. split; [done|lia].
  - unfold Threads.step. destruct (threads m !! j) as [th|] eqn:Hj.
    2:{ split; [done|]. rewrite decide_False; [lia|].
        intros [= ->]. apply lookup_ge_None in Hj. lia. }
    rewrite Hstop.
    destruct (thread_step j true th (shared m)) as [[[th' σ'] acts]|] eqn:Hstep.
    + cbn. rewrite length_insert. split; [done|]. unfold pc_of. cbn.
      destruct (decide (j = i)) as [->|Hne].
      * rewrite list_lookup_insert_eq by (by eapply lookup_lt_Some). rewrite Hj.
        rewrite decide_True by done.
        apply thread_step_stopped in Hstep as [_ Hstep]. lia.
      * rewrite list_lookup_insert_ne by done.
        rewrite decide_False by congruence. lia.
    + exfalso. destruct th as [l w]. unfold Threads.thread_step in Hstep.
      cbn [pc me] in Hstep.
      destruct l; repeat case_match; simplify_eq.
      by eapply (get_does_not_block m j).
  - unfold cancel. destruct (unspawned m); rewrite decide_False by done;
      (split; [done|]); cbn; unfold pc_of; cbn; lia.
Qed.

Lemma foldl_nearer more : ∀ m i,
  machine_inv m → stop_event m = true → i < length (threads m) →
  distance (pc_of i (foldl (λ m e, exec e m) m more))
  ≤ distance (pc_of i m) - steps_of i more.
Proof.
  induction more as [|e more IH]; intros m i Hinv Hstop Hi; cbn [foldl].
  { unfold steps_of. cbn. lia. }
  destruct (exec_nearer e m i Hinv Hstop Hi) as [Hlen Hone].
  destruct (exec_stopped e m Hstop) as [Hstop' _].
  specialize (IH (exec e m) i (machine_inv_exec e m Hinv) Hstop').
  rewrite Hlen in IH. specialize (IH Hi).
  unfold steps_of in *. rewrite filter_cons.
  destruct (decide (e = Step i)); cbn [length] in *; lia.
Qed.

End Machine.

(** X26.  No worker ever waits on the queue.  In every run, however the
    threads are interleaved and whatever fails, a worker about to call
    [queue.get()] finds an item there: the queue still holds a sentinel,
    since one was put for each worker before it started and a worker takes
    one at most. *)
Theorem get_never_blocks (slugify : string → string) fl http_get cwd nthreads
    data fs0 sched i th :
  threads (cli slugify fl http_get cwd nthreads data fs0 sched) !! i = Some th →
  pc th = AtGet →
  Sentinel ∈ queue (shared (cli slugify fl http_get cwd nthreads data fs0 sched))
  ∧ thread_step slugify fl http_get i
      (stop_event (cli slugify fl http_get cwd nthreads data fs0 sched)) th
      (shared (cli slugify fl http_get cwd nthreads data fs0 sched))
    ≠ None.
Proof.
  intros Hi Hpc. unfold cli in *. set (m := foldl _ _ sched) in *.
  assert (machine_inv m) as Hinv.
  { apply machine_inv_foldl. constructor; cbn; [done|lia|done]. }
  pose proof (get_does_not_block m i th Hinv Hi Hpc) as Hqueue.
  split.
  - destruct Hinv as [_ Hsupply Hget].
    assert (th ∈ filter (λ th, spent th = false) (threads m)) as Hin.
    { apply list_elem_of_filter. split; [|by eapply list_elem_of_lookup_2].
      unfold spent. rewrite Hpc. by rewrite (Hget i th Hi Hpc). }
    destruct (filter (λ x, x = Sentinel) (queue (shared m))) as [|x l] eqn:Hf.
    + destruct (filter _ (threads m)); [by apply elem_of_nil in Hin|].
      cbn in Hsupply. lia.
    + assert (x ∈ filter (λ x, x = Sentinel) (queue (shared m))) as Hx
        by (rewrite Hf; apply list_elem_of_here).
      apply list_elem_of_filter in Hx as [-> Hx]. done.
  - unfold thread_step. rewrite Hpc.
    destruct (queue (shared m)) as [|[entry|] q]; done.
Qed.

Lemma get_never_blocks_witness :
  Sentinel ∈ queue (shared (cli Samples.slug Samples.troubles Samples.remote
                              Samples.cwd 1 [Samples.live] ∅
                              [Spawn; Step 0]))
  ∧ thread_step Samples.slug Samples.troubles Samples.remote 0
      (stop_event (cli Samples.slug Samples.troubles Samples.remote
                     Samples.cwd 1 [Samples.live] ∅
                     [Spawn; Step 0]))
      {| pc := AtGet; me := Samples.worker0 |}
      (shared (cli Samples.slug Samples.troubles Samples.remote
                 Samples.cwd 1 [Samples.live] ∅
                 [Spawn; Step 0]))
    ≠ None.
Proof.
  apply (get_never_blocks Samples.slug Samples.troubles Samples.remote
           Samples.cwd 1 [Samples.live] ∅
           [Spawn; Step 0] 0 {| pc := AtGet; me := Samples.worker0 |}).
  - vm_compute. reflexivity.
  - reflexivity.
Defined.

(** X23.  Cancellation, with the threads interleaved operation by
    operation.  Once the stop event is set, whatever the threads do next,
    however they are scheduled and whatever fails, a worker takes at most
    one more item from the queue, and none unless the event was set while
    it was about to call [queue.get()]; it opens at most one more file, and
    none unless it was between that call and [open]; it writes at most one
    more chunk, and none unless it had already looked at the event for that
    chunk; and it never both takes an item and writes a chunk.  Its [run]
    has returned after at most 14 more of its own operations, and no new
    worker is started. *)
Theorem cancellation_is_prompt (slugify : string → string) fl http_get cwd
    nthreads data fs0 sched more i th :
  stop_event (cli slugify fl http_get cwd nthreads data fs0 sched) = true →
  threads (cli slugify fl http_get cwd nthreads data fs0 sched) !! i = Some th →
  (∀ k,
     length (done_by k i
               (trace (cli slugify fl http_get cwd nthreads data fs0
                         (sched ++ more))))
     ≤ length (done_by k i
                 (trace (cli slugify fl http_get cwd nthreads data fs0 sched)))
       + allowance k (pc th)
     ∧ allowance k (pc th) ≤ 1)
  ∧ allowance Getting (pc th) + allowance Writing (pc th) ≤ 1
  ∧ length (threads (cli slugify fl http_get cwd nthreads data fs0
                       (sched ++ more)))
    = length (threads (cli slugify fl http_get cwd nthreads data fs0 sched))
  ∧ distance (pc th) ≤ 14
  ∧ (distance (pc th) ≤ steps_of i more →
     pc_of i (cli slugify fl http_get cwd nthreads data fs0 (sched ++ more))
     = Done).
Proof.
  intros Hstop Hi. unfold cli in *. rewrite foldl_app.
  set (m := foldl _ _ sched) in *.
  assert (machine_inv m) as Hinv.
  { apply machine_inv_foldl. constructor; cbn; [done|lia|done]. }
  destruct (foldl_stopped slugify fl http_get (path_div cwd "output") more m Hstop)
    as [_ Hall].
  assert (pc_of i m = pc th) as Hpc by (unfold pc_of; by rewrite Hi).
  split.
  { intros k. specialize (Hall k i). rewrite Hpc in Hall.
    split; [lia|]. destruct k, (pc th); cbn; lia. }
  split; [destruct (pc th); cbn; lia|].
  assert (∀ more m, machine_inv m → stop_event m = true →
            length (threads (foldl (λ m e,
                       exec slugify fl http_get (path_div cwd "output") e m) m more))
            = length (threads m)) as Hlen.
  { clear. induction more as [|e more IH]; intros m Hinv Hstop; cbn [foldl]; [done|].
    destruct (exec_stopped slugify fl http_get (path_div cwd "output") e m Hstop)
      as [Hstop' _].
    rewrite IH by (by try apply machine_inv_exec).
    destruct e as [|j|]; cbn [Threads.exec].
    - unfold spawn. by rewrite (inv_stop _ Hinv Hstop).
    - unfold Threads.step. destruct (threads m !! j); [|done].
      destruct (thread_step _ _ _ _ _ _ _) as [[[? ?] ?]|]; [|done].
      cbn. by rewrite length_insert.
    - unfold cancel. by destruct (unspawned m). }
  split; [by apply Hlen|].
  pose proof (foldl_nearer slugify fl http_get (path_div cwd "output") more m i
                Hinv Hstop (lookup_lt_Some _ _ _ Hi)) as Hnear.
  rewrite Hpc in Hnear.
  split; [destruct (pc th); cbn; lia|].
  intros Hsteps.
  assert (distance (pc_of i (foldl (λ m e,
             exec slugify fl http_get (path_div cwd "output") e m) m more)) = 0)
    as Hzero by lia.
  revert Hzero.
  match goal with |- context [pc_of i ?x] => generalize (pc_of i x) end.
  by intros [].
Qed.

(** Two workers, [talk] and [live].  Worker 0 has taken [talk] and worker 1
    is about to call [queue.get()] when the event is set. *)
Lemma cancellation_is_prompt_witness :
  (∀ k,
     length (done_by k 1
               (trace (cli Samples.slug Faulty.no_faults Samples.remote
                         Samples.cwd 2 [Samples.talk; Samples.live] ∅
                         ([Spawn; Spawn; Step 0; Step 0; Step 1; Cancel]
                            ++ replicate 14 (Step 1) ++ replicate 13 (Step 0)))))
     ≤ length (done_by k 1
                 (trace (cli Samples.slug Faulty.no_faults Samples.remote
                           Samples.cwd 2 [Samples.talk; Samples.live] ∅
                           [Spawn; Spawn; Step 0; Step 0; Step 1; Cancel])))
       + allowance k AtGet
     ∧ allowance k AtGet ≤ 1)
  ∧ allowance Getting AtGet + allowance Writing AtGet ≤ 1
  ∧ length (threads (cli Samples.slug Faulty.no_faults Samples.remote Samples.cwd 2
                       [Samples.talk; Samples.live] ∅
                       ([Spawn; Spawn; Step 0; Step 0; Step 1; Cancel]
                          ++ replicate 14 (Step 1) ++ replicate 13 (Step 0))))
    = length (threads (cli Samples.slug Faulty.no_faults Samples.remote
                         Samples.cwd 2 [Samples.talk; Samples.live] ∅
                         [Spawn; Spawn; Step 0; Step 0; Step 1; Cancel]))
  ∧ distance AtGet ≤ 14
  ∧ (distance AtGet
     ≤ steps_of 1 (replicate 14 (Step 1) ++ replicate 13 (Step 0)) →
     pc_of 1 (cli Samples.slug Faulty.no_faults Samples.remote Samples.cwd 2
                [Samples.talk; Samples.live] ∅
                ([Spawn; Spawn; Step 0; Step 0; Step 1; Cancel]
                   ++ replicate 14 (Step 1) ++ replicate 13 (Step 0)))
     = Done).
Proof.
  apply (cancellation_is_prompt Samples.slug Faulty.no_faults Samples.remote
           Samples.cwd 2 [Samples.talk; Samples.live] ∅
           [Spawn; Spawn; Step 0; Step 0; Step 1; Cancel]
           (replicate 14 (Step 1) ++ replicate 13 (Step 0)) 1
           {| pc := AtGet; me := Samples.worker0 |});
    vm_compute; reflexivity.
Defined.

(** The same run, evaluated.  After the event is set worker 1 still takes
    [live]: it opens the file, and so leaves it empty, writes nothing, and
    counts the job; worker 0 opens the file of [talk] and writes nothing.
    Both have returned. *)
Example cancelled_run :
  trace (cli Samples.slug Faulty.no_faults Samples.remote Samples.cwd 2
           [Samples.talk; Samples.live] ∅
           ([Spawn; Spawn; Step 0; Step 0; Step 1; Cancel]
              ++ replicate 14 (Step 1) ++ replicate 13 (Step 0)))
  = [(0, Got (Job Samples.talk));
     (1, Got (Job Samples.live));
     (1, OpenedFile ["home"; "user"; "output"; "live.mp4"]);
     (0, OpenedFile ["home"; "user"; "output"; "talk.mp4"])]
  ∧ fs (shared (cli Samples.slug Faulty.no_faults Samples.remote Samples.cwd 2
                  [Samples.talk; Samples.live] ∅
                  ([Spawn; Spawn; Step 0; Step 0; Step 1; Cancel]
                     ++ replicate 14 (Step 1) ++ replicate 13 (Step 0))))
    = {[ ["home"; "user"; "output"; "live.mp4"] := [];
         ["home"; "user"; "output"; "talk.mp4"] := [] ]}
  ∧ overall_completed
      (shared (cli Samples.slug Faulty.no_faults Samples.remote Samples.cwd 2
                 [Samples.talk; Samples.live] ∅
                 ([Spawn; Spawn; Step 0; Step 0; Step 1; Cancel]
                    ++ replicate 14 (Step 1) ++ replicate 13 (Step 0))))
    = 2%Z
  ∧ map pc (threads (cli Samples.slug Faulty.no_faults Samples.remote Samples.cwd 2
                       [Samples.talk; Samples.live] ∅
                       ([Spawn; Spawn; Step 0; Step 0; Step 1; Cancel]
                          ++ replicate 14 (Step 1) ++ replicate 13 (Step 0))))
    = [Done; Done].
Proof. repeat split; vm_compute; reflexivity. Qed.

End ThreadsProps.
